(** * PL/0 toolchain: lexer, code generator and PM/0 virtual machine

    Shallow embedding of

    - [lexer-master/lexical_analyzer.c]      (module [Lexer]),
    - [code_generator-master/code_generator.c] (module [CodeGen]),
    - [assignment1_pm0-master/vm.c]          (module [VM]),

    followed by the properties checked against the specification.

    The headers [token.h], [data.h], [symbol.h], [lexical_analyzer.h] and
    [vm.h] are not among the sources.  What the three C files need from
    them is written down once, in the first part of this file, and marked
    as such. *)

From stdpp Require Import prelude strings.
From Stdlib Require Import ZArith String Ascii List Lia.
Import ListNotations.

Local Open Scope string_scope.
Local Open Scope list_scope.
Local Open Scope Z_scope.

(* stdpp freezes [String.append] for [simpl]; the proofs below compute
   with it. *)
#[local] Arguments String.append !_ _ / : simpl nomatch.

(* ===================================================================== *)
(** * Shared declarations (token.h, data.h)                               *)
(* ===================================================================== *)

(** Modelled from the spec: [Token] of [token.h], which is not among the
    sources ("a pair (kind, lexeme)"); the fields are the ones the C files
    read and write, [token.id] and [token.lexeme]. *)
Record Token := mkToken { id : Z; lexeme : string }.

(** Modelled from the spec: the token id space of [token.h], which is not
    among the sources.  The numbering is the one the C files rely on:
    [token.id = 2] for identifiers and [token.id = 3] for numbers in
    [DFA_Alpha]/[DFA_Digit], and "calling the function with symbol const
    returns 28" in the comment of [checkReservedTokens]. *)
Definition nulsym : Z := 1.
Definition identsym : Z := 2.
Definition numbersym : Z := 3.
Definition plussym : Z := 4.
Definition minussym : Z := 5.
Definition multsym : Z := 6.
Definition slashsym : Z := 7.
Definition oddsym : Z := 8.
Definition eqsym : Z := 9.
Definition neqsym : Z := 10.
Definition lessym : Z := 11.
Definition leqsym : Z := 12.
Definition gtrsym : Z := 13.
Definition geqsym : Z := 14.
Definition lparentsym : Z := 15.
Definition rparentsym : Z := 16.
Definition commasym : Z := 17.
Definition semicolonsym : Z := 18.
Definition periodsym : Z := 19.
Definition becomessym : Z := 20.
Definition beginsym : Z := 21.
Definition endsym : Z := 22.
Definition ifsym : Z := 23.
Definition thensym : Z := 24.
Definition whilesym : Z := 25.
Definition dosym : Z := 26.
Definition callsym : Z := 27.
Definition constsym : Z := 28.
Definition varsym : Z := 29.
Definition procsym : Z := 30.
Definition writesym : Z := 31.
Definition readsym : Z := 32.
Definition elsesym : Z := 33.

(** Modelled from the spec: the reserved-word part of the [tokens] table of
    [token.h] (entries [firstReservedToken .. lastReservedToken] that an
    alphanumeric lexeme can match), in increasing id order, which is the
    order in which [checkReservedTokens] scans it. *)
Definition tokens : list (Z * string) :=
  [ (oddsym, "odd"); (beginsym, "begin"); (endsym, "end"); (ifsym, "if");
    (thensym, "then"); (whilesym, "while"); (dosym, "do"); (callsym, "call");
    (constsym, "const"); (varsym, "var"); (procsym, "procedure");
    (writesym, "write"); (readsym, "read"); (elsesym, "else") ].

(** Modelled from the spec: the size limits of [data.h] ("MAX_CODE >= 500
    recommended, MAX_STACK >= 2000 recommended"). *)
Definition MAX_CODE_LENGTH : Z := 500.
Definition MAX_STACK_HEIGHT : Z := 2000.

(** Modelled from the spec: the opcode names of [data.h], which is not
    among the sources, numbered as in the opcode table of the spec, the
    [switch] of [executeInstruction] and the [opcodes] table of [vm.c]; the
    code generator uses the names. *)
Definition LIT : Z := 1.
Definition RTN : Z := 2.
Definition LOD : Z := 3.
Definition STO : Z := 4.
Definition CAL : Z := 5.
Definition INC : Z := 6.
Definition JMP : Z := 7.
Definition JPC : Z := 8.
Definition SIO_WRITE : Z := 9.
Definition SIO_READ : Z := 10.
Definition SIO_HALT : Z := 11.
Definition NEG : Z := 12.
Definition ADD : Z := 13.
Definition SUB : Z := 14.
Definition MUL : Z := 15.
Definition DIV : Z := 16.
Definition ODD : Z := 17.
Definition EQL : Z := 19.
Definition NEQ : Z := 20.
Definition LSS : Z := 21.
Definition LEQ : Z := 22.
Definition GTR : Z := 23.
Definition GEQ : Z := 24.

(** C [int]: 32 bits, two's complement.  [wrap32] is the value an [int]
    object holds after a result [z] is stored into it. *)
Definition wrap32 (z : Z) : Z := (z + 2 ^ 31) mod 2 ^ 32 - 2 ^ 31.

(** C [unsigned int] arithmetic is modulo 2^32. *)
Definition wrapu32 (z : Z) : Z := z mod 2 ^ 32.

(* ===================================================================== *)
(** * The lexer (lexical_analyzer.c)                                      *)
(* ===================================================================== *)

Module Lexer.

(** Modelled from the spec: [LexErr] of [lexical_analyzer.h], which is not
    among the sources, with the constructor names the C file uses. *)
Inductive LexErr :=
| NONE | NO_SOURCE_CODE | NAME_TOO_LONG | NUM_TOO_LONG
| NONLETTER_VAR_INITIAL | INV_SYM.

Definition LexErr_eqb (a b : LexErr) : bool :=
  match a, b with
  | NONE, NONE | NO_SOURCE_CODE, NO_SOURCE_CODE
  | NAME_TOO_LONG, NAME_TOO_LONG | NUM_TOO_LONG, NUM_TOO_LONG
  | NONLETTER_VAR_INITIAL, NONLETTER_VAR_INITIAL | INV_SYM, INV_SYM => true
  | _, _ => false
  end.

Inductive SymbolType := ALPHA | DIGIT | SPECIAL | INVALID.

(** The source is a C string: the characters of [sourceCode] followed by
    the terminating NUL.  [charInd] indexes that array; index
    [length sourceCode] holds the NUL and any larger index lies outside the
    string. *)
Record LexerState := mkLexerState {
  lineNum : Z;
  charInd : nat;
  sourceCode : string;
  lexerError : LexErr;
  tokenList : list Token
}.

(** Modelled from the spec: [LexerOut] of [lexical_analyzer.h], which is
    not among the sources.  It is what [lexicalAnalyzer] hands back: the members
    [lexerError], [errorLine] and [tokenList] of the C struct.
    [out_tokenList] is [None] when the member was never assigned. *)
Record LexerOut := mkLexerOut {
  out_lexerError : LexErr;
  errorLine : Z;
  out_tokenList : option (list Token)
}.

(** Outcome of running a piece of the lexer: it returns, or it reads
    [sourceCode] at an index beyond the terminating NUL, or it writes the
    local array [lexeme] of [DFA_Alpha] or [DFA_Digit] beyond its last
    element (neither has defined behaviour in C), or the model's loop
    budget is used up. *)
Inductive run (A : Type) :=
| Returns (a : A)
| ReadsPastEnd
| WritesPastLexeme
| OutOfFuel.
Arguments Returns {A} a.
Arguments ReadsPastEnd {A}.
Arguments WritesPastLexeme {A}.
Arguments OutOfFuel {A}.

Definition NUL : ascii := "000"%char.

Definition code (c : ascii) : N := N_of_ascii c.

Definition isalpha (c : ascii) : bool :=
  ((65 <=? code c) && (code c <=? 90) || (97 <=? code c) && (code c <=? 122))%N.

Definition isdigit (c : ascii) : bool :=
  ((48 <=? code c) && (code c <=? 57))%N.

Definition isalnum (c : ascii) : bool := isalpha c || isdigit c.

Definition ch_is (c d : ascii) : bool := Ascii.eqb c d.

Definition isSpecialSymbol (c : ascii) : bool :=
  ch_is c "+" || ch_is c "-" || ch_is c "*" || ch_is c "/" ||
  ch_is c "(" || ch_is c ")" || ch_is c "=" || ch_is c "," ||
  ch_is c "." || ch_is c "<" || ch_is c ">" || ch_is c ";" ||
  ch_is c ":".

Definition getSymbolType (c : ascii) : SymbolType :=
  if isalpha c then ALPHA
  else if isdigit c then DIGIT
  else if isSpecialSymbol c then SPECIAL
  else INVALID.

(** [checkReservedTokens]: first table entry equal to the lexeme, else -1. *)
Fixpoint scanReserved (table : list (Z * string)) (symbol : string) : Z :=
  match table with
  | [] => -1
  | (i, w) :: table' => if String.eqb symbol w then i else scanReserved table' symbol
  end.

Definition checkReservedTokens (symbol : string) : Z := scanReserved tokens symbol.

(** The characters of the source from index [n] on (without the NUL). *)
Fixpoint string_from (n : nat) (s : string) : string :=
  match n, s with
  | O, _ => s
  | S n', String _ s' => string_from n' s'
  | S _, EmptyString => EmptyString
  end.

(** [s[0]] of a C string whose characters are [s]: the NUL when [s] is
    empty. *)
Definition first (s : string) : ascii :=
  match s with String c _ => c | EmptyString => NUL end.

Definition rest_of (s : string) : string :=
  match s with String _ s' => s' | EmptyString => EmptyString end.

Definition here (st : LexerState) : string :=
  string_from (charInd st) (sourceCode st).

(** [lexerState.sourceCode[lexerState.charInd]], when the index is inside
    the string (terminator included). *)
Definition peek (st : LexerState) : option ascii :=
  if (charInd st <=? String.length (sourceCode st))%nat
  then Some (first (here st)) else None.

Definition advance (k : nat) (st : LexerState) : LexerState :=
  mkLexerState (lineNum st) (charInd st + k)%nat (sourceCode st)
               (lexerError st) (tokenList st).

Definition setError (e : LexErr) (st : LexerState) : LexerState :=
  mkLexerState (lineNum st) (charInd st) (sourceCode st) e (tokenList st).

Definition addToken (t : Token) (st : LexerState) : LexerState :=
  mkLexerState (lineNum st) (charInd st) (sourceCode st) (lexerError st)
               (tokenList st ++ [t]).

Definition newLine (st : LexerState) : LexerState :=
  mkLexerState (lineNum st + 1) (charInd st) (sourceCode st) (lexerError st)
               (tokenList st).

Definition snoc (s : string) (c : ascii) : string :=
  (s ++ String c EmptyString)%string.

Section WithLexemeLength.

(** [MAX_LEXEME_LENGTH] of [token.h] is not among the sources; the lexer is
    parameterised by it. *)
Variable MAX_LEXEME_LENGTH : Z.

(** The [for] loop of [DFA_Alpha].  [rest] is the source from [charInd] on,
    [i] the loop counter, [lexeme] the characters stored so far (the C code
    stores character number [i] at [lexeme[i-1]], so storing is appending;
    the test before the store keeps the index [i-1] at most
    [MAX_LEXEME_LENGTH], inside [char lexeme[MAX_LEXEME_LENGTH + 1]]).
    The result is the state together with [Some (i, lexeme)] when the loop
    condition fails, or [None] when the loop body returned with
    [NAME_TOO_LONG]. *)
Fixpoint alpha_loop (rest : string) (i : Z) (lexeme : string) (st : LexerState)
  : LexerState * option (Z * string) :=
  match rest with
  | EmptyString => (st, Some (i, lexeme))
  | String c rest' =>
      if isalpha c || isdigit c then
        let st := advance 1 st in
        if i - 1 >? MAX_LEXEME_LENGTH
        then (setError NAME_TOO_LONG st, None)
        else alpha_loop rest' (i + 1) (snoc lexeme c) st
      else (st, Some (i, lexeme))
  end.

(** [DFA_Alpha].  After the loop, [lexeme[i] = '\0'] writes the
    terminator at the index that is the number of characters stored: when
    [MAX_LEXEME_LENGTH + 1] characters were stored, that is one past the
    last element of [char lexeme[MAX_LEXEME_LENGTH + 1]]. *)
Definition DFA_Alpha (st : LexerState) : run LexerState :=
  match alpha_loop (here st) 1 "" st with
  | (st, None) => Returns st
  | (st, Some (i, lexeme)) =>
      let i := i - 1 in
      if i >? MAX_LEXEME_LENGTH then WritesPastLexeme
      else if i >? 11 then Returns (setError NAME_TOO_LONG st)
      else if negb (checkReservedTokens lexeme =? -1)
      then Returns (addToken (mkToken (checkReservedTokens lexeme) lexeme) st)
      else Returns (addToken (mkToken 2 lexeme) st)
  end.

(** The [for] loop of [DFA_Digit]; as [alpha_loop], with the [yesAlpha]
    flag of the C code. *)
Fixpoint digit_loop (rest : string) (i : Z) (yesAlpha : bool) (lexeme : string)
  (st : LexerState) : LexerState * option (Z * string) :=
  match rest with
  | EmptyString => (st, Some (i, lexeme))
  | String c rest' =>
      if isalpha c || isdigit c then
        let st := advance 1 st in
        let yesAlpha := if isalpha c then true else yesAlpha in
        if i - 1 >? MAX_LEXEME_LENGTH
        then (setError NUM_TOO_LONG st, None)
        else if yesAlpha
        then (setError NONLETTER_VAR_INITIAL st, None)
        else digit_loop rest' (i + 1) yesAlpha (snoc lexeme c) st
      else (st, Some (i, lexeme))
  end.

(** [DFA_Digit]; the terminator is written as in [DFA_Alpha]. *)
Definition DFA_Digit (st : LexerState) : run LexerState :=
  match digit_loop (here st) 1 false "" st with
  | (st, None) => Returns st
  | (st, Some (i, lexeme)) =>
      let i := i - 1 in
      if i >? MAX_LEXEME_LENGTH then WritesPastLexeme
      else if i >? 5 then Returns (setError NUM_TOO_LONG st)
      else Returns (addToken (mkToken 3 lexeme) st)
  end.

(** The [while (exit == 0)] loop of [DFA_Special].  [rest] holds the
    characters after index [charInd]; each round increments [charInd] and
    reads the character there.  When [rest] is empty that character is the
    terminating NUL, which is not a star, and the round after it reads
    beyond the string. *)
Fixpoint comment_loop (rest : string) (st : LexerState) : run LexerState :=
  match rest with
  | EmptyString => ReadsPastEnd
  | String c rest' =>
      let st := advance 1 st in
      if ch_is c "*" then
        if ch_is (first rest') "/" then Returns (advance 2 st)
        else comment_loop rest' st
      else comment_loop rest' st
  end.

Definition DFA_Special (st : LexerState) : run LexerState :=
  let c0 := first (here st) in
  let c1 := first (rest_of (here st)) in
  let emit1 (t : Z) (lx : string) := Returns (advance 1 (addToken (mkToken t lx) st)) in
  let emit2 (t : Z) (lx : string) :=
    Returns (advance 1 (addToken (mkToken t lx) (advance 1 st))) in
  if ch_is c0 "/" then
    if ch_is c1 "*" then comment_loop (rest_of (rest_of (here st))) (advance 1 st)
    else emit1 slashsym "/"
  else if ch_is c0 "<" then
    if ch_is c1 "=" then emit2 leqsym "<="
    else if ch_is c1 ">" then emit2 neqsym "<>"
    else emit1 lessym "<"
  else if ch_is c0 ":" then
    if ch_is c1 "=" then emit2 becomessym ":="
    else Returns (advance 1 st)
  else if ch_is c0 ">" then
    if ch_is c1 "=" then emit2 geqsym ">="
    else emit1 gtrsym ">"
  else if ch_is c0 "+" then emit1 plussym "+"
  else if ch_is c0 ")" then emit1 rparentsym ")"
  else if ch_is c0 "-" then emit1 minussym "-"
  else if ch_is c0 "=" then emit1 eqsym "="
  else if ch_is c0 "," then emit1 commasym ","
  else if ch_is c0 "*" then emit1 multsym "*"
  else if ch_is c0 ";" then emit1 semicolonsym ";"
  else if ch_is c0 "/" then emit1 slashsym "/"
  else if ch_is c0 "(" then emit1 lparentsym "("
  else if ch_is c0 "." then emit1 periodsym "."
  else Returns (advance 1 st).

(** The inner loop of [lexicalAnalyzer] that skips blanks and newlines;
    [rest] is the source from [charInd] on. *)
Fixpoint skip_blanks (rest : string) (st : LexerState) : LexerState :=
  match rest with
  | EmptyString => st
  | String c rest' =>
      if ch_is c " " || ch_is c "010" then
        let st := if ch_is c "010" then newLine st else st in
        skip_blanks rest' (advance 1 st)
      else st
  end.

(** The outer [while] loop of [lexicalAnalyzer]; one unit of [fuel] per
    round. *)
Fixpoint lex_loop (fuel : nat) (st : LexerState) : run LexerState :=
  match fuel with
  | O => OutOfFuel
  | S fuel' =>
      match peek st with
      | None => ReadsPastEnd
      | Some c =>
          if negb (ch_is c NUL) && LexErr_eqb (lexerError st) NONE then
            let st := skip_blanks (here st) st in
            let currentSymbol := first (here st) in
            if ch_is currentSymbol NUL then Returns st
            else
              match getSymbolType currentSymbol with
              | ALPHA =>
                  match DFA_Alpha st with
                  | Returns st => lex_loop fuel' st
                  | ReadsPastEnd => ReadsPastEnd
                  | WritesPastLexeme => WritesPastLexeme
                  | OutOfFuel => OutOfFuel
                  end
              | DIGIT =>
                  match DFA_Digit st with
                  | Returns st => lex_loop fuel' st
                  | ReadsPastEnd => ReadsPastEnd
                  | WritesPastLexeme => WritesPastLexeme
                  | OutOfFuel => OutOfFuel
                  end
              | SPECIAL =>
                  match DFA_Special st with
                  | Returns st => lex_loop fuel' st
                  | ReadsPastEnd => ReadsPastEnd
                  | WritesPastLexeme => WritesPastLexeme
                  | OutOfFuel => OutOfFuel
                  end
              | INVALID => lex_loop fuel' (setError INV_SYM st)
              end
          else Returns st
      end
  end.

Definition initLexerState (sourceCode : string) : LexerState :=
  mkLexerState 0 0 sourceCode NONE [].

(** [lexicalAnalyzer]; [None] is the NULL pointer.  Every round of the
    outer loop that does not end it consumes a character, so
    [length sourceCode + 1] rounds are enough. *)
Definition lexicalAnalyzer (sourceCode : option string) : run LexerOut :=
  match sourceCode with
  | None => Returns (mkLexerOut NO_SOURCE_CODE (-1) None)
  | Some src =>
      match lex_loop (S (String.length src)) (initLexerState src) with
      | Returns st =>
          if negb (LexErr_eqb (lexerError st) NONE)
          then Returns (mkLexerOut (lexerError st) (lineNum st) (Some (tokenList st)))
          else Returns (mkLexerOut NONE (-1) (Some (tokenList st)))
      | ReadsPastEnd => ReadsPastEnd
      | WritesPastLexeme => WritesPastLexeme
      | OutOfFuel => OutOfFuel
      end
  end.

End WithLexemeLength.

End Lexer.

(* ===================================================================== *)
(** * The code generator (code_generator.c)                               *)
(* ===================================================================== *)

Module CodeGen.

(** Modelled from the spec: the symbol kinds of [symbol.h], which is not
    among the sources ("kind in CONST, VAR, PROC"). *)
Inductive SymbolKind := CONST | VAR | PROC.

Definition SymbolKind_eqb (a b : SymbolKind) : bool :=
  match a, b with
  | CONST, CONST | VAR, VAR | PROC, PROC => true
  | _, _ => false
  end.

(** An [int] object of the generator: either it was written, and holds a
    value, or no statement of the program ever wrote it and its content is
    indeterminate. *)
Inductive cint := Known (z : Z) | Indeterminate.

(** Modelled from the spec: [Symbol] of [symbol.h], which is not among the
    sources, with the members [code_generator.c] touches.  The declarations
    write [type], [level] and [name] (and [value] for constants); [value]
    and [address] start out indeterminate, as the members of a local
    [Symbol] or of a fresh [malloc] block do. *)
Record Symbol := mkSymbol {
  type : SymbolKind;
  name : string;
  value : cint;
  level : Z;
  address : cint
}.

(** Modelled from the spec: [Instruction] of [data.h], which is not among
    the sources ("a 4-tuple (op, r, l, m)"); [l] and [m] can be copied from
    a symbol's [address]. *)
Record Instruction := mkInstruction { op : Z; r : Z; l : cint; m : cint }.

(** The file-scope variables of [code_generator.c].  [vmCode] holds the
    instructions emitted so far, so [nextCodeIndex] is its length;
    [currentLevel] is an [unsigned int].  [currentScope] is a pointer to a
    local [Symbol] of [proc_declaration] ([None] is NULL); the model holds
    the pointee's contents, and keeps them once that local is gone. *)
Record CG := mkCG {
  tokenList : list Token;
  currentTokenInd : nat;
  currentLevel : Z;
  currentScope : option Symbol;
  symbolTable : list Symbol;
  vmCode : list Instruction;
  currentReg : Z
}.

Definition nextCodeIndex (s : CG) : Z := Z.of_nat (length (vmCode s)).

(** Outcome of a parsing function: it returns a value in a new state, or
    the process ends in [emit] through [exit(0)], or a NULL result of
    [findSymbol] is dereferenced, or the model's recursion budget is used
    up. *)
Inductive result (A : Type) :=
| Ret (a : A) (s : CG)
| Exits (s : CG)
| NullDeref (s : CG)
| NoFuel.
Arguments Ret {A} a s.
Arguments Exits {A} s.
Arguments NullDeref {A} s.
Arguments NoFuel {A}.

Definition Gen (A : Type) : Type := CG -> result A.

Definition ret {A} (a : A) : Gen A := fun s => Ret a s.

Definition bind {A B} (c : Gen A) (k : A -> Gen B) : Gen B :=
  fun s =>
    match c s with
    | Ret a s' => k a s'
    | Exits s' => Exits s'
    | NullDeref s' => NullDeref s'
    | NoFuel => NoFuel
    end.

Declare Scope cg_scope.
Delimit Scope cg_scope with cg.
Notation "x <- c1 ;; c2" := (bind c1 (fun x => c2))
  (at level 100, c1 at next level, right associativity) : cg_scope.
Notation "c1 ;; c2" := (bind c1 (fun _ => c2))
  (at level 100, right associativity) : cg_scope.
Local Open Scope cg_scope.

(** [err = f(); if(err) return err;] followed by the rest of the body. *)
Definition orReturn (c : Gen Z) (k : Gen Z) : Gen Z :=
  err <- c ;; if negb (err =? 0) then ret err else k.
Notation "c1 ;;; c2" := (orReturn c1 c2)
  (at level 100, right associativity) : cg_scope.

Definition get : Gen CG := fun s => Ret s s.
Definition put (s : CG) : Gen unit := fun _ => Ret tt s.
Definition nofuel {A} : Gen A := fun _ => NoFuel.

(** Modelled from the spec: [getCurrentTokenFromIterator] of [token.h]
    ("If it is the end of tokens, returns token with id nulsym"). *)
Definition getCurrentTokenFromIterator (s : CG) : Token :=
  nth (currentTokenInd s) (tokenList s) (mkToken nulsym "").

Definition getCurrentToken : Gen Token :=
  fun s => Ret (getCurrentTokenFromIterator s) s.

Definition getCurrentTokenType : Gen Z :=
  t <- getCurrentToken ;; ret (id t).

Definition nextToken : Gen unit :=
  fun s => Ret tt (mkCG (tokenList s) (S (currentTokenInd s)) (currentLevel s)
                        (currentScope s) (symbolTable s) (vmCode s) (currentReg s)).

Definition emit (OP R : Z) (L M : cint) : Gen Z :=
  fun s =>
    if nextCodeIndex s =? MAX_CODE_LENGTH then Exits s
    else Ret (nextCodeIndex s)
             (mkCG (tokenList s) (currentTokenInd s) (currentLevel s)
                   (currentScope s) (symbolTable s)
                   (vmCode s ++ [mkInstruction OP R L M]) (currentReg s)).

(** [vmCode[ref].m = nextCodeIndex]. *)
Definition patch_m (ref : Z) : Gen unit :=
  fun s =>
    Ret tt (mkCG (tokenList s) (currentTokenInd s) (currentLevel s)
                 (currentScope s) (symbolTable s)
                 (alter (fun i => mkInstruction (op i) (r i) (l i) (Known (nextCodeIndex s)))
                        (Z.to_nat ref) (vmCode s))
                 (currentReg s)).

Definition setCurrentReg (f : Z -> Z) : Gen unit :=
  fun s => Ret tt (mkCG (tokenList s) (currentTokenInd s) (currentLevel s)
                        (currentScope s) (symbolTable s) (vmCode s) (f (currentReg s))).

Definition setCurrentLevel (f : Z -> Z) : Gen unit :=
  fun s => Ret tt (mkCG (tokenList s) (currentTokenInd s) (f (currentLevel s))
                        (currentScope s) (symbolTable s) (vmCode s) (currentReg s)).

Definition setCurrentScope (p : option Symbol) : Gen unit :=
  fun s => Ret tt (mkCG (tokenList s) (currentTokenInd s) (currentLevel s)
                        p (symbolTable s) (vmCode s) (currentReg s)).

(** Modelled from the spec: [addSymbol] of [symbol.h] ("appends; callers
    must pre-fill name, kind, level, and the kind-appropriate payload";
    "the symbol table does not invent addresses"). *)
Definition addSymbol (sym : Symbol) : Gen unit :=
  fun s => Ret tt (mkCG (tokenList s) (currentTokenInd s) (currentLevel s)
                        (currentScope s) (symbolTable s ++ [sym]) (vmCode s)
                        (currentReg s)).

(** Modelled from the spec: the level visible from a scope.  The global
    scope (NULL) is level 0; inside the procedure a scope points to, the
    level is one more than the level that procedure was declared at. *)
Definition scopeLevel (scope : option Symbol) : Z :=
  match scope with
  | None => 0
  | Some p => level p + 1
  end.

(** Modelled from the spec: [findSymbol] of [symbol.h] ("return the
    most-recently declared symbol of that name whose level is <= the
    current level"; it returns CONST, VAR and PROC symbols alike).  [None]
    is the NULL result. *)
Fixpoint findSymbol (table : list Symbol) (scope : option Symbol)
  (symbolName : string) : option Symbol :=
  match table with
  | [] => None
  | sym :: table' =>
      match findSymbol table' scope symbolName with
      | Some later => Some later
      | None =>
          if String.eqb (name sym) symbolName && (level sym <=? scopeLevel scope)
          then Some sym else None
      end
  end.

(** [findSymbol(&symbolTable, currentScope, getCurrentToken().lexeme)->...]:
    the lookup every use site repeats, followed by the dereference. *)
Definition currentSymbol : Gen Symbol :=
  fun s =>
    match findSymbol (symbolTable s) (currentScope s)
                     (lexeme (getCurrentTokenFromIterator s)) with
    | Some sym => Ret sym s
    | None => NullDeref s
    end.

(** [findLevel].  Its argument is not used.  [currentLevel] is unsigned, so
    the subtraction is done modulo 2^32 and the test [< 0] never holds; the
    difference is then converted to the [int] that is returned. *)
Definition findLevel (foundSymbol : Z) : Gen Z :=
  sym <- currentSymbol ;;
  s <- get ;;
  if wrapu32 (currentLevel s - level sym) <? 0 then ret 0
  else
    sym' <- currentSymbol ;;
    ret (wrap32 (wrapu32 (currentLevel s - level sym'))).

Definition isspace (c : ascii) : bool :=
  Lexer.ch_is c " " || ((9 <=? Lexer.code c) && (Lexer.code c <=? 13))%N.

Fixpoint skipSpaces (s : string) : string :=
  match s with
  | String c s' => if isspace c then skipSpaces s' else s
  | EmptyString => s
  end.

Fixpoint digitsValue (s : string) (acc : Z) : Z :=
  match s with
  | String c s' =>
      if Lexer.isdigit c
      then digitsValue s' (10 * acc + Z.of_N (Lexer.code c - 48))
      else acc
  | EmptyString => acc
  end.

(** [atoi]: blanks, an optional sign, then decimal digits. *)
Definition atoi (s : string) : Z :=
  match skipSpaces s with
  | String "-" s' => wrap32 (- digitsValue s' 0)
  | String "+" s' => wrap32 (digitsValue s' 0)
  | s' => wrap32 (digitsValue s' 0)
  end.

Definition tokenIs (t : Z) : Gen bool :=
  ty <- getCurrentTokenType ;; ret (ty =? t).

(** One declarator of [const_declaration]: [ident "=" number], filling and
    adding the symbol.  The C function has this text twice, once for the
    local [const_symbol] and once in the comma loop for the [malloc]ed
    one. *)
Definition const_item : Gen Z :=
  s <- get ;;
  isIdent <- tokenIs identsym ;;
  if negb isIdent then ret 3 else
  tok <- getCurrentToken ;;
  nextToken ;;
  isEq <- tokenIs eqsym ;;
  if negb isEq then ret 2 else
  nextToken ;;
  isNum <- tokenIs numbersym ;;
  if negb isNum then ret 1 else
  num <- getCurrentToken ;;
  nextToken ;;
  addSymbol (mkSymbol CONST (lexeme tok) (Known (atoi (lexeme num)))
                      (currentLevel s) Indeterminate) ;;
  ret 0.

Fixpoint const_loop (fuel : nat) : Gen Z :=
  match fuel with
  | O => nofuel
  | S fuel' =>
      isComma <- tokenIs commasym ;;
      if isComma then nextToken ;; const_item ;;; const_loop fuel'
      else ret 0
  end.

Definition const_declaration (fuel : nat) : Gen Z :=
  isConst <- tokenIs constsym ;;
  if isConst then
    nextToken ;;
    const_item ;;;
    const_loop fuel ;;;
    (isSemi <- tokenIs semicolonsym ;;
     if isSemi then nextToken ;; ret 0 else ret 4)
  else ret 0.

(** One declarator of [var_declaration]: the identifier, then
    [emit(INC, 0, 0, 2)], then [addSymbol]. *)
Definition var_item : Gen Z :=
  s <- get ;;
  isIdent <- tokenIs identsym ;;
  if negb isIdent then ret 3 else
  tok <- getCurrentToken ;;
  nextToken ;;
  emit INC 0 (Known 0) (Known 2) ;;
  addSymbol (mkSymbol VAR (lexeme tok) Indeterminate (currentLevel s) Indeterminate) ;;
  ret 0.

Fixpoint var_loop (fuel : nat) : Gen Z :=
  match fuel with
  | O => nofuel
  | S fuel' =>
      isComma <- tokenIs commasym ;;
      if isComma then nextToken ;; var_item ;;; var_loop fuel'
      else ret 0
  end.

Definition var_declaration (fuel : nat) : Gen Z :=
  isVar <- tokenIs varsym ;;
  if isVar then
    nextToken ;;
    var_item ;;;
    var_loop fuel ;;;
    (isSemi <- tokenIs semicolonsym ;;
     if isSemi then nextToken ;; ret 0 else ret 4)
  else ret 0.

(** [emit(op, currentReg - 1, currentReg - 1, currentReg); currentReg--;] *)
Definition emitBinary (OP : Z) : Gen unit :=
  s <- get ;;
  emit OP (currentReg s - 1) (Known (currentReg s - 1)) (Known (currentReg s)) ;;
  setCurrentReg (fun c => c - 1).

(** [emit(op, currentReg, findLevel(..), findSymbol(..)->address)] for the
    symbol named by the current token. *)
Definition emitForCurrentSymbol (OP : Z) : Gen Z :=
  s <- get ;;
  sym <- currentSymbol ;;
  lev <- findLevel (level sym) ;;
  emit OP (currentReg s) (Known lev) (address sym).

(** The parsing functions call each other recursively; [fuel] bounds the
    depth of the calls and the number of rounds of each [while] loop.  The
    loops of [expression], [term], [statement] and [proc_declaration] are
    the functions [expression_loop], [term_loop], [statement_loop] and
    [proc_declaration] itself. *)
Fixpoint block (fuel : nat) : Gen Z :=
  match fuel with
  | O => nofuel
  | S fuel' =>
      const_declaration fuel' ;;;
      var_declaration fuel' ;;;
      proc_declaration fuel' ;;;
      statement fuel' ;;;
      ret 0
  end

with proc_declaration (fuel : nat) : Gen Z :=
  match fuel with
  | O => nofuel
  | S fuel' =>
      isProc <- tokenIs procsym ;;
      if negb isProc then ret 0 else
      nextToken ;;
      s <- get ;;
      isIdent <- tokenIs identsym ;;
      if negb isIdent
      then setCurrentScope (Some (mkSymbol PROC "" Indeterminate (currentLevel s) Indeterminate)) ;;
           ret 3
      else
      tok <- getCurrentToken ;;
      let proc_symbol :=
        mkSymbol PROC (lexeme tok) Indeterminate (currentLevel s) Indeterminate in
      setCurrentScope (Some proc_symbol) ;;
      nextToken ;;
      addSymbol proc_symbol ;;
      isSemi <- tokenIs semicolonsym ;;
      if negb isSemi then ret 5 else
      nextToken ;;
      setCurrentLevel (fun lv => wrapu32 (lv + 1)) ;;
      jumpRef <- emit JMP 0 (Known 0) (Known 0) ;;
      emit INC 0 (Known 0) (Known 4) ;;
      block fuel' ;;;
      setCurrentLevel (fun lv => wrapu32 (lv - 1)) ;;
      patch_m jumpRef ;;
      isSemi <- tokenIs semicolonsym ;;
      if negb isSemi then ret 5 else
      nextToken ;;
      proc_declaration fuel'
  end

with statement (fuel : nat) : Gen Z :=
  match fuel with
  | O => nofuel
  | S fuel' =>
      ty <- getCurrentTokenType ;;
      if ty =? identsym then
        sym <- currentSymbol ;;
        if negb (SymbolKind_eqb (type sym) VAR) then ret 16 else
        nextToken ;;
        isBecomes <- tokenIs becomessym ;;
        if negb isBecomes then ret 7 else
        nextToken ;;
        expression fuel' ;;;
        emitForCurrentSymbol STO ;;
        setCurrentReg (fun c => c - 1) ;;
        ret 0
      else if ty =? callsym then
        nextToken ;;
        isIdent <- tokenIs identsym ;;
        if negb isIdent then ret 8 else
        sym <- currentSymbol ;;
        if SymbolKind_eqb (type sym) PROC then
          sym' <- currentSymbol ;;
          emit CAL 0 (address sym') (Known 4) ;;
          nextToken ;;
          ret 0
        else ret 7
      else if ty =? beginsym then
        nextToken ;;
        statement fuel' ;;;
        statement_loop fuel' ;;;
        (isEnd <- tokenIs endsym ;;
         if isEnd then nextToken ;; ret 0 else ret 10)
      else if ty =? ifsym then
        nextToken ;;
        condition fuel' ;;;
        (isThen <- tokenIs thensym ;;
         if negb isThen then ret 9 else
         nextToken ;;
         s <- get ;;
         jpcRef <- emit JPC (currentReg s) (Known 0) (Known 0) ;;
         statement fuel' ;;;
         (isElse <- tokenIs elsesym ;;
          (if isElse then nextToken ;; statement fuel' else ret 0) ;;;
          patch_m jpcRef ;;
          ret 0))
      else if ty =? whilesym then
        nextToken ;;
        condition fuel' ;;;
        (s <- get ;;
         jpcRef <- emit JPC (currentReg s) (Known 0) (Known 0) ;;
         isDo <- tokenIs dosym ;;
         if negb isDo then ret 11 else
         nextToken ;;
         statement fuel' ;;;
         patch_m jpcRef ;;
         ret 0)
      else if ty =? readsym then
        nextToken ;;
        s <- get ;;
        emit SIO_READ (currentReg s) (Known 0) (Known 2) ;;
        isIdent <- tokenIs identsym ;;
        if negb isIdent then ret 3 else
        emitForCurrentSymbol STO ;;
        setCurrentReg (fun c => c - 1) ;;
        nextToken ;;
        ret 0
      else if ty =? writesym then
        nextToken ;;
        isIdent <- tokenIs identsym ;;
        if negb isIdent then ret 3 else
        s <- get ;;
        emit SIO_WRITE (currentReg s) (Known 0) (Known 1) ;;
        nextToken ;;
        ret 0
      else ret 0
  end

with statement_loop (fuel : nat) : Gen Z :=
  match fuel with
  | O => nofuel
  | S fuel' =>
      isSemi <- tokenIs semicolonsym ;;
      if negb isSemi then ret 0 else
      nextToken ;;
      statement fuel' ;;;
      statement_loop fuel'
  end

with condition (fuel : nat) : Gen Z :=
  match fuel with
  | O => nofuel
  | S fuel' =>
      isOdd <- tokenIs oddsym ;;
      if isOdd then
        nextToken ;;
        expression fuel' ;;;
        emitBinary ODD ;;
        ret 0
      else
        expression fuel' ;;;
        (ty <- getCurrentTokenType ;;
         let relop (OP : Z) : Gen Z :=
           emitBinary OP ;; nextToken ;; expression fuel' ;;; ret 0 in
         if ty =? eqsym then relop EQL
         else if ty =? neqsym then relop NEQ
         else if ty =? lessym then relop LSS
         else if ty =? leqsym then relop LEQ
         else if ty =? gtrsym then relop GTR
         else if ty =? geqsym then relop GEQ
         else ret 12)
  end

with expression (fuel : nat) : Gen Z :=
  match fuel with
  | O => nofuel
  | S fuel' =>
      ty <- getCurrentTokenType ;;
      (if (ty =? plussym) || (ty =? minussym) then
         nextToken ;;
         term fuel' ;;;
         (if ty =? plussym then ret 0
          else emitBinary NEG ;; ret 0)
       else term fuel') ;;;
      expression_loop fuel' false false
  end

with expression_loop (fuel : nat) (plus minus : bool) : Gen Z :=
  match fuel with
  | O => nofuel
  | S fuel' =>
      ty <- getCurrentTokenType ;;
      if negb ((ty =? plussym) || (ty =? minussym)) then ret 0 else
      let plus := if ty =? plussym then true else plus in
      let minus := if ty =? plussym then minus
                   else if ty =? minussym then true else minus in
      nextToken ;;
      term fuel' ;;;
      (if minus then emitBinary SUB ;; expression_loop fuel' plus false
       else if plus then emitBinary ADD ;; expression_loop fuel' false minus
       else expression_loop fuel' plus minus)
  end

with term (fuel : nat) : Gen Z :=
  match fuel with
  | O => nofuel
  | S fuel' =>
      factor fuel' ;;;
      term_loop fuel' false false
  end

with term_loop (fuel : nat) (divide multiply : bool) : Gen Z :=
  match fuel with
  | O => nofuel
  | S fuel' =>
      ty <- getCurrentTokenType ;;
      if negb ((ty =? multsym) || (ty =? slashsym)) then ret 0 else
      let multiply := if ty =? multsym then true else multiply in
      let divide := if ty =? multsym then divide
                    else if ty =? slashsym then true else divide in
      nextToken ;;
      factor fuel' ;;;
      (if multiply then emitBinary MUL ;; term_loop fuel' divide false
       else if divide then emitBinary DIV ;; term_loop fuel' false multiply
       else term_loop fuel' divide multiply)
  end

with factor (fuel : nat) : Gen Z :=
  match fuel with
  | O => nofuel
  | S fuel' =>
      ty <- getCurrentTokenType ;;
      if ty =? identsym then
        emitForCurrentSymbol LOD ;;
        setCurrentReg (fun c => c + 1) ;;
        nextToken ;;
        ret 0
      else if ty =? numbersym then
        s <- get ;;
        tok <- getCurrentToken ;;
        emit LIT (currentReg s) (Known 0) (Known (atoi (lexeme tok))) ;;
        setCurrentReg (fun c => c + 1) ;;
        nextToken ;;
        ret 0
      else if ty =? lparentsym then
        nextToken ;;
        expression fuel' ;;;
        (isRparen <- tokenIs rparentsym ;;
         if negb isRparen then ret 13 else
         nextToken ;;
         ret 0)
      else ret 14
  end.

Definition program (fuel : nat) : Gen Z :=
  block fuel ;;;
  (isPeriod <- tokenIs periodsym ;;
   if isPeriod then
     nextToken ;;
     emit SIO_HALT 0 (Known 0) (Known 3) ;;
     ret 0
   else ret 6).

(** The state [codeGenerator] sets up before it calls [program]. *)
Definition initial (tokenList : list Token) : CG :=
  mkCG tokenList 0 0 None [] [] 0.

(** [codeGenerator]: the error code [program] returns, and the state it
    leaves ([vmCode] is what [printEmittedCodes] writes when the code is
    0). *)
Definition codeGenerator (fuel : nat) (tokenList : list Token) : result Z :=
  program fuel (initial tokenList).

End CodeGen.

(* ===================================================================== *)
(** * The virtual machine (vm.c)                                          *)
(* ===================================================================== *)

Module VM.

(** Modelled from the spec: [Instruction] of [data.h], which is not among
    the sources, as [readInstructions] fills it: four [int]s. *)
Record Instruction := mkInstruction { op : Z; r : Z; l : Z; m : Z }.

(** Modelled from the spec: [VirtualMachine] of [vm.h], which is not among
    the sources, with the members [vm.c] uses: [RF] has 16 cells, [stack]
    has [MAX_STACK_HEIGHT]. *)
Record VirtualMachine := mkVM {
  BP : Z;
  SP : Z;
  PC : Z;
  IR : Z;
  RF : list Z;
  stack : list Z
}.

(** [enum { CONT, HALT }]. *)
Definition CONT : Z := 0.
Definition HALT : Z := 1.

(** The streams [executeInstruction] uses: the integers still to be read
    from [vmIn], the integers printed to [vmOut] so far, and the messages
    printed to [stderr] so far. *)
Record Streams := mkStreams {
  vmIn : list Z;
  vmOut : list Z;
  stderr : list string
}.

(** [a[i]] for an array held as a list; [None] when [i] is outside the
    array, where the C access has no defined behaviour. *)
Definition load (a : list Z) (i : Z) : option Z :=
  if i <? 0 then None else a !! Z.to_nat i.

(** [a[i] = v]; [None] when [i] is outside the array. *)
Definition store (a : list Z) (i : Z) (v : Z) : option (list Z) :=
  if (0 <=? i) && (i <? Z.of_nat (length a))
  then Some (<[Z.to_nat i := v]> a) else None.

Definition initVM : VirtualMachine :=
  mkVM 1 0 0 0 (replicate 16 0) (replicate (Z.to_nat MAX_STACK_HEIGHT) 0).

(** The loop of [getBasePointer], [n] rounds. *)
Fixpoint basePointer (stack : list Z) (n : nat) (b1 : Z) : option Z :=
  match n with
  | O => Some b1
  | S n' => b ← load stack (b1 + 1); basePointer stack n' b
  end.

Definition getBasePointer (stack : list Z) (currentBP L : Z) : option Z :=
  basePointer stack (Z.to_nat L) currentBP.

Definition setRF (vm : VirtualMachine) (i v : Z) : option VirtualMachine :=
  rf ← store (RF vm) i v;
  Some (mkVM (BP vm) (SP vm) (PC vm) (IR vm) rf (stack vm)).

Definition setStack (vm : VirtualMachine) (i v : Z) : option VirtualMachine :=
  st ← store (stack vm) i v;
  Some (mkVM (BP vm) (SP vm) (PC vm) (IR vm) (RF vm) st).

Definition setSP (vm : VirtualMachine) (v : Z) : VirtualMachine :=
  mkVM (BP vm) v (PC vm) (IR vm) (RF vm) (stack vm).

Definition setBP (vm : VirtualMachine) (v : Z) : VirtualMachine :=
  mkVM v (SP vm) (PC vm) (IR vm) (RF vm) (stack vm).

Definition setPC (vm : VirtualMachine) (v : Z) : VirtualMachine :=
  mkVM (BP vm) (SP vm) v (IR vm) (RF vm) (stack vm).

Definition b2z (b : bool) : Z := if b then 1 else 0.

(** [RF[r] = f(RF[l], RF[m])]. *)
Definition arith (vm : VirtualMachine) (ins : Instruction)
  (f : Z -> Z -> option Z) : option VirtualMachine :=
  x ← load (RF vm) (l ins);
  y ← load (RF vm) (m ins);
  v ← f x y;
  setRF vm (r ins) v.

(** C integer division and remainder: no defined result for a zero
    divisor (nor for [INT_MIN / -1]); otherwise truncation toward zero. *)
Definition c_div (x y : Z) : option Z :=
  if (y =? 0) || ((x =? - 2 ^ 31) && (y =? -1)) then None else Some (Z.quot x y).

Definition c_mod (x y : Z) : option Z :=
  if (y =? 0) || ((x =? - 2 ^ 31) && (y =? -1)) then None else Some (Z.rem x y).

(** [executeInstruction].  [None]: the C code performs an operation without
    defined behaviour (an array index outside [RF] or [stack], a division
    by zero).  Otherwise the returned status, the new machine and the new
    streams. *)
Definition executeInstruction (vm : VirtualMachine) (ins : Instruction)
  (io : Streams) : option (Z * VirtualMachine * Streams) :=
  let cont (vm' : option VirtualMachine) :=
    vm'' ← vm'; Some (CONT, vm'', io) in
  match op ins with
  | 1 => cont (setRF vm (r ins) (m ins))
  | 2 =>
      let vm1 := setSP vm (wrap32 (BP vm - 1)) in
      cont (bp ← load (stack vm1) (SP vm1 + 3);
            let vm2 := setBP vm1 bp in
            pc ← load (stack vm2) (SP vm2 + 4);
            Some (setPC vm2 pc))
  | 3 =>
      cont (b ← getBasePointer (stack vm) (BP vm) (l ins);
            v ← load (stack vm) (b + m ins);
            setRF vm (r ins) v)
  | 4 =>
      cont (b ← getBasePointer (stack vm) (BP vm) (l ins);
            v ← load (RF vm) (r ins);
            setStack vm (b + m ins) v)
  | 5 =>
      cont (vm1 ← setStack vm (SP vm + 1) 0;
            b ← getBasePointer (stack vm1) (BP vm1) (l ins);
            vm2 ← setStack vm1 (SP vm1 + 2) b;
            vm3 ← setStack vm2 (SP vm2 + 3) (BP vm2);
            vm4 ← setStack vm3 (SP vm3 + 4) (PC vm3);
            Some (setPC (setBP vm4 (wrap32 (SP vm4 + 1))) (m ins)))
  | 6 => cont (Some (setSP vm (wrap32 (SP vm + m ins))))
  | 7 => cont (Some (setPC vm (m ins)))
  | 8 =>
      cont (v ← load (RF vm) (r ins);
            Some (if v =? 0 then setPC vm (m ins) else vm))
  | 9 =>
      v ← load (RF vm) (r ins);
      Some (CONT, vm, mkStreams (vmIn io) (vmOut io ++ [v]) (stderr io))
  | 10 =>
      match vmIn io with
      | [] => _ ← load (RF vm) (r ins); Some (CONT, vm, io)
      | v :: rest =>
          vm' ← setRF vm (r ins) v;
          Some (CONT, vm', mkStreams rest (vmOut io) (stderr io))
      end
  | 11 => Some (HALT, vm, io)
  | 12 =>
      cont (x ← load (RF vm) (l ins); setRF vm (r ins) (wrap32 (0 - x)))
  | 13 => cont (arith vm ins (fun x y => Some (wrap32 (x + y))))
  | 14 => cont (arith vm ins (fun x y => Some (wrap32 (x - y))))
  | 15 => cont (arith vm ins (fun x y => Some (wrap32 (x * y))))
  | 16 => cont (arith vm ins c_div)
  | 17 =>
      cont (x ← load (RF vm) (r ins); setRF vm (r ins) (Z.rem x 2))
  | 18 => cont (arith vm ins c_mod)
  | 19 => cont (arith vm ins (fun x y => Some (b2z (x =? y))))
  | 20 => cont (arith vm ins (fun x y => Some (b2z (negb (x =? y)))))
  | 21 => cont (arith vm ins (fun x y => Some (b2z (x <? y))))
  | 22 => cont (arith vm ins (fun x y => Some (b2z (x <=? y))))
  | 23 => cont (arith vm ins (fun x y => Some (b2z (x >? y))))
  | 24 => cont (arith vm ins (fun x y => Some (b2z (x >=? y))))
  | _ =>
      Some (HALT, vm,
            mkStreams (vmIn io) (vmOut io) (stderr io ++ ["Illegal instruction?"]))
  end.

(** [opcodes]: the names the listing prints, indexed by opcode. *)
Definition opcodes : list string :=
  [ "illegal";
    "lit"; "rtn"; "lod"; "sto"; "cal";
    "inc"; "jmp"; "jpc"; "sio"; "sio";
    "sio"; "neg"; "add"; "sub"; "mul";
    "div"; "odd"; "mod"; "eql"; "neq";
    "lss"; "leq"; "gtr"; "geq" ].

(** [opcodes[op]]; [None] when [op] is outside the 25 entries of the
    array. *)
Definition opcodeName (op : Z) : option string :=
  if op <? 0 then None else opcodes !! Z.to_nat op.

(** The loop of [dumpInstructions]: the name of every loaded instruction
    is looked up in [opcodes]. *)
Definition dumpInstructions (ins : list Instruction) : option (list string) :=
  mapM (fun i => opcodeName (op i)) ins.

(** What [dumpStack] prints: stack cells, and the bar that opens an
    activation record. *)
Inductive StackItem := Cell (v : Z) | Bar.

(** Outcome of [dumpStack]: what it printed; or it read [stack] outside
    the array; or its recursion is still going at the depth the model
    allows. *)
Inductive dump :=
| Dumped (items : list StackItem)
| BadIndex
| TooDeep.

(** The [for] loop of [dumpStack]: the cells [stack[bp]] to [stack[sp]]. *)
Definition record (stack : list Z) (bp sp : Z) : option (list Z) :=
  mapM (load stack) (seqZ bp (sp - bp + 1)).

(** [dumpStack], at most [depth] calls deep.  The recursive call is
    reached only after [stack[bp + 2]] was read inside the array, so
    [bp - 1] does not overflow. *)
Fixpoint dumpStack (depth : nat) (stack : list Z) (sp bp : Z) : dump :=
  match depth with
  | O => TooDeep
  | S depth' =>
      if bp =? 0 then Dumped []
      else
        let former :=
          if bp =? 1 then Dumped [Cell 0]
          else
            match load stack (bp + 2) with
            | None => BadIndex
            | Some b => dumpStack depth' stack (bp - 1) b
            end in
        match former with
        | Dumped items =>
            if bp <=? sp then
              match record stack bp sp with
              | None => BadIndex
              | Some cells => Dumped (items ++ Bar :: map Cell cells)
              end
            else Dumped items
        | BadIndex => BadIndex
        | TooDeep => TooDeep
        end
  end.

(** How a run of the fetch-execute loop ends: the machine halted; or the C
    code left defined behaviour; or the model's budget is used up, in
    which case [vm] and [io] are the machine and the streams at the start
    of the round that was not completed. *)
Inductive outcome :=
| Halted (vm : VirtualMachine) (io : Streams)
| Undefined
| Running (vm : VirtualMachine) (io : Streams).

(** [ins_array[PC]]: defined for the instructions [readInstructions]
    loaded; the rest of the local array was never written (and an index
    outside it is outside the array). *)
Definition fetch (ins_array : list Instruction) (pc : Z) : option Instruction :=
  if pc <? 0 then None else ins_array !! Z.to_nat pc.

(** The [while (status == CONT)] loop of [simulateVM], [fuel] rounds at
    most; the budget of a round also bounds the depth of [dumpStack] in
    it.  Each round fetches, advances PC, executes, and prints the trace
    line, which looks [ins.op] up in [opcodes], and the stack.  What is
    printed to [outp] is a sink the machine does not read back: only
    whether the reads it takes are defined is kept. *)
Fixpoint fetchExecute (fuel : nat) (ins_array : list Instruction)
  (vm : VirtualMachine) (io : Streams) : outcome :=
  match fuel with
  | O => Running vm io
  | S fuel' =>
      match fetch ins_array (PC vm) with
      | None => Undefined
      | Some ins =>
          match executeInstruction (setPC vm (wrap32 (PC vm + 1))) ins io with
          | None => Undefined
          | Some (status, vm', io') =>
              match opcodeName (op ins) with
              | None => Undefined
              | Some _ =>
                  match dumpStack fuel (stack vm') (SP vm') (BP vm') with
                  | BadIndex => Undefined
                  | TooDeep => Running vm io
                  | Dumped _ =>
                      if status =? CONT then fetchExecute fuel' ins_array vm' io'
                      else Halted vm' io'
                  end
              end
          end
      end
  end.

(** [simulateVM] on the instructions of the input file.
    [readInstructions] stores them in [ins_array], which has
    [MAX_CODE_LENGTH] elements, and [dumpInstructions] lists them, before
    the machine starts. *)
Definition simulateVM (fuel : nat) (ins_array : list Instruction)
  (vm_inp : list Z) : outcome :=
  if Z.of_nat (length ins_array) >? MAX_CODE_LENGTH then Undefined
  else
    match dumpInstructions ins_array with
    | None => Undefined
    | Some _ => fetchExecute fuel ins_array initVM (mkStreams vm_inp [] [])
    end.

End VM.

(* ===================================================================== *)
(** * Vocabulary of the properties                                        *)
(* ===================================================================== *)

Module LexerTerms.
Import Lexer.

Fixpoint all_alnum (w : string) : bool :=
  match w with
  | EmptyString => true
  | String c w' => isalnum c && all_alnum w'
  end.

Fixpoint all_digits (w : string) : bool :=
  match w with
  | EmptyString => true
  | String c w' => isdigit c && all_digits w'
  end.

(** The token [DFA_Alpha] builds from a lexeme. *)
Definition alphaToken (w : string) : Token :=
  if negb (checkReservedTokens w =? -1)
  then mkToken (checkReservedTokens w) w
  else mkToken 2 w.

(** Whether a comment body contains the closing star-slash. *)
Fixpoint closes (body : string) : bool :=
  match body with
  | EmptyString => false
  | String c body' => (ch_is c "*" && ch_is (first body') "/") || closes body'
  end.

(** [st'] is [st] with [charInd] moved forward by at least [lo] and at
    most [hi] characters, over the same source. *)
Definition moved (lo hi : nat) (st st' : LexerState) : Prop :=
  sourceCode st' = sourceCode st /\
  (charInd st + lo <= charInd st')%nat /\
  (charInd st' <= charInd st + hi)%nat.

(** [charInd] is an index of the source string, terminator included. *)
Definition inside (st : LexerState) : Prop :=
  (charInd st <= String.length (sourceCode st))%nat.

End LexerTerms.

Module CodeGenTerms.
Import CodeGen.

(** [r1] is [r2], unless the budget ran out before [r1] was reached. *)
Definition le_result {A} (r1 r2 : result A) : Prop := r1 = NoFuel \/ r1 = r2.

Definition le_gen {A} (c1 c2 : Gen A) : Prop := forall s, le_result (c1 s) (c2 s).

(** The parsing functions at two budgets. *)
Definition all_mono (n m : nat) : Prop :=
  le_gen (block n) (block m) /\
  le_gen (proc_declaration n) (proc_declaration m) /\
  le_gen (statement n) (statement m) /\
  le_gen (statement_loop n) (statement_loop m) /\
  le_gen (condition n) (condition m) /\
  le_gen (expression n) (expression m) /\
  (forall p q, le_gen (expression_loop n p q) (expression_loop m p q)) /\
  le_gen (term n) (term m) /\
  (forall p q, le_gen (term_loop n p q) (term_loop m p q)) /\
  le_gen (factor n) (factor m).

(** A computation keeps the property [P] of the generator state, however
    it ends. *)
Definition preserves (P : CG -> Prop) {A} (c : Gen A) : Prop :=
  forall s, P s ->
    match c s with
    | Ret _ s' | Exits s' | NullDeref s' => P s'
    | NoFuel => True
    end.

(** No symbol of the table has had its [address] written. *)
Definition no_address (s : CG) : Prop :=
  Forall (fun sym => address sym = Indeterminate) (symbolTable s).

(** The parsing functions keep [P]. *)
Definition all_preserve (P : CG -> Prop) (n : nat) : Prop :=
  preserves P (block n) /\
  preserves P (proc_declaration n) /\
  preserves P (statement n) /\
  preserves P (statement_loop n) /\
  preserves P (condition n) /\
  preserves P (expression n) /\
  (forall p q, preserves P (expression_loop n p q)) /\
  preserves P (term n) /\
  (forall p q, preserves P (term_loop n p q)) /\
  preserves P (factor n).

(** The programs the properties are evaluated on, as token lists. *)

Definition tok_var := mkToken varsym "var".
Definition tok_const := mkToken constsym "const".
Definition tok_procedure := mkToken procsym "procedure".
Definition tok_call := mkToken callsym "call".
Definition tok_read := mkToken readsym "read".
Definition tok_if := mkToken ifsym "if".
Definition tok_then := mkToken thensym "then".
Definition tok_odd := mkToken oddsym "odd".
Definition tok_semicolon := mkToken semicolonsym ";".
Definition tok_comma := mkToken commasym ",".
Definition tok_period := mkToken periodsym ".".
Definition tok_becomes := mkToken becomessym ":=".
Definition tok_eq := mkToken eqsym "=".
Definition tok_minus := mkToken minussym "-".
Definition ident (x : string) := mkToken identsym x.
Definition number (x : string) := mkToken numbersym x.

(** [var x; read x.] *)
Definition read_program : list Token :=
  [tok_var; ident "x"; tok_semicolon; tok_read; ident "x"; tok_period].

(** [if - 1 = 2 then .] *)
Definition negation_program : list Token :=
  [tok_if; tok_minus; number "1"; tok_eq; number "2"; tok_then; tok_period].

(** [if 1 = 2 then .] *)
Definition relation_program : list Token :=
  [tok_if; number "1"; tok_eq; number "2"; tok_then; tok_period].

(** [const c = 1; call c.] *)
Definition call_const_program : list Token :=
  [tok_const; ident "c"; tok_eq; number "1"; tok_semicolon;
   tok_call; ident "c"; tok_period].

(** [var v; call v.] *)
Definition call_var_program : list Token :=
  [tok_var; ident "v"; tok_semicolon; tok_call; ident "v"; tok_period].

(** [const c = 1; c := 1.] *)
Definition assign_const_program : list Token :=
  [tok_const; ident "c"; tok_eq; number "1"; tok_semicolon;
   ident "c"; tok_becomes; number "1"; tok_period].

(** [procedure p; p := 1; .] *)
Definition assign_proc_program : list Token :=
  [tok_procedure; ident "p"; tok_semicolon;
   ident "p"; tok_becomes; number "1"; tok_semicolon; tok_period].

(** [procedure p; call p; .] *)
Definition call_program : list Token :=
  [tok_procedure; ident "p"; tok_semicolon; tok_call; ident "p";
   tok_semicolon; tok_period].

(** [var x, y; if odd x then read y.] *)
Definition variables_program : list Token :=
  [tok_var; ident "x"; tok_comma; ident "y"; tok_semicolon;
   tok_if; tok_odd; ident "x"; tok_then; tok_read; ident "y"; tok_period].

Definition ins (OP R : Z) (L M : cint) : Instruction := mkInstruction OP R L M.

(** The state in which [block] calls [statement] for [var x; read x.]:
    after the declarations. *)
Definition read_before : CG :=
  mkCG read_program 3 0 None
       [mkSymbol VAR "x" Indeterminate 0 Indeterminate]
       [ins INC 0 (Known 0) (Known 2)] 0.

Definition read_after : CG :=
  mkCG read_program 5 0 None
       [mkSymbol VAR "x" Indeterminate 0 Indeterminate]
       [ins INC 0 (Known 0) (Known 2);
        ins SIO_READ 0 (Known 0) (Known 2);
        ins STO 0 (Known 0) Indeterminate] (-1).

(** The state in which [condition] calls [expression] for the left operand
    of [if - 1 = 2 then .]: after [if]. *)
Definition negation_before : CG := mkCG negation_program 1 0 None [] [] 0.

Definition negation_after : CG :=
  mkCG negation_program 3 0 None []
       [ins LIT 0 (Known 0) (Known 1); ins NEG 0 (Known 0) (Known 1)] 0.

(** The state after [nextToken]. *)
Definition skipToken (s : CG) : CG :=
  mkCG (tokenList s) (S (currentTokenInd s)) (currentLevel s) (currentScope s)
       (symbolTable s) (vmCode s) (currentReg s).

End CodeGenTerms.

Module VMTerms.
Import VM.


Definition no_streams : Streams := mkStreams [] [] [].

End VMTerms.

Module LexerMoreTerms.
Import Lexer.

(** Whether a string contains a slash immediately followed by a star. *)
Fixpoint opens (s : string) : bool :=
  match s with
  | EmptyString => false
  | String c s' => (ch_is c "/" && ch_is (first s') "*") || opens s'
  end.

(** A run of blanks and newlines. *)
Fixpoint all_blank (s : string) : bool :=
  match s with
  | EmptyString => true
  | String c s' => (ch_is c " " || ch_is c "010") && all_blank s'
  end.

(** The number of newlines of a string. *)
Fixpoint newlines (s : string) : Z :=
  match s with
  | EmptyString => 0
  | String c s' => (if ch_is c "010" then 1 else 0) + newlines s'
  end.

Definition addLines (n : Z) (st : LexerState) : LexerState :=
  mkLexerState (lineNum st + n) (charInd st) (sourceCode st) (lexerError st)
               (tokenList st).

(** A run of [n] letters and digits is not exactly [M + 1] characters
    long ([n] = 0: there is no run). *)
Definition fits (M : Z) (n : nat) : bool :=
  (n =? 0)%nat || negb (Z.of_nat n =? M + 1).

(** No maximal run of letters and digits of [s] is exactly [M + 1]
    characters long, where the first run of [s] counts with the [n] letters
    and digits that came just before [s]. *)
Fixpoint runs_fit (M : Z) (n : nat) (s : string) : bool :=
  match s with
  | EmptyString => fits M n
  | String c s' =>
      if isalnum c then runs_fit M (S n) s'
      else fits M n && runs_fit M 0 s'
  end.

(** A token as the lexer makes them: an id between [identsym] and
    [elsesym] and a lexeme of 1 to 11 characters; an identifier starts
    with a letter, holds letters and digits only and is no reserved word; a
    number holds at most 5 characters, all digits. *)
Definition well_formed (t : Token) : Prop :=
  identsym <= id t <= elsesym /\
  (1 <= String.length (lexeme t) <= 11)%nat /\
  (id t = identsym ->
   isalpha (first (lexeme t)) = true /\
   LexerTerms.all_alnum (lexeme t) = true /\
   checkReservedTokens (lexeme t) = -1) /\
  (id t = numbersym ->
   LexerTerms.all_digits (lexeme t) = true /\
   (String.length (lexeme t) <= 5)%nat).

(** Every token read so far is well formed. *)
Definition tokens_ok (st : LexerState) : Prop :=
  Forall well_formed (tokenList st).

End LexerMoreTerms.

Module CodeGenMoreTerms.
Import CodeGen CodeGenTerms.

(** A computation started where [P] holds ends where [P] holds when it
    returns, where [X] holds when the process exits in [emit], and where
    [N] holds when a NULL symbol is dereferenced. *)
Definition holds (P X N : CG -> Prop) {A} (c : Gen A) : Prop :=
  forall s, P s ->
    match c s with
    | Ret _ s' => P s'
    | Exits s' => X s'
    | NullDeref s' => N s'
    | NoFuel => True
    end.

Definition all_hold (P X N : CG -> Prop) (n : nat) : Prop :=
  holds P X N (block n) /\
  holds P X N (proc_declaration n) /\
  holds P X N (statement n) /\
  holds P X N (statement_loop n) /\
  holds P X N (condition n) /\
  holds P X N (expression n) /\
  (forall p q, holds P X N (expression_loop n p q)) /\
  holds P X N (term n) /\
  (forall p q, holds P X N (term_loop n p q)) /\
  holds P X N (factor n).

(** The opcodes the parsing functions below [program] emit, other than
    the two jumps. *)
Definition plain_ops : list Z :=
  [LIT; LOD; STO; CAL; INC; SIO_WRITE; SIO_READ; NEG; ADD; SUB; MUL; DIV; ODD;
   EQL; NEQ; LSS; LEQ; GTR; GEQ].

(** The code array is not overrun. *)
Definition code_fits (s : CG) : Prop := nextCodeIndex s <= MAX_CODE_LENGTH.

Definition code_full (s : CG) : Prop := nextCodeIndex s = MAX_CODE_LENGTH.

(** The current token names no symbol that is visible from the current
    scope. *)
Definition unresolved (s : CG) : Prop :=
  findSymbol (symbolTable s) (currentScope s)
             (lexeme (getCurrentTokenFromIterator s)) = None.

(** Every jump of the code has a target that was either never patched
    (0) or lies after the jump, at most at the next free index. *)
Definition jumps_forward (s : CG) : Prop :=
  forall (i : nat) (ins : Instruction),
    vmCode s !! i = Some ins -> op ins = JMP \/ op ins = JPC ->
    exists k, m ins = Known k /\ (k = 0 \/ Z.of_nat i < k <= nextCodeIndex s).

(** Every jump of the code has its target inside the code. *)
Definition jumps_inside (s : CG) : Prop :=
  forall (i : nat) (ins : Instruction),
    vmCode s !! i = Some ins -> op ins = JMP \/ op ins = JPC ->
    exists k, m ins = Known k /\ 0 <= k < nextCodeIndex s.

(** Every jump of the code has been patched: its target lies after the
    jump itself and is an index of the code. *)
Definition jumps_ahead (s : CG) : Prop :=
  forall (i : nat) (ins : Instruction),
    vmCode s !! i = Some ins -> op ins = JMP \/ op ins = JPC ->
    exists k, m ins = Known k /\ Z.of_nat i < k < nextCodeIndex s.

(** The jumps of [code], other than those at the indices [pending] (which
    wait for their [patch_m]), have a target after the jump itself, at most
    at the next free index. *)
Definition patched_code (pending : Z -> Prop) (code : list Instruction) : Prop :=
  forall (i : nat) (ins : Instruction),
    code !! i = Some ins -> op ins = JMP \/ op ins = JPC ->
    pending (Z.of_nat i) \/
    exists k, m ins = Known k /\ Z.of_nat i < k <= Z.of_nat (length code).

Definition patched (pending : Z -> Prop) (s : CG) : Prop :=
  patched_code pending (vmCode s).

(** A computation started with the jumps [p] pending returns with the
    jumps [q a] pending, [a] being the value it returns. *)
Definition pending_to (p : Z -> Prop) {A} (q : A -> Z -> Prop) (c : Gen A) : Prop :=
  forall s a s', patched p s -> c s = Ret a s' -> patched (q a) s'.

(** The same, for the returns with error code 0 only. *)
Definition pending_to0 (p q : Z -> Prop) (c : Gen Z) : Prop :=
  forall s s', patched p s -> c s = Ret 0 s' -> patched q s'.

Definition all_patched (n : nat) : Prop :=
  forall p,
    pending_to0 p p (block n) /\
    pending_to0 p p (proc_declaration n) /\
    pending_to0 p p (statement n) /\
    pending_to0 p p (statement_loop n) /\
    pending_to0 p p (condition n) /\
    pending_to0 p p (expression n) /\
    (forall a b, pending_to0 p p (expression_loop n a b)) /\
    pending_to0 p p (term n) /\
    (forall a b, pending_to0 p p (term_loop n a b)) /\
    pending_to0 p p (factor n).

(** The code holds no [SIO_HALT]. *)
Definition no_halt (s : CG) : Prop :=
  Forall (fun i => op i <> SIO_HALT) (vmCode s).

(** [s] is a later state of [s0]: the same tokens with the cursor no
    further back, the symbols of [s0] followed by new ones, and the
    instructions of [s0], each with the [op], [r] and [l] it had, followed
    by new ones. *)
Definition extends (s0 s : CG) : Prop :=
  tokenList s = tokenList s0 /\
  (currentTokenInd s0 <= currentTokenInd s)%nat /\
  (exists added, symbolTable s = symbolTable s0 ++ added) /\
  (length (vmCode s0) <= length (vmCode s))%nat /\
  forall (i : nat) (ins0 : Instruction),
    vmCode s0 !! i = Some ins0 ->
    exists ins, vmCode s !! i = Some ins /\
                op ins = op ins0 /\ r ins = r ins0 /\ l ins = l ins0.

(** The state a computation ends in, when it ends. *)
Definition final {A} (res : result A) : option CG :=
  match res with
  | Ret _ s | Exits s | NullDeref s => Some s
  | NoFuel => None
  end.

(** The error codes [code_generator.c] returns. *)
Definition error_codes : list Z :=
  [0; 1; 2; 3; 4; 5; 6; 7; 8; 9; 10; 11; 12; 13; 14; 16].

(** Every value a computation returns satisfies [V]. *)
Definition yields {A} (V : A -> Prop) (c : Gen A) : Prop :=
  forall s a s', c s = Ret a s' -> V a.

Definition all_yield (V : Z -> Prop) (n : nat) : Prop :=
  yields V (block n) /\
  yields V (proc_declaration n) /\
  yields V (statement n) /\
  yields V (statement_loop n) /\
  yields V (condition n) /\
  yields V (expression n) /\
  (forall p q, yields V (expression_loop n p q)) /\
  yields V (term n) /\
  (forall p q, yields V (term_loop n p q)) /\
  yields V (factor n).

(** A computation started at nesting level [lv] is at level [lv'] when it
    returns. *)
Definition level_to (lv lv' : Z) {A} (c : Gen A) : Prop :=
  forall s a s', currentLevel s = lv -> c s = Ret a s' -> currentLevel s' = lv'.

(** The same, for the returns with error code 0 only. *)
Definition level_to0 (lv lv' : Z) (c : Gen Z) : Prop :=
  forall s s', currentLevel s = lv -> c s = Ret 0 s' -> currentLevel s' = lv'.

Definition all_level (n : nat) : Prop :=
  forall lv, 0 <= lv < 2 ^ 32 ->
    level_to0 lv lv (block n) /\
    level_to0 lv lv (proc_declaration n) /\
    level_to0 lv lv (statement n) /\
    level_to0 lv lv (statement_loop n) /\
    level_to0 lv lv (condition n) /\
    level_to0 lv lv (expression n) /\
    (forall p q, level_to0 lv lv (expression_loop n p q)) /\
    level_to0 lv lv (term n) /\
    (forall p q, level_to0 lv lv (term_loop n p q)) /\
    level_to0 lv lv (factor n).

(** [var x, x, ..., x] with [k] commas. *)
Definition many_variables (k : nat) : list Token :=
  tok_var :: ident "x" :: concat (repeat [tok_comma; ident "x"] k).

(** The number of tokens after the cursor. *)
Definition remaining (s : CG) : nat :=
  length (tokenList s) - currentTokenInd s.

(** The cursor is inside the token list or just after it. *)
Definition inside (s : CG) : Prop :=
  (currentTokenInd s <= length (tokenList s))%nat.




End CodeGenMoreTerms.

(* ===================================================================== *)
(** * The parser ([parser.c])                                             *)
(* ===================================================================== *)

Module Parser.

(** The non-terminals [parser.c] passes to [printNonTerminal]; the
    enumeration itself is declared in a header that is not among the
    sources. *)
Inductive NonTerminal :=
| PROGRAM | BLOCK | CONST_DECLARATION | VAR_DECLARATION | PROC_DECLARATION
| STATEMENT | CONDITION | REL_OP | EXPRESSION | TERM | FACTOR.

(** One line of the parsing history written to [_out]: the line of
    [printNonTerminal] or the line of [printCurrentToken] (which shows the
    name of the token's id and its lexeme). *)
Inductive Line :=
| NONTERM (nt : NonTerminal)
| TOKEN (t : Token).

(** The file-scope variables of [parser.c]: the token list iterator, the
    (unsigned) current level, the symbol table, and what has been written
    to [_out] since the header.  [Symbol] is the one of [symbol.h], as for
    the code generator. *)
Record Par := mkPar {
  tokenList : list Token;
  currentTokenInd : nat;
  currentLevel : Z;
  symbolTable : list CodeGen.Symbol;
  out : list Line
}.

(** A parsing function returns a value in a new state; [None] is the
    model's recursion budget used up. *)
Definition Parse (A : Type) : Type := Par -> option (A * Par).

Definition ret {A} (a : A) : Parse A := fun p => Some (a, p).

Definition bind {A B} (c : Parse A) (k : A -> Parse B) : Parse B :=
  fun p =>
    match c p with
    | Some (a, p') => k a p'
    | None => None
    end.

Declare Scope par_scope.
Delimit Scope par_scope with par.
Notation "x <- c1 ;; c2" := (bind c1 (fun x => c2))
  (at level 100, c1 at next level, right associativity) : par_scope.
Notation "c1 ;; c2" := (bind c1 (fun _ => c2))
  (at level 100, right associativity) : par_scope.
Local Open Scope par_scope.

(** [err = f(); if(err) return err;] followed by the rest of the body. *)
Definition orReturn (c : Parse Z) (k : Parse Z) : Parse Z :=
  err <- c ;; if negb (err =? 0) then ret err else k.
Notation "c1 ;;; c2" := (orReturn c1 c2)
  (at level 100, right associativity) : par_scope.

Definition get : Parse Par := fun p => Some (p, p).
Definition nofuel {A} : Parse A := fun _ => None.

(** Modelled from the spec: [getCurrentTokenFromIterator] of [token.h]
    ("If it is the end of tokens, returns token with id nulsym"). *)
Definition getCurrentTokenFromIterator (p : Par) : Token :=
  nth (currentTokenInd p) (tokenList p) (mkToken nulsym "").

Definition getCurrentToken : Parse Token :=
  fun p => Some (getCurrentTokenFromIterator p, p).

Definition getCurrentTokenType : Parse Z :=
  t <- getCurrentToken ;; ret (id t).

Definition printCurrentToken : Parse unit :=
  fun p => Some (tt, mkPar (tokenList p) (currentTokenInd p) (currentLevel p)
                           (symbolTable p)
                           (out p ++ [TOKEN (getCurrentTokenFromIterator p)])).

Definition nextToken : Parse unit :=
  fun p => Some (tt, mkPar (tokenList p) (S (currentTokenInd p)) (currentLevel p)
                           (symbolTable p) (out p)).

Definition printNonTerminal (nonTerminal : NonTerminal) : Parse unit :=
  fun p => Some (tt, mkPar (tokenList p) (currentTokenInd p) (currentLevel p)
                           (symbolTable p) (out p ++ [NONTERM nonTerminal])).

Definition setCurrentLevel (f : Z -> Z) : Parse unit :=
  fun p => Some (tt, mkPar (tokenList p) (currentTokenInd p) (f (currentLevel p))
                           (symbolTable p) (out p)).

(** Modelled from the spec: [addSymbol] of [symbol.h] ("appends; callers
    must pre-fill name, kind, level, and the kind-appropriate payload"). *)
Definition addSymbol (sym : CodeGen.Symbol) : Parse unit :=
  fun p => Some (tt, mkPar (tokenList p) (currentTokenInd p) (currentLevel p)
                           (symbolTable p ++ [sym]) (out p)).

Definition tokenIs (t : Z) : Parse bool :=
  ty <- getCurrentTokenType ;; ret (ty =? t).

(** [printCurrentToken(); nextToken();]: every token is consumed so. *)
Definition consume : Parse unit := printCurrentToken ;; nextToken.

(** One declarator of [const_declaration]: [ident "=" number], then
    [addSymbol].  The C function has this text twice, once for the local
    [const_symbol] and once in the comma loop for the [malloc]ed one; the
    symbol's [type] and [level] are written before the identifier is
    looked at, its [name] and [value] as the tokens are accepted. *)
Definition const_item : Parse Z :=
  p <- get ;;
  isIdent <- tokenIs identsym ;;
  if negb isIdent then ret 3 else
  tok <- getCurrentToken ;;
  consume ;;
  isEq <- tokenIs eqsym ;;
  if negb isEq then ret 2 else
  consume ;;
  isNum <- tokenIs numbersym ;;
  if negb isNum then ret 1 else
  num <- getCurrentToken ;;
  consume ;;
  addSymbol (CodeGen.mkSymbol CodeGen.CONST (lexeme tok)
               (CodeGen.Known (CodeGen.atoi (lexeme num)))
               (currentLevel p) CodeGen.Indeterminate) ;;
  ret 0.

Fixpoint const_loop (fuel : nat) : Parse Z :=
  match fuel with
  | O => nofuel
  | S fuel' =>
      isComma <- tokenIs commasym ;;
      if isComma then consume ;; const_item ;;; const_loop fuel'
      else ret 0
  end.

Definition const_declaration (fuel : nat) : Parse Z :=
  printNonTerminal CONST_DECLARATION ;;
  isConst <- tokenIs constsym ;;
  if isConst then
    consume ;;
    const_item ;;;
    const_loop fuel ;;;
    (isSemi <- tokenIs semicolonsym ;;
     if isSemi then consume ;; ret 0 else ret 4)
  else ret 0.

(** One declarator of [var_declaration]. *)
Definition var_item : Parse Z :=
  p <- get ;;
  isIdent <- tokenIs identsym ;;
  if negb isIdent then ret 3 else
  tok <- getCurrentToken ;;
  consume ;;
  addSymbol (CodeGen.mkSymbol CodeGen.VAR (lexeme tok) CodeGen.Indeterminate
               (currentLevel p) CodeGen.Indeterminate) ;;
  ret 0.

Fixpoint var_loop (fuel : nat) : Parse Z :=
  match fuel with
  | O => nofuel
  | S fuel' =>
      isComma <- tokenIs commasym ;;
      if isComma then consume ;; var_item ;;; var_loop fuel'
      else ret 0
  end.

Definition var_declaration (fuel : nat) : Parse Z :=
  printNonTerminal VAR_DECLARATION ;;
  isVar <- tokenIs varsym ;;
  if isVar then
    consume ;;
    var_item ;;;
    var_loop fuel ;;;
    (isSemi <- tokenIs semicolonsym ;;
     if isSemi then consume ;; ret 0 else ret 4)
  else ret 0.

(** [relop]. *)
Definition relop : Parse Z :=
  printNonTerminal REL_OP ;;
  ty <- getCurrentTokenType ;;
  if ty =? eqsym then consume ;; ret 0
  else if ty =? neqsym then consume ;; ret 0
  else if ty =? lessym then consume ;; ret 0
  else if ty =? leqsym then consume ;; ret 0
  else if ty =? gtrsym then consume ;; ret 0
  else if ty =? geqsym then consume ;; ret 0
  else ret 12.

(** The parsing functions call each other recursively; [fuel] bounds the
    depth of the calls and the number of rounds of each [while] loop, laid
    out as for the code generator.  The loops of [proc_declaration],
    [statement], [expression] and [term] are [proc_loop], [statement_loop],
    [expression_loop] and [term_loop]; [block] holds the call of
    [proc_declaration] as the line that function prints followed by its
    loop. *)
Fixpoint block (fuel : nat) : Parse Z :=
  match fuel with
  | O => nofuel
  | S fuel' =>
      printNonTerminal BLOCK ;;
      const_declaration fuel' ;;;
      var_declaration fuel' ;;;
      (printNonTerminal PROC_DECLARATION ;; proc_loop fuel') ;;;
      statement fuel' ;;;
      ret 0
  end

with proc_loop (fuel : nat) : Parse Z :=
  match fuel with
  | O => nofuel
  | S fuel' =>
      isProc <- tokenIs procsym ;;
      if negb isProc then ret 0 else
      consume ;;
      p <- get ;;
      isIdent <- tokenIs identsym ;;
      if negb isIdent then ret 3 else
      tok <- getCurrentToken ;;
      consume ;;
      addSymbol (CodeGen.mkSymbol CodeGen.PROC (lexeme tok) CodeGen.Indeterminate
                   (currentLevel p) CodeGen.Indeterminate) ;;
      isSemi <- tokenIs semicolonsym ;;
      if negb isSemi then ret 5 else
      consume ;;
      setCurrentLevel (fun lv => wrapu32 (lv + 1)) ;;
      err <- block fuel' ;;
      setCurrentLevel (fun lv => wrapu32 (lv - 1)) ;;
      if negb (err =? 0) then ret err else
      isSemi <- tokenIs semicolonsym ;;
      if negb isSemi then ret 5 else
      consume ;;
      proc_loop fuel'
  end

with statement (fuel : nat) : Parse Z :=
  match fuel with
  | O => nofuel
  | S fuel' =>
      printNonTerminal STATEMENT ;;
      ty <- getCurrentTokenType ;;
      if ty =? identsym then
        consume ;;
        isBecomes <- tokenIs becomessym ;;
        if negb isBecomes then ret 7 else
        consume ;;
        expression fuel' ;;;
        ret 0
      else if ty =? callsym then
        consume ;;
        isIdent <- tokenIs identsym ;;
        if negb isIdent then ret 8 else
        consume ;;
        ret 0
      else if ty =? beginsym then
        consume ;;
        statement fuel' ;;;
        statement_loop fuel' ;;;
        (isEnd <- tokenIs endsym ;;
         if isEnd then consume ;; ret 0 else ret 10)
      else if ty =? ifsym then
        consume ;;
        condition fuel' ;;;
        (isThen <- tokenIs thensym ;;
         if negb isThen then ret 9 else
         consume ;;
         statement fuel' ;;;
         (isElse <- tokenIs elsesym ;;
          if isElse then consume ;; statement fuel' ;;; ret 0
          else ret 0))
      else if ty =? whilesym then
        consume ;;
        condition fuel' ;;;
        (isDo <- tokenIs dosym ;;
         if negb isDo then ret 11 else
         consume ;;
         statement fuel' ;;;
         ret 0)
      else if ty =? readsym then
        consume ;;
        isIdent <- tokenIs identsym ;;
        if negb isIdent then ret 3 else
        consume ;;
        ret 0
      else if ty =? writesym then
        consume ;;
        isIdent <- tokenIs identsym ;;
        if negb isIdent then ret 3 else
        consume ;;
        ret 0
      else ret 0
  end

with statement_loop (fuel : nat) : Parse Z :=
  match fuel with
  | O => nofuel
  | S fuel' =>
      isSemi <- tokenIs semicolonsym ;;
      if negb isSemi then ret 0 else
      consume ;;
      statement fuel' ;;;
      statement_loop fuel'
  end

with condition (fuel : nat) : Parse Z :=
  match fuel with
  | O => nofuel
  | S fuel' =>
      printNonTerminal CONDITION ;;
      isOdd <- tokenIs oddsym ;;
      if isOdd then
        consume ;;
        expression fuel' ;;;
        ret 0
      else
        expression fuel' ;;;
        relop ;;;
        expression fuel' ;;;
        ret 0
  end

with expression (fuel : nat) : Parse Z :=
  match fuel with
  | O => nofuel
  | S fuel' =>
      printNonTerminal EXPRESSION ;;
      ty <- getCurrentTokenType ;;
      (if ty =? plussym then consume
       else if ty =? minussym then consume
       else ret tt) ;;
      term fuel' ;;;
      expression_loop fuel'
  end

with expression_loop (fuel : nat) : Parse Z :=
  match fuel with
  | O => nofuel
  | S fuel' =>
      ty <- getCurrentTokenType ;;
      if negb ((ty =? plussym) || (ty =? minussym)) then ret 0 else
      consume ;;
      term fuel' ;;;
      expression_loop fuel'
  end

with term (fuel : nat) : Parse Z :=
  match fuel with
  | O => nofuel
  | S fuel' =>
      printNonTerminal TERM ;;
      factor fuel' ;;;
      term_loop fuel'
  end

with term_loop (fuel : nat) : Parse Z :=
  match fuel with
  | O => nofuel
  | S fuel' =>
      ty <- getCurrentTokenType ;;
      if negb ((ty =? multsym) || (ty =? slashsym)) then ret 0 else
      consume ;;
      factor fuel' ;;;
      term_loop fuel'
  end

with factor (fuel : nat) : Parse Z :=
  match fuel with
  | O => nofuel
  | S fuel' =>
      printNonTerminal FACTOR ;;
      ty <- getCurrentTokenType ;;
      if ty =? identsym then consume ;; ret 0
      else if ty =? numbersym then consume ;; ret 0
      else if ty =? lparentsym then
        consume ;;
        expression fuel' ;;;
        (isRparen <- tokenIs rparentsym ;;
         if negb isRparen then ret 13 else
         consume ;;
         ret 0)
      else ret 14
  end.

(** [proc_declaration]. *)
Definition proc_declaration (fuel : nat) : Parse Z :=
  printNonTerminal PROC_DECLARATION ;; proc_loop fuel.

Definition program (fuel : nat) : Parse Z :=
  printNonTerminal PROGRAM ;;
  block fuel ;;;
  (isPeriod <- tokenIs periodsym ;;
   if negb isPeriod then ret 6 else
   consume ;;
   ret 0).

(** The state [parser] sets up before it calls [program]. *)
Definition initial (tokenList : list Token) : Par :=
  mkPar tokenList 0 0 [] [].

(** [parser]: the error code [program] returns and the state in which it
    returns (after that, [parser] prints the symbol table when the code is
    0, and resets the iterator and the table).  The header of the history
    and the printed symbol table are not part of [out]. *)
Definition parser (fuel : nat) (tokenList : list Token) : option (Z * Par) :=
  program fuel (initial tokenList).

End Parser.

Module ParserTerms.
Import Parser.

(** The tokens among the lines of a history. *)
Fixpoint tokens_of (lines : list Line) : list Token :=
  match lines with
  | [] => []
  | NONTERM _ :: lines' => tokens_of lines'
  | TOKEN t :: lines' => t :: tokens_of lines'
  end.

(** The number of tokens after the cursor. *)
Definition remaining (p : Par) : nat :=
  length (tokenList p) - currentTokenInd p.

(** The cursor is inside the token list (or just after it) and the level
    is a value of an [unsigned int]. *)
Definition ready (p : Par) : Prop :=
  (currentTokenInd p <= length (tokenList p))%nat /\
  0 <= currentLevel p < 2 ^ 32.

(** What holds of the state [p'] and the code [e] a parsing function
    returns when called in [p]. *)
Definition after (p : Par) (e : Z) (p' : Par) : Prop :=
  tokenList p' = tokenList p /\
  (currentTokenInd p <= currentTokenInd p')%nat /\
  (currentTokenInd p' <= length (tokenList p))%nat /\
  currentLevel p' = currentLevel p /\
  0 <= e <= 14.

(** With [6 * remaining + rank] units of budget or more, [c] returns. *)
Definition returns (rank : nat) (c : Parse Z) (fuel : nat) : Prop :=
  forall p, ready p -> (6 * remaining p + rank <= fuel)%nat ->
    exists e p', c p = Some (e, p') /\ after p e p'.

Definition all_return (n : nat) : Prop :=
  returns 6 (block n) n /\
  returns 1 (proc_loop n) n /\
  returns 5 (statement n) n /\
  returns 1 (statement_loop n) n /\
  returns 4 (condition n) n /\
  returns 3 (expression n) n /\
  returns 1 (expression_loop n) n /\
  returns 2 (term n) n /\
  returns 1 (term_loop n) n /\
  returns 1 (factor n) n.

(** [r1] is [r2], unless the budget ran out before [r1] was reached. *)
Definition le_par {A} (c1 c2 : Parse A) : Prop :=
  forall p, c1 p = None \/ c1 p = c2 p.

Definition all_le (n m : nat) : Prop :=
  le_par (block n) (block m) /\
  le_par (proc_loop n) (proc_loop m) /\
  le_par (statement n) (statement m) /\
  le_par (statement_loop n) (statement_loop m) /\
  le_par (condition n) (condition m) /\
  le_par (expression n) (expression m) /\
  le_par (expression_loop n) (expression_loop m) /\
  le_par (term n) (term m) /\
  le_par (term_loop n) (term_loop m) /\
  le_par (factor n) (factor m).

(** A computation keeps the property [P] of the parser state. *)
Definition keeps (P : Par -> Prop) {A} (c : Parse A) : Prop :=
  forall p, P p ->
    match c p with
    | Some (_, p') => P p'
    | None => True
    end.

Definition all_keep (P : Par -> Prop) (n : nat) : Prop :=
  keeps P (block n) /\
  keeps P (proc_loop n) /\
  keeps P (statement n) /\
  keeps P (statement_loop n) /\
  keeps P (condition n) /\
  keeps P (expression n) /\
  keeps P (expression_loop n) /\
  keeps P (term n) /\
  keeps P (term_loop n) /\
  keeps P (factor n).

(** The tokens [getCurrentToken] gives at the cursor positions before
    the current one. *)
Definition passed (p : Par) : list Token :=
  map (fun i => nth i (tokenList p) (mkToken nulsym ""))
      (seq 0 (currentTokenInd p)).

(** The history shows the tokens passed, in order, and the token list is
    the one given. *)
Definition history_ok (toks : list Token) (p : Par) : Prop :=
  tokenList p = toks /\ tokens_of (out p) = passed p.

(** [begin x := 1; y := 2 end.] without the final [end]. *)
Definition unfinished_program : list Token :=
  [mkToken beginsym "begin"; mkToken identsym "x"; mkToken becomessym ":=";
   mkToken numbersym "1"; mkToken semicolonsym ";"; mkToken identsym "y";
   mkToken becomessym ":="; mkToken numbersym "2"; mkToken periodsym "."].

End ParserTerms.

Module AgreementTerms.

(** A state of the code generator and a state of the parser that stand at
    the same token of the same list, at the same level, with the same
    symbols declared. *)
Definition agree (s : CodeGen.CG) (p : Parser.Par) : Prop :=
  Parser.tokenList p = CodeGen.tokenList s /\
  Parser.currentTokenInd p = CodeGen.currentTokenInd s /\
  Parser.currentLevel p = CodeGen.currentLevel s /\
  Parser.symbolTable p = CodeGen.symbolTable s.

(** Whenever the generator's function [c] returns a code other than 7 and
    16, the parser's function [d], started in an agreeing state, returns
    the same code, and in an agreeing state when the code is 0. *)
Definition follows (c : CodeGen.Gen Z) (d : Parser.Parse Z) : Prop :=
  forall s p err s',
    agree s p -> c s = CodeGen.Ret err s' -> err <> 7 -> err <> 16 ->
    exists p', d p = Some (err, p') /\ (err = 0 -> agree s' p').

Definition all_follow (n : nat) : Prop :=
  follows (CodeGen.block n) (Parser.block n) /\
  follows (CodeGen.proc_declaration n) (Parser.proc_loop n) /\
  follows (CodeGen.statement n) (Parser.statement n) /\
  follows (CodeGen.statement_loop n) (Parser.statement_loop n) /\
  follows (CodeGen.condition n) (Parser.condition n) /\
  follows (CodeGen.expression n) (Parser.expression n) /\
  (forall a b, follows (CodeGen.expression_loop n a b) (Parser.expression_loop n)) /\
  follows (CodeGen.term n) (Parser.term n) /\
  (forall a b, follows (CodeGen.term_loop n a b) (Parser.term_loop n)) /\
  follows (CodeGen.factor n) (Parser.factor n).

End AgreementTerms.

(* ===================================================================== *)
(** * Properties of the lexer                                             *)
(* ===================================================================== *)

Module LexerProps.
Import Lexer LexerTerms.

(** A digit is not a letter. *)
Lemma isdigit_not_isalpha (c : ascii) : isdigit c = true -> isalpha c = false.
Proof.
  unfold isdigit, isalpha. intros H.
  apply andb_true_iff in H as [H1 H2].
  apply N.leb_le in H1, H2.
  apply orb_false_iff; split; apply andb_false_iff.
  - left. apply N.leb_gt. lia.
  - left. apply N.leb_gt. lia.
Qed.

Lemma append_snoc (lex : string) (c : ascii) (w : string) :
  (snoc lex c ++ w)%string = (lex ++ String c w)%string.
Proof.
  induction lex as [|d lex IH]; [reflexivity|].
  unfold snoc in *. simpl. now rewrite IH.
Qed.

Lemma advance_advance (a b : nat) (st : LexerState) :
  advance a (advance b st) = advance (b + a) st.
Proof. unfold advance; simpl. f_equal. lia. Qed.

Section Loops.
Variable M : Z.

(** The loop of [DFA_Alpha] on a maximal alphanumeric run [w] that the
    buffer bound lets through: it consumes [w] and stores it. *)
Lemma alpha_loop_stores (w rest : string) :
  forall (i : Z) (lex : string) (st : LexerState),
    all_alnum w = true ->
    isalnum (first rest) = false ->
    (w = EmptyString \/ i + Z.of_nat (String.length w) - 2 <= M) ->
    alpha_loop M (w ++ rest)%string i lex st
    = (advance (String.length w) st,
       Some (i + Z.of_nat (String.length w), (lex ++ w)%string)).
Proof.
  induction w as [|c w IH]; intros i lex st Hw Hrest Hlen.
  - simpl. replace (advance 0 st) with st
      by (destruct st; unfold advance; simpl; f_equal; lia).
    replace (lex ++ "")%string with lex
      by (clear; induction lex; simpl; congruence).
    rewrite Z.add_0_r.
    destruct rest as [|d rest]; simpl; [reflexivity|].
    simpl in Hrest. unfold isalnum in Hrest. now rewrite Hrest.
  - simpl in Hw. apply andb_true_iff in Hw as [Hc Hw].
    destruct Hlen as [Hlen|Hlen]; [discriminate|].
    cbn [String.length] in Hlen |- *.
    cbn [String.append alpha_loop]. unfold isalnum in Hc. rewrite Hc.
    destruct (i - 1 >? M) eqn:Hgt; [apply Z.gtb_lt in Hgt; lia|].
    rewrite IH; try assumption.
    + rewrite advance_advance, append_snoc, Nat2Z.inj_succ.
      change (1 + String.length w)%nat with (S (String.length w)).
      replace (i + Z.succ (Z.of_nat (String.length w)))
        with (i + 1 + Z.of_nat (String.length w)) by lia.
      reflexivity.
    + right. lia.
Qed.

(** The same loop on a run the buffer bound stops: it returns from inside
    the loop with [NAME_TOO_LONG] and has added no token. *)
Lemma alpha_loop_overflows (w rest : string) :
  forall (i : Z) (lex : string) (st : LexerState),
    all_alnum w = true ->
    w <> EmptyString ->
    M < i + Z.of_nat (String.length w) - 2 ->
    exists st',
      alpha_loop M (w ++ rest)%string i lex st = (st', None) /\
      lexerError st' = NAME_TOO_LONG /\
      tokenList st' = tokenList st.
Proof.
  induction w as [|c w IH]; intros i lex st Hw Hne Hlen; [congruence|].
  simpl in Hw. apply andb_true_iff in Hw as [Hc Hw].
  cbn [String.length] in Hlen.
  simpl. unfold isalnum in Hc. rewrite Hc.
  destruct (i - 1 >? M) eqn:Hgt.
  - eexists; split; [reflexivity|]. simpl. auto.
  - assert (i - 1 <= M) by (destruct (Z.gtb_spec (i - 1) M); [discriminate|lia]).
    destruct w as [|d w].
    + simpl in Hlen. lia.
    + destruct (IH (i + 1) (snoc lex c) (advance 1 st)) as (st' & E & He & Ht);
        [assumption|discriminate|cbn [String.length] in *; lia|].
      exists st'. auto.
Qed.

(** The loop of [DFA_Digit] on a maximal run of digits that the buffer
    bound lets through. *)
Lemma digit_loop_stores (w rest : string) :
  forall (i : Z) (lex : string) (st : LexerState),
    all_digits w = true ->
    isalnum (first rest) = false ->
    (w = EmptyString \/ i + Z.of_nat (String.length w) - 2 <= M) ->
    digit_loop M (w ++ rest)%string i false lex st
    = (advance (String.length w) st,
       Some (i + Z.of_nat (String.length w), (lex ++ w)%string)).
Proof.
  induction w as [|c w IH]; intros i lex st Hw Hrest Hlen.
  - simpl. replace (advance 0 st) with st
      by (destruct st; unfold advance; simpl; f_equal; lia).
    replace (lex ++ "")%string with lex
      by (clear; induction lex; simpl; congruence).
    rewrite Z.add_0_r.
    destruct rest as [|d rest]; simpl; [reflexivity|].
    simpl in Hrest. unfold isalnum in Hrest. now rewrite Hrest.
  - simpl in Hw. apply andb_true_iff in Hw as [Hc Hw].
    destruct Hlen as [Hlen|Hlen]; [discriminate|].
    cbn [String.length] in Hlen |- *.
    cbn [String.append digit_loop]. rewrite Hc, (isdigit_not_isalpha c Hc).
    cbn [orb].
    destruct (i - 1 >? M) eqn:Hgt; [apply Z.gtb_lt in Hgt; lia|].
    rewrite IH; try assumption.
    + rewrite advance_advance, append_snoc, Nat2Z.inj_succ.
      change (1 + String.length w)%nat with (S (String.length w)).
      replace (i + Z.succ (Z.of_nat (String.length w)))
        with (i + 1 + Z.of_nat (String.length w)) by lia.
      reflexivity.
    + right. lia.
Qed.

(** The same loop on a run of digits the buffer bound stops: it returns
    from inside the loop with [NUM_TOO_LONG] and has added no token. *)
Lemma digit_loop_overflows (w rest : string) :
  forall (i : Z) (lex : string) (st : LexerState),
    all_digits w = true ->
    w <> EmptyString ->
    M < i + Z.of_nat (String.length w) - 2 ->
    exists st',
      digit_loop M (w ++ rest)%string i false lex st = (st', None) /\
      lexerError st' = NUM_TOO_LONG /\
      tokenList st' = tokenList st.
Proof.
  induction w as [|c w IH]; intros i lex st Hw Hne Hlen; [congruence|].
  simpl in Hw. apply andb_true_iff in Hw as [Hc Hw].
  cbn [String.length] in Hlen.
  simpl. rewrite Hc, (isdigit_not_isalpha c Hc). simpl.
  destruct (i - 1 >? M) eqn:Hgt.
  - eexists; split; [reflexivity|]. simpl. auto.
  - assert (i - 1 <= M) by (destruct (Z.gtb_spec (i - 1) M); [discriminate|lia]).
    destruct w as [|d w].
    + simpl in Hlen. lia.
    + destruct (IH (i + 1) (snoc lex c) (advance 1 st)) as (st' & E & He & Ht);
        [assumption|discriminate|cbn [String.length] in *; lia|].
      exists st'. auto.
Qed.

(** [DFA_Alpha] on a maximal alphanumeric run of at most 11 characters that
    fits the buffer with its terminator: the run becomes one token. *)
Lemma DFA_Alpha_accepts (st : LexerState) (w rest : string) :
  here st = (w ++ rest)%string ->
  all_alnum w = true ->
  isalnum (first rest) = false ->
  (String.length w <= 11)%nat ->
  Z.of_nat (String.length w) <= M ->
  DFA_Alpha M st
  = Returns (addToken (alphaToken w) (advance (String.length w) st)).
Proof.
  intros Hhere Hw Hrest Hlen HM.
  unfold DFA_Alpha. rewrite Hhere, alpha_loop_stores by (auto; right; lia).
  replace (1 + Z.of_nat (String.length w) - 1) with (Z.of_nat (String.length w)) by lia.
  destruct (Z.of_nat (String.length w) >? M) eqn:Hov;
    [apply Z.gtb_lt in Hov; lia|].
  destruct (Z.of_nat (String.length w) >? 11) eqn:Hgt;
    [apply Z.gtb_lt in Hgt; lia|].
  unfold alphaToken. cbn [String.append].
  destruct (negb (checkReservedTokens w =? -1)); reflexivity.
Qed.

(** [DFA_Alpha] on a maximal alphanumeric run of exactly
    [MAX_LEXEME_LENGTH + 1] characters: every character is stored, the last
    one in the last element of [lexeme], and the terminator is written
    past it. *)
Lemma DFA_Alpha_overflows (st : LexerState) (w rest : string) :
  here st = (w ++ rest)%string ->
  all_alnum w = true ->
  isalnum (first rest) = false ->
  Z.of_nat (String.length w) = M + 1 ->
  DFA_Alpha M st = WritesPastLexeme.
Proof.
  intros Hhere Hw Hrest Hlen.
  unfold DFA_Alpha. rewrite Hhere, alpha_loop_stores by (auto; right; lia).
  destruct (1 + Z.of_nat (String.length w) - 1 >? M) eqn:Hov; [reflexivity|].
  destruct (Z.gtb_spec (1 + Z.of_nat (String.length w) - 1) M); [discriminate|lia].
Qed.

(** [DFA_Alpha] on an alphanumeric run of more than 11 characters, other
    than [MAX_LEXEME_LENGTH + 1]: [NAME_TOO_LONG], and no token. *)
Lemma DFA_Alpha_rejects (st : LexerState) (w rest : string) :
  here st = (w ++ rest)%string ->
  all_alnum w = true ->
  isalnum (first rest) = false ->
  (11 < String.length w)%nat ->
  Z.of_nat (String.length w) <> M + 1 ->
  exists st',
    DFA_Alpha M st = Returns st' /\
    lexerError st' = NAME_TOO_LONG /\
    tokenList st' = tokenList st.
Proof.
  intros Hhere Hw Hrest Hlen HM.
  unfold DFA_Alpha. rewrite Hhere.
  destruct (Z_lt_le_dec M (1 + Z.of_nat (String.length w) - 2)) as [Hov|Hfit].
  - destruct (alpha_loop_overflows w rest 1 "" st) as (st' & E & He & Ht); auto.
    { intros ->. simpl in Hlen. lia. }
    rewrite E. eauto.
  - rewrite alpha_loop_stores by (auto; right; lia).
    destruct (1 + Z.of_nat (String.length w) - 1 >? M) eqn:Hov;
      [apply Z.gtb_lt in Hov; lia|].
    destruct (1 + Z.of_nat (String.length w) - 1 >? 11) eqn:Hgt.
    + eexists. split; [reflexivity|]. simpl. auto.
    + destruct (Z.gtb_spec (1 + Z.of_nat (String.length w) - 1) 11); [discriminate|lia].
Qed.

(** [DFA_Digit] on a maximal run of at most 5 digits that fits the buffer
    with its terminator: the run becomes one number token. *)
Lemma DFA_Digit_accepts (st : LexerState) (w rest : string) :
  here st = (w ++ rest)%string ->
  all_digits w = true ->
  isalnum (first rest) = false ->
  (String.length w <= 5)%nat ->
  Z.of_nat (String.length w) <= M ->
  DFA_Digit M st
  = Returns (addToken (mkToken 3 w) (advance (String.length w) st)).
Proof.
  intros Hhere Hw Hrest Hlen HM.
  unfold DFA_Digit. rewrite Hhere, digit_loop_stores by (auto; right; lia).
  replace (1 + Z.of_nat (String.length w) - 1) with (Z.of_nat (String.length w)) by lia.
  destruct (Z.of_nat (String.length w) >? M) eqn:Hov;
    [apply Z.gtb_lt in Hov; lia|].
  destruct (Z.of_nat (String.length w) >? 5) eqn:Hgt;
    [apply Z.gtb_lt in Hgt; lia|].
  reflexivity.
Qed.

(** [DFA_Digit] on a maximal run of exactly [MAX_LEXEME_LENGTH + 1]
    digits: the terminator is written past [lexeme]. *)
Lemma DFA_Digit_overflows (st : LexerState) (w rest : string) :
  here st = (w ++ rest)%string ->
  all_digits w = true ->
  isalnum (first rest) = false ->
  Z.of_nat (String.length w) = M + 1 ->
  DFA_Digit M st = WritesPastLexeme.
Proof.
  intros Hhere Hw Hrest Hlen.
  unfold DFA_Digit. rewrite Hhere, digit_loop_stores by (auto; right; lia).
  destruct (1 + Z.of_nat (String.length w) - 1 >? M) eqn:Hov; [reflexivity|].
  destruct (Z.gtb_spec (1 + Z.of_nat (String.length w) - 1) M); [discriminate|lia].
Qed.

(** [DFA_Digit] on a run of more than 5 digits, other than
    [MAX_LEXEME_LENGTH + 1]: [NUM_TOO_LONG], and no token. *)
Lemma DFA_Digit_rejects (st : LexerState) (w rest : string) :
  here st = (w ++ rest)%string ->
  all_digits w = true ->
  isalnum (first rest) = false ->
  (5 < String.length w)%nat ->
  Z.of_nat (String.length w) <> M + 1 ->
  exists st',
    DFA_Digit M st = Returns st' /\
    lexerError st' = NUM_TOO_LONG /\
    tokenList st' = tokenList st.
Proof.
  intros Hhere Hw Hrest Hlen HM.
  unfold DFA_Digit. rewrite Hhere.
  destruct (Z_lt_le_dec M (1 + Z.of_nat (String.length w) - 2)) as [Hov|Hfit].
  - destruct (digit_loop_overflows w rest 1 "" st) as (st' & E & He & Ht); auto.
    { intros ->. simpl in Hlen. lia. }
    rewrite E. eauto.
  - rewrite digit_loop_stores by (auto; right; lia).
    destruct (1 + Z.of_nat (String.length w) - 1 >? M) eqn:Hov;
      [apply Z.gtb_lt in Hov; lia|].
    destruct (1 + Z.of_nat (String.length w) - 1 >? 5) eqn:Hgt.
    + eexists. split; [reflexivity|]. simpl. auto.
    + destruct (Z.gtb_spec (1 + Z.of_nat (String.length w) - 1) 5); [discriminate|lia].
Qed.

End Loops.

(** No reserved word has 11 characters. *)
Lemma checkReservedTokens_11 (w : string) :
  String.length w = 11%nat -> checkReservedTokens w = -1.
Proof.
  intros Hlen. unfold checkReservedTokens, tokens, scanReserved.
  repeat match goal with
         | |- context [String.eqb w ?kw] =>
             destruct (String.eqb_spec w kw) as [->|_]; [discriminate Hlen|]
         end.
  reflexivity.
Qed.

(** ** C9: the length limits of identifiers and numbers *)

(** C9.  Let the source at [charInd] start with a maximal alphanumeric
    run [w].  With [MAX_LEXEME_LENGTH] = 11, a run of 12 characters is not
    rejected with [NAME_TOO_LONG]: the twelve characters fill
    [lexeme[0..11]] and the terminator is written at [lexeme[12]], past the
    array, before the length is looked at.  With [MAX_LEXEME_LENGTH] =
    12 or more the run is rejected with [NAME_TOO_LONG], the token list
    unchanged.  The three other cases are as the claim has them: a run of
    11 characters (when [MAX_LEXEME_LENGTH] is 11 or more) becomes the
    identifier token with lexeme [w], appended to the token list, with
    [charInd] past the run and no error set; a run of 5 digits (when
    [MAX_LEXEME_LENGTH] is 5 or more) becomes the number token in the same
    way; a run of 6 digits (when [MAX_LEXEME_LENGTH] is 6 or more) is
    rejected with [NUM_TOO_LONG], the token list unchanged. *)
Theorem twelve_characters_overflow_lexeme (M : Z) (st : LexerState)
  (w rest : string) :
  here st = (w ++ rest)%string ->
  all_alnum w = true ->
  isalnum (first rest) = false ->
  (M = 11 -> String.length w = 12%nat -> DFA_Alpha M st = WritesPastLexeme) /\
  (12 <= M -> String.length w = 12%nat ->
     exists st',
       DFA_Alpha M st = Returns st' /\
       lexerError st' = NAME_TOO_LONG /\
       tokenList st' = tokenList st) /\
  (11 <= M -> String.length w = 11%nat ->
     exists st',
       DFA_Alpha M st = Returns st' /\
       tokenList st' = tokenList st ++ [mkToken identsym w] /\
       charInd st' = (charInd st + 11)%nat /\
       lexerError st' = lexerError st /\ lineNum st' = lineNum st) /\
  (5 <= M -> all_digits w = true -> String.length w = 5%nat ->
     exists st',
       DFA_Digit M st = Returns st' /\
       tokenList st' = tokenList st ++ [mkToken numbersym w] /\
       charInd st' = (charInd st + 5)%nat /\
       lexerError st' = lexerError st /\ lineNum st' = lineNum st) /\
  (6 <= M -> all_digits w = true -> String.length w = 6%nat ->
     exists st',
       DFA_Digit M st = Returns st' /\
       lexerError st' = NUM_TOO_LONG /\
       tokenList st' = tokenList st).
Proof.
  intros Hhere Hw Hrest. split; [|split; [|split; [|split]]].
  - intros -> Hlen. apply (DFA_Alpha_overflows 11 st w rest); auto. lia.
  - intros HM Hlen. apply (DFA_Alpha_rejects M st w rest); auto; lia.
  - intros HM Hlen.
    rewrite (DFA_Alpha_accepts M st w rest) by (auto; lia).
    unfold alphaToken. rewrite (checkReservedTokens_11 w Hlen), Hlen.
    eexists. split; [reflexivity|]. simpl. auto.
  - intros HM Hd Hlen.
    rewrite (DFA_Digit_accepts M st w rest) by (auto; lia).
    rewrite Hlen. eexists. split; [reflexivity|]. simpl. auto.
  - intros HM Hd Hlen. apply (DFA_Digit_rejects M st w rest); auto; lia.
Qed.

(** The cases on the sources [abcdefghijkl;] (with [MAX_LEXEME_LENGTH] 11
    and 12), [abcdefghijk], [12345] and [123456]. *)
Lemma twelve_characters_overflow_lexeme_witness :
  DFA_Alpha 11 (initLexerState "abcdefghijkl;") = WritesPastLexeme /\
  (exists st',
     DFA_Alpha 12 (initLexerState "abcdefghijkl;") = Returns st' /\
     lexerError st' = NAME_TOO_LONG /\ tokenList st' = []) /\
  (exists st',
     DFA_Alpha 11 (initLexerState "abcdefghijk") = Returns st' /\
     tokenList st' = [mkToken identsym "abcdefghijk"] /\
     charInd st' = 11%nat /\ lexerError st' = NONE /\ lineNum st' = 0) /\
  (exists st',
     DFA_Digit 11 (initLexerState "12345") = Returns st' /\
     tokenList st' = [mkToken numbersym "12345"] /\
     charInd st' = 5%nat /\ lexerError st' = NONE /\ lineNum st' = 0) /\
  (exists st',
     DFA_Digit 11 (initLexerState "123456") = Returns st' /\
     lexerError st' = NUM_TOO_LONG /\ tokenList st' = []).
Proof.
  split; [|split; [|split; [|split]]].
  - apply (twelve_characters_overflow_lexeme 11 (initLexerState "abcdefghijkl;")
             "abcdefghijkl" ";"); reflexivity.
  - apply (twelve_characters_overflow_lexeme 12 (initLexerState "abcdefghijkl;")
             "abcdefghijkl" ";"); first [reflexivity|lia].
  - apply (twelve_characters_overflow_lexeme 11 (initLexerState "abcdefghijk")
             "abcdefghijk" ""); first [reflexivity|lia].
  - apply (twelve_characters_overflow_lexeme 11 (initLexerState "12345")
             "12345" ""); first [reflexivity|lia].
  - apply (twelve_characters_overflow_lexeme 11 (initLexerState "123456")
             "123456" ""); first [reflexivity|lia].
Defined.

(** The same through [lexicalAnalyzer]: the source [abcdefghijkl], with or
    without more text after it, has no defined outcome; a run of 13
    characters, which the loop itself stops, is rejected. *)
Example lexicalAnalyzer_length_limits :
  lexicalAnalyzer 11 (Some "abcdefghijkl") = WritesPastLexeme /\
  lexicalAnalyzer 11 (Some "x := abcdefghijkl + 1") = WritesPastLexeme /\
  lexicalAnalyzer 11 (Some "123456789012") = WritesPastLexeme /\
  lexicalAnalyzer 11 (Some "abcdefghijklm")
  = Returns (mkLexerOut NAME_TOO_LONG 0 (Some [])) /\
  lexicalAnalyzer 11 (Some "abcdefghijk")
  = Returns (mkLexerOut NONE (-1) (Some [mkToken 2 "abcdefghijk"])) /\
  lexicalAnalyzer 11 (Some "12345")
  = Returns (mkLexerOut NONE (-1) (Some [mkToken 3 "12345"])) /\
  lexicalAnalyzer 11 (Some "123456")
  = Returns (mkLexerOut NUM_TOO_LONG 0 (Some [])).
Proof. repeat split. Qed.

(** ** C10: the NULL source *)

(** C10.  [lexicalAnalyzer] called with the NULL pointer returns at once
    with [NO_SOURCE_CODE] and error line -1; the token list of the result
    is never assigned, so no token is produced, and no lexer state is set
    up, so no source character is read. *)
Theorem lexicalAnalyzer_null_source (M : Z) :
  lexicalAnalyzer M None = Returns (mkLexerOut NO_SOURCE_CODE (-1) None).
Proof. reflexivity. Qed.

(** ** C8: a colon that is not followed by [=] *)

(** [DFA_Special] on a colon whose next character is not [=]: the state
    that comes back differs only in [charInd]; no error is set and no
    token is added. *)
Lemma DFA_Special_lone_colon (st : LexerState) (rest : string) :
  here st = String ":" rest ->
  ch_is (first rest) "=" = false ->
  DFA_Special st = Returns (advance 1 st).
Proof.
  intros Hhere Hnext. unfold DFA_Special. rewrite Hhere. simpl.
  now rewrite Hnext.
Qed.

(** C8, at the failing inputs.  On the source [:] the lexer returns without
    an error and with an empty token list, whatever [MAX_LEXEME_LENGTH]
    is; on [x : y] (with [MAX_LEXEME_LENGTH] = 11) it returns the two
    identifiers and no error: the colon is skipped. *)
Theorem lone_colon_is_skipped :
  (forall M, lexicalAnalyzer M (Some ":")
             = Returns (mkLexerOut NONE (-1) (Some []))) /\
  lexicalAnalyzer 11 (Some "x : y")
  = Returns (mkLexerOut NONE (-1) (Some [mkToken 2 "x"; mkToken 2 "y"])).
Proof. split; reflexivity. Qed.

(** ** C7: termination, and the comment that is not closed *)

(** The comment loop on a body without the closing pair runs off the end
    of the source. *)
Lemma comment_loop_unterminated (body : string) :
  forall st, closes body = false -> comment_loop body st = ReadsPastEnd.
Proof.
  induction body as [|c body IH]; intros st H; [reflexivity|].
  simpl in H. apply orb_false_iff in H as [Hc Hb].
  simpl. destruct (ch_is c "*"); [|auto].
  simpl in Hc. rewrite Hc. auto.
Qed.

(** [DFA_Special] at the opening of a comment that is never closed. *)
Lemma DFA_Special_unterminated (st : LexerState) (body : string) :
  here st = String "/" (String "*" body) ->
  closes body = false ->
  DFA_Special st = ReadsPastEnd.
Proof.
  intros Hhere Hb. unfold DFA_Special. rewrite Hhere. simpl.
  now apply comment_loop_unterminated.
Qed.

(** *** The budget of [lexicalAnalyzer] is never used up *)

Lemma length_string_from (n : nat) (s : string) :
  String.length (string_from n s) = (String.length s - n)%nat.
Proof.
  revert s. induction n as [|n IH]; intros s; simpl; [lia|].
  destruct s as [|c s]; simpl; [reflexivity|]. apply IH.
Qed.

Lemma alpha_loop_moves (M : Z) (rest : string) :
  forall i lex st st' o,
    alpha_loop M rest i lex st = (st', o) ->
    moved (if isalnum (first rest) then 1 else 0) (String.length rest) st st'.
Proof.
  induction rest as [|c rest IH]; intros i lex st st' o E; simpl in E.
  - injection E as <- _. unfold moved; simpl; repeat split; lia.
  - simpl. unfold isalnum. destruct (isalpha c || isdigit c).
    + destruct (i - 1 >? M);
        [injection E as <- _; unfold moved; simpl; repeat split; lia|].
      apply IH in E.
      destruct E as (? & ? & ?). unfold moved in *; simpl in *.
      repeat split; [congruence|lia|lia].
    + injection E as <- _. unfold moved; simpl; repeat split; lia.
Qed.

Lemma digit_loop_moves (M : Z) (rest : string) :
  forall i y lex st st' o,
    digit_loop M rest i y lex st = (st', o) ->
    moved (if isalnum (first rest) then 1 else 0) (String.length rest) st st'.
Proof.
  induction rest as [|c rest IH]; intros i y lex st st' o E; simpl in E.
  - injection E as <- _. unfold moved; simpl; repeat split; lia.
  - simpl. unfold isalnum. destruct (isalpha c || isdigit c).
    + destruct (i - 1 >? M);
        [injection E as <- _; unfold moved; simpl; repeat split; lia|].
      destruct (if isalpha c then true else y);
        [injection E as <- _; unfold moved; simpl; repeat split; lia|].
      apply IH in E.
      destruct E as (? & ? & ?). unfold moved in *; simpl in *.
      repeat split; [congruence|lia|lia].
    + injection E as <- _. unfold moved; simpl; repeat split; lia.
Qed.

Lemma DFA_Alpha_moves (M : Z) (st st2 : LexerState) :
  isalnum (first (here st)) = true ->
  DFA_Alpha M st = Returns st2 ->
  moved 1 (String.length (here st)) st st2.
Proof.
  intros Hc. unfold DFA_Alpha.
  destruct (alpha_loop M (here st) 1 "" st) as [st' o] eqn:E.
  apply alpha_loop_moves in E. rewrite Hc in E.
  destruct o as [[i lex]|]; [|now intros [= <-]].
  destruct (i - 1 >? M); [discriminate|].
  destruct (i - 1 >? 11); [|destruct (negb _)];
    intros [= <-]; destruct E as (? & ? & ?); unfold moved; simpl; auto.
Qed.

Lemma DFA_Alpha_no_budget (M : Z) (st : LexerState) : DFA_Alpha M st <> OutOfFuel.
Proof.
  unfold DFA_Alpha.
  destruct (alpha_loop M (here st) 1 "" st) as [st' [[i lex]|]]; [|discriminate].
  destruct (i - 1 >? M); [discriminate|].
  destruct (i - 1 >? 11); [|destruct (negb _)]; discriminate.
Qed.

Lemma DFA_Digit_moves (M : Z) (st st2 : LexerState) :
  isalnum (first (here st)) = true ->
  DFA_Digit M st = Returns st2 ->
  moved 1 (String.length (here st)) st st2.
Proof.
  intros Hc. unfold DFA_Digit.
  destruct (digit_loop M (here st) 1 false "" st) as [st' o] eqn:E.
  apply digit_loop_moves in E. rewrite Hc in E.
  destruct o as [[i lex]|]; [|now intros [= <-]].
  destruct (i - 1 >? M); [discriminate|].
  destruct (i - 1 >? 5);
    intros [= <-]; destruct E as (? & ? & ?); unfold moved; simpl; auto.
Qed.

Lemma DFA_Digit_no_budget (M : Z) (st : LexerState) : DFA_Digit M st <> OutOfFuel.
Proof.
  unfold DFA_Digit.
  destruct (digit_loop M (here st) 1 false "" st) as [st' [[i lex]|]]; [|discriminate].
  destruct (i - 1 >? M); [discriminate|].
  destruct (i - 1 >? 5); discriminate.
Qed.

Lemma comment_loop_moves (body : string) :
  forall st st',
    comment_loop body st = Returns st' ->
    moved 1 (1 + String.length body) st st'.
Proof.
  induction body as [|c body IH]; intros st st' E; simpl in E; [discriminate|].
  assert (Hrec : comment_loop body (advance 1 st) = Returns st' ->
                 moved 1 (1 + String.length (String c body)) st st').
  { intros E'. apply IH in E'. destruct E' as (? & ? & ?).
    unfold moved in *; simpl in *. repeat split; [congruence|lia|lia]. }
  destruct (ch_is c "*"); [|auto].
  destruct (ch_is (first body) "/") eqn:Hs; [|auto].
  injection E as <-.
  destruct body as [|d body]; [discriminate Hs|].
  unfold moved; simpl. repeat split; lia.
Qed.

Lemma comment_loop_no_budget (body : string) :
  forall st, comment_loop body st <> OutOfFuel.
Proof.
  induction body as [|c body IH]; intros st; simpl; [discriminate|].
  destruct (ch_is c "*"); [destruct (ch_is (first body) "/")|]; auto; discriminate.
Qed.

(** A character equal to a written one is not the NUL. *)
Lemma first_is (s : string) (c : ascii) :
  ch_is (first s) c = true -> c <> NUL -> exists s', s = String c s'.
Proof.
  intros H Hc. unfold ch_is in H. destruct s as [|d s]; cbn [first] in H.
  - apply Ascii.eqb_eq in H. congruence.
  - apply Ascii.eqb_eq in H. subst. eauto.
Qed.

Lemma DFA_Special_moves (st st' : LexerState) :
  ch_is (first (here st)) NUL = false ->
  DFA_Special st = Returns st' ->
  moved 1 (String.length (here st)) st st'.
Proof.
  intros Hc0 E. unfold DFA_Special in E.
  destruct (here st) as [|c0 r0] eqn:Hhere; [discriminate Hc0|].
  cbn [first rest_of] in E.
  assert (One : forall t, moved 1 (String.length (String c0 r0)) st
                                (advance 1 (addToken t st))).
  { intros t. unfold moved; simpl. repeat split; lia. }
  assert (Skip : moved 1 (String.length (String c0 r0)) st (advance 1 st)).
  { unfold moved; simpl. repeat split; lia. }
  assert (Two : forall t c, ch_is (first r0) c = true -> c <> NUL ->
                  moved 1 (String.length (String c0 r0)) st
                        (advance 1 (addToken t (advance 1 st)))).
  { intros t c H Hn. destruct (first_is _ _ H Hn) as [r1 ->].
    unfold moved; simpl. repeat split; lia. }
  assert (Com : ch_is (first r0) "*" = true ->
                comment_loop (rest_of r0) (advance 1 st) = Returns st' ->
                moved 1 (String.length (String c0 r0)) st st').
  { intros H E'. destruct (first_is _ _ H) as [r1 ->]; [discriminate|].
    apply comment_loop_moves in E'. destruct E' as (? & ? & ?).
    unfold moved in *; simpl in *. repeat split; [congruence|lia|lia]. }
  repeat match type of E with
         | (if ?b then _ else _) = _ => destruct b eqn:?
         end;
    try (injection E as <-); eauto; try (eapply Two; eauto; discriminate).
Qed.

Lemma DFA_Special_no_budget (st : LexerState) : DFA_Special st <> OutOfFuel.
Proof.
  unfold DFA_Special.
  repeat match goal with
         | |- (if ?b then _ else _) <> _ => destruct b
         end;
    try discriminate; apply comment_loop_no_budget.
Qed.

Lemma skip_blanks_moves (rest : string) :
  forall st,
    moved 0 (String.length rest) st (skip_blanks rest st) /\
    lexerError (skip_blanks rest st) = lexerError st.
Proof.
  induction rest as [|c rest IH]; intros st; simpl.
  - unfold moved; split; [repeat split; lia|reflexivity].
  - destruct (ch_is c " " || ch_is c "010").
    + destruct (IH (advance 1 (if ch_is c "010" then newLine st else st)))
        as ((? & ? & ?) & He).
      destruct (ch_is c "010"); unfold moved in *; simpl in *;
        (split; [repeat split; [congruence|lia|lia]|congruence]).
    + unfold moved; split; [repeat split; lia|reflexivity].
Qed.

Lemma here_length (st : LexerState) :
  String.length (here st) = (String.length (sourceCode st) - charInd st)%nat.
Proof. apply length_string_from. Qed.

Lemma moved_inside (lo : nat) (st st' : LexerState) :
  inside st -> moved lo (String.length (here st)) st st' ->
  inside st' /\
  (String.length (here st') + lo <= String.length (here st))%nat.
Proof.
  unfold inside. intros Hin (Hs & Hlo & Hhi).
  rewrite !here_length in *. rewrite Hs in *. lia.
Qed.

Lemma lex_loop_stops_on_error (M : Z) (fuel : nat) (st : LexerState) :
  inside st -> lexerError st <> NONE ->
  lex_loop M (S fuel) st = Returns st.
Proof.
  intros Hin He. simpl. unfold peek.
  destruct (Nat.leb_spec (charInd st) (String.length (sourceCode st)));
    [|unfold inside in Hin; lia].
  destruct (lexerError st); try congruence;
    now rewrite andb_false_r.
Qed.

Lemma getSymbolType_ALPHA (c : ascii) : getSymbolType c = ALPHA -> isalnum c = true.
Proof.
  unfold getSymbolType, isalnum.
  destruct (isalpha c); [reflexivity|].
  destruct (isdigit c); [discriminate|destruct (isSpecialSymbol c); discriminate].
Qed.

Lemma getSymbolType_DIGIT (c : ascii) : getSymbolType c = DIGIT -> isalnum c = true.
Proof.
  unfold getSymbolType, isalnum.
  destruct (isalpha c); [reflexivity|].
  destruct (isdigit c); [reflexivity|destruct (isSpecialSymbol c); discriminate].
Qed.

(** The outer loop with more rounds than there are characters left does
    not use them up. *)
Lemma lex_loop_budget (M : Z) (fuel : nat) :
  forall st,
    inside st ->
    (String.length (here st) < fuel)%nat ->
    lex_loop M fuel st <> OutOfFuel.
Proof.
  induction fuel as [|fuel IH]; intros st Hin Hlen; [lia|].
  cbn [lex_loop]. unfold peek.
  destruct (Nat.leb_spec (charInd st) (String.length (sourceCode st)));
    [|unfold inside in Hin; lia].
  destruct (negb (ch_is (first (here st)) NUL) && LexErr_eqb (lexerError st) NONE);
    [|discriminate].
  destruct (skip_blanks_moves (here st) st) as [Hmv Herr].
  destruct (moved_inside 0 st _ Hin Hmv) as [Hin1 Hlen1].
  set (st1 := skip_blanks (here st) st) in *.
  destruct (ch_is (first (here st1)) NUL) eqn:Hnul; [discriminate|].
  assert (Hpos : (1 <= String.length (here st1))%nat).
  { destruct (here st1); [discriminate Hnul|simpl; lia]. }
  destruct (getSymbolType (first (here st1))) eqn:Hty.
  - apply getSymbolType_ALPHA in Hty.
    destruct (DFA_Alpha M st1) as [st2| | |] eqn:E.
    + destruct (moved_inside 1 st1 _ Hin1 (DFA_Alpha_moves M st1 st2 Hty E)).
      apply IH; [assumption|lia].
    + discriminate.
    + discriminate.
    + now apply DFA_Alpha_no_budget in E.
  - apply getSymbolType_DIGIT in Hty.
    destruct (DFA_Digit M st1) as [st2| | |] eqn:E.
    + destruct (moved_inside 1 st1 _ Hin1 (DFA_Digit_moves M st1 st2 Hty E)).
      apply IH; [assumption|lia].
    + discriminate.
    + discriminate.
    + now apply DFA_Digit_no_budget in E.
  - destruct (DFA_Special st1) as [st2| | |] eqn:E.
    + destruct (moved_inside 1 st1 _ Hin1 (DFA_Special_moves st1 st2 Hnul E)).
      apply IH; [assumption|lia].
    + discriminate.
    + discriminate.
    + now apply DFA_Special_no_budget in E.
  - destruct fuel as [|fuel]; [lia|].
    rewrite lex_loop_stops_on_error; [discriminate|exact Hin1|simpl; discriminate].
Qed.

(** The part of C7 that holds: [lexicalAnalyzer] always comes to an end in
    the model, by returning, by reading past the end of the source or by
    writing past [lexeme]. *)
Lemma lexicalAnalyzer_budget (M : Z) (sourceCode : option string) :
  lexicalAnalyzer M sourceCode <> OutOfFuel.
Proof.
  destruct sourceCode as [src|]; [|discriminate].
  unfold lexicalAnalyzer.
  pose proof (lex_loop_budget M (S (String.length src)) (initLexerState src)) as H.
  destruct (lex_loop M (S (String.length src)) (initLexerState src)) as [st| | |].
  - destruct (negb _); discriminate.
  - discriminate.
  - discriminate.
  - exfalso. apply H; [unfold inside; simpl; lia| |reflexivity].
    rewrite here_length. simpl. lia.
Qed.

(** C7, at the failing inputs.  On a source that ends inside a comment the
    lexer neither returns an error nor returns at all within the string:
    the comment loop goes on reading beyond the terminating NUL. *)
Theorem unterminated_comment_reads_past_end (M : Z) :
  lexicalAnalyzer M (Some "/*") = ReadsPastEnd /\
  lexicalAnalyzer M (Some "/* no end *") = ReadsPastEnd.
Proof. split; reflexivity. Qed.

End LexerProps.

(* ===================================================================== *)
(** * Properties of the code generator                                    *)
(* ===================================================================== *)

Module CodeGenProps.
Import CodeGen CodeGenTerms.
Local Open Scope cg_scope.

(** ** More fuel does not change a result *)

Lemma le_gen_refl {A} (c : Gen A) : le_gen c c.
Proof. intros s. now right. Qed.

Lemma le_gen_nofuel {A} (c : Gen A) : le_gen nofuel c.
Proof. intros s. now left. Qed.

Lemma le_gen_bind {A B} (c1 c2 : Gen A) (k1 k2 : A -> Gen B) :
  le_gen c1 c2 -> (forall a, le_gen (k1 a) (k2 a)) ->
  le_gen (bind c1 k1) (bind c2 k2).
Proof.
  intros Hc Hk s. unfold bind.
  destruct (Hc s) as [E|E]; rewrite E; [now left|].
  destruct (c2 s); try (now right). apply Hk.
Qed.

Lemma le_gen_orReturn (c1 c2 k1 k2 : Gen Z) :
  le_gen c1 c2 -> le_gen k1 k2 -> le_gen (orReturn c1 k1) (orReturn c2 k2).
Proof.
  intros Hc Hk. unfold orReturn. apply le_gen_bind; [assumption|].
  intros err. destruct (negb (err =? 0)); [apply le_gen_refl|assumption].
Qed.

Lemma le_gen_if {A} (b : bool) (c1 c2 d1 d2 : Gen A) :
  le_gen c1 c2 -> le_gen d1 d2 ->
  le_gen (if b then c1 else d1) (if b then c2 else d2).
Proof. destruct b; auto. Qed.

Ltac mono_step :=
  lazymatch goal with
  | |- le_gen nofuel _ => apply le_gen_nofuel
  | |- le_gen ?c ?c => apply le_gen_refl
  | |- le_gen (orReturn _ _) (orReturn _ _) => apply le_gen_orReturn
  | |- le_gen (bind _ _) (bind _ _) => apply le_gen_bind; [|intros ?]
  | |- le_gen (if ?b then _ else _) (if ?b then _ else _) => apply le_gen_if
  | |- le_gen _ _ =>
      match goal with
      | H : _ |- _ => apply H
      end
  end.

Ltac mono := repeat mono_step.

Lemma const_loop_mono (n m : nat) :
  (n <= m)%nat -> le_gen (const_loop n) (const_loop m).
Proof.
  revert m. induction n as [|n IH]; intros m Hle; [apply le_gen_nofuel|].
  destruct m as [|m]; [lia|]. specialize (IH m ltac:(lia)).
  cbn [const_loop]. mono.
Qed.

Lemma var_loop_mono (n m : nat) :
  (n <= m)%nat -> le_gen (var_loop n) (var_loop m).
Proof.
  revert m. induction n as [|n IH]; intros m Hle; [apply le_gen_nofuel|].
  destruct m as [|m]; [lia|]. specialize (IH m ltac:(lia)).
  cbn [var_loop]. mono.
Qed.

Lemma const_declaration_mono (n m : nat) :
  (n <= m)%nat -> le_gen (const_declaration n) (const_declaration m).
Proof.
  intros Hle. pose proof (const_loop_mono n m Hle).
  unfold const_declaration. mono.
Qed.

Lemma var_declaration_mono (n m : nat) :
  (n <= m)%nat -> le_gen (var_declaration n) (var_declaration m).
Proof.
  intros Hle. pose proof (var_loop_mono n m Hle).
  unfold var_declaration. mono.
Qed.

Lemma parsing_mono (n : nat) : forall m, (n <= m)%nat -> all_mono n m.
Proof.
  induction n as [|n IH]; intros m Hle.
  - repeat split; intros; apply le_gen_nofuel.
  - destruct m as [|m]; [lia|].
    destruct (IH m ltac:(lia))
      as (Hb & Hp & Hs & Hsl & Hc & He & Hel & Ht & Htl & Hf).
    pose proof (const_declaration_mono n m ltac:(lia)) as Hcd.
    pose proof (var_declaration_mono n m ltac:(lia)) as Hvd.
    repeat split; intros.
    + cbn [block]. mono.
    + cbn [proc_declaration]. mono.
    + cbn [statement]. mono.
    + cbn [statement_loop]. mono.
    + cbn [condition]. cbv zeta. mono.
    + cbn [expression]. mono.
    + cbn [expression_loop]. cbv zeta. mono.
    + cbn [term]. mono.
    + cbn [term_loop]. cbv zeta. mono.
    + cbn [factor]. mono.
Qed.

Lemma program_mono (n m : nat) : (n <= m)%nat -> le_gen (program n) (program m).
Proof.
  intros Hle. destruct (parsing_mono n m Hle) as (Hb & _).
  unfold program. mono.
Qed.

(** Once [codeGenerator] has reached a result, any larger budget gives the
    same result. *)
Lemma codeGenerator_more_fuel (n : nat) (tokenList : list Token) (res : result Z) :
  codeGenerator n tokenList = res -> res <> NoFuel ->
  forall k, codeGenerator (n + k) tokenList = res.
Proof.
  intros E Hne k. unfold codeGenerator in *.
  destruct (program_mono n (n + k) ltac:(lia) (initial tokenList)) as [H|H];
    congruence.
Qed.

(** Each of these token lists is what the lexer makes of the source text
    given with it. *)
Example programs_are_lexer_output :
  let lex src := Lexer.lexicalAnalyzer 11 (Some src) in
  let good toks := Lexer.Returns (Lexer.mkLexerOut Lexer.NONE (-1) (Some toks)) in
  lex "var x; read x." = good read_program /\
  lex "if - 1 = 2 then ." = good negation_program /\
  lex "if 1 = 2 then ." = good relation_program /\
  lex "const c = 1; call c." = good call_const_program /\
  lex "var v; call v." = good call_var_program /\
  lex "const c = 1; c := 1." = good assign_const_program /\
  lex "procedure p; p := 1; ." = good assign_proc_program /\
  lex "procedure p; call p; ." = good call_program /\
  lex "var x, y; if odd x then read y." = good variables_program.
Proof. repeat split. Qed.

(** ** C1: the register counter across statements and expressions *)

(** The first half of what fails in C1, for every state: [statement] on
    [read ident], when the identifier is found and there is room for two
    instructions, returns 0 and leaves [currentReg] one lower than it
    found it. *)
Lemma statement_read_lowers_currentReg (k : nat) (s : CG) (sym : Symbol) :
  id (getCurrentTokenFromIterator s) = readsym ->
  id (getCurrentTokenFromIterator (skipToken s)) = identsym ->
  findSymbol (symbolTable s) (currentScope s)
             (lexeme (getCurrentTokenFromIterator (skipToken s))) = Some sym ->
  nextCodeIndex s + 1 < MAX_CODE_LENGTH ->
  exists s',
    statement (S k) s = Ret 0 s' /\ currentReg s' = currentReg s - 1.
Proof.
  intros Hread Hid Hfind Hroom.
  cbn [statement].
  unfold emitForCurrentSymbol, findLevel, tokenIs, getCurrentTokenType, getCurrentToken,
    currentSymbol, nextToken, setCurrentReg, get, emit, bind, ret.
  rewrite Hread.
  change (readsym =? identsym) with false. change (readsym =? callsym) with false.
  change (readsym =? beginsym) with false. change (readsym =? ifsym) with false.
  change (readsym =? whilesym) with false. change (readsym =? readsym) with true.
  cbv beta iota.
  unfold nextCodeIndex, getCurrentTokenFromIterator, skipToken in *.
  cbn [tokenList currentTokenInd currentLevel currentScope symbolTable vmCode
       currentReg] in *.
  destruct (Z.eqb_spec (Z.of_nat (length (vmCode s))) MAX_CODE_LENGTH); [lia|].
  cbn [tokenList currentTokenInd currentLevel currentScope symbolTable vmCode
       currentReg].
  rewrite Hid. change (identsym =? identsym) with true.
  cbv beta iota delta [negb].
  cbn [tokenList currentTokenInd currentLevel currentScope symbolTable vmCode
       currentReg].
  repeat (cbv beta iota;
          cbn [tokenList currentTokenInd currentLevel currentScope symbolTable
               vmCode currentReg];
          try rewrite Hfind;
          try rewrite length_app; cbn [length];
          try match goal with
              | |- context [wrapu32 ?x <? 0] => destruct (wrapu32 x <? 0)
              | |- context [?x =? MAX_CODE_LENGTH] =>
                  destruct (Z.eqb_spec x MAX_CODE_LENGTH); [lia|]
              end).
  all: eexists; split; reflexivity.
Qed.

(** C1, at the failing inputs.  Code generation returns 0 for
    [var x; read x.] (with any budget from 5 on) and for
    [if - 1 = 2 then .] (with any budget from 6 on).  In the first run the call of [statement] on [read x] enters with
    [currentReg] = 0 and leaves with -1; in the second the call of
    [expression] on [- 1] enters with [currentReg] = 0 and leaves with 0,
    not 1. *)
Theorem currentReg_not_balanced :
  (forall k,
     (exists s, codeGenerator (5 + k) read_program = Ret 0 s) /\
     (const_declaration (S k) ;;; var_declaration (S k) ;;;
      proc_declaration (S k) ;;; ret 0)
       (initial read_program) = Ret 0 read_before /\
     statement (S k) read_before = Ret 0 read_after) /\
  currentReg read_before = 0 /\ currentReg read_after = -1 /\
  (forall k,
     (exists s, codeGenerator (6 + k) negation_program = Ret 0 s) /\
     (nextToken ;; ret 0) (initial negation_program) = Ret 0 negation_before /\
     expression (3 + k) negation_before = Ret 0 negation_after) /\
  currentReg negation_before = 0 /\ currentReg negation_after = 0.
Proof.
  split; [|split; [reflexivity|split; [reflexivity|split; [|split; reflexivity]]]].
  - intros k. split; [eexists; vm_compute; reflexivity|].
    split; vm_compute; reflexivity.
  - intros k. split; [eexists; vm_compute; reflexivity|].
    split; vm_compute; reflexivity.
Qed.

(** ** C3: error codes 16 and 17 *)

(** The half of C3 that holds: an assignment whose target is found and is
    not a variable returns 16 before anything is consumed or emitted. *)
Lemma statement_assign_non_variable (k : nat) (s : CG) (sym : Symbol) :
  id (getCurrentTokenFromIterator s) = identsym ->
  findSymbol (symbolTable s) (currentScope s)
             (lexeme (getCurrentTokenFromIterator s)) = Some sym ->
  type sym <> VAR ->
  statement (S k) s = Ret 16 s.
Proof.
  intros Hid Hfind Hty. cbn [statement].
  unfold bind, getCurrentTokenType, getCurrentToken, ret, currentSymbol, bind.
  rewrite Hid. change (identsym =? identsym) with true. cbv beta iota.
  rewrite Hfind. cbv beta iota.
  destruct (type sym); [reflexivity|congruence|reflexivity].
Qed.

(** The other half: a call whose identifier is found and is not a
    procedure returns 7, with [call] consumed. *)
Lemma statement_call_non_procedure (k : nat) (s : CG) (sym : Symbol) :
  id (getCurrentTokenFromIterator s) = callsym ->
  id (getCurrentTokenFromIterator (skipToken s)) = identsym ->
  findSymbol (symbolTable s) (currentScope s)
             (lexeme (getCurrentTokenFromIterator (skipToken s))) = Some sym ->
  type sym <> PROC ->
  statement (S k) s = Ret 7 (skipToken s).
Proof.
  intros Hcall Hid Hfind Hty. cbn [statement].
  unfold bind, getCurrentTokenType, getCurrentToken, ret, nextToken, tokenIs,
    currentSymbol, bind, getCurrentTokenType, getCurrentToken, ret, bind.
  rewrite Hcall.
  change (callsym =? identsym) with false. change (callsym =? callsym) with true.
  cbv beta iota. fold (skipToken s). rewrite Hid.
  change (identsym =? identsym) with true. cbv beta iota delta [negb].
  change (symbolTable (skipToken s)) with (symbolTable s).
  change (currentScope (skipToken s)) with (currentScope s).
  rewrite Hfind. cbv beta iota.
  destruct (type sym); [reflexivity|reflexivity|congruence].
Qed.

(** C3, at the failing inputs.  For [const c = 1; call c.] and for
    [var v; call v.] code generation stops with error code 7, not 17, with
    any budget from 3 on.  (The assignments [c := 1] to the constant and
    [p := 1] to the procedure stop with 16.) *)
Theorem call_of_non_procedure_returns_7 :
  forall k,
    (exists s, codeGenerator (3 + k) call_const_program = Ret 7 s) /\
    (exists s, codeGenerator (3 + k) call_var_program = Ret 7 s) /\
    (exists s, codeGenerator (3 + k) assign_const_program = Ret 16 s) /\
    (exists s, codeGenerator (5 + k) assign_proc_program = Ret 16 s).
Proof.
  intros k.
  split; [|split; [|split]]; eexists; vm_compute; reflexivity.
Qed.

(** ** C4: the CAL instruction *)

(** C4, at the failing input.  For [procedure p; call p; .] code generation
    returns 0 with any budget from 5 on.  [p] is declared at level 0 and
    the call stands at level 1, inside [p], whose code starts at index 0
    (its [JMP]) or 1 (its [INC]).  The one CAL emitted has [r] = 0, but its
    [l] is the [address] member of the symbol, which no declaration wrote,
    and its [m] is the constant 4. *)
Theorem call_emits_address_and_4 :
  forall k,
    exists s,
      codeGenerator (5 + k) call_program = Ret 0 s /\
      symbolTable s = [mkSymbol PROC "p" Indeterminate 0 Indeterminate] /\
      vmCode s = [ins JMP 0 (Known 0) (Known 3);
                  ins INC 0 (Known 0) (Known 4);
                  ins CAL 0 Indeterminate (Known 4);
                  ins SIO_HALT 0 (Known 0) (Known 3)].
Proof.
  intros k. eexists.
  split; [vm_compute; reflexivity|]. split; reflexivity.
Qed.

(** ** C5: the order of a relational condition *)

(** C5, at the failing input.  For [if 1 = 2 then .] code generation
    returns 0 with any budget from 6 on, and the comparison is emitted
    between the code of the two operands: [LIT] for 1, then [EQL 0 0 1],
    then [LIT] for 2 (into register 0 again), then the [JPC]. *)
Theorem relation_emitted_before_right_operand :
  forall k,
    exists s,
      codeGenerator (6 + k) relation_program = Ret 0 s /\
      vmCode s = [ins LIT 0 (Known 0) (Known 1);
                  ins EQL 0 (Known 0) (Known 1);
                  ins LIT 0 (Known 0) (Known 2);
                  ins JPC 1 (Known 0) (Known 4);
                  ins SIO_HALT 0 (Known 0) (Known 3)].
Proof.
  intros k. eexists.
  split; [vm_compute; reflexivity|]. split; reflexivity.
Qed.

(** ** C6: the address of a variable *)

(** No function of the generator writes the [address] of a symbol: after
    any run, whatever the tokens and however it ends, every symbol of the
    table still has the [address] it was declared with, which is none. *)

Lemma preserves_ret (P : CG -> Prop) {A} (a : A) : preserves P (ret a).
Proof. intros s H. exact H. Qed.

Lemma preserves_nofuel (P : CG -> Prop) {A} : preserves P (@nofuel A).
Proof. intros s H. exact I. Qed.

Lemma preserves_bind (P : CG -> Prop) {A B} (c : Gen A) (k : A -> Gen B) :
  preserves P c -> (forall a, preserves P (k a)) -> preserves P (bind c k).
Proof.
  intros Hc Hk s H. unfold bind. specialize (Hc s H).
  destruct (c s); auto. now apply Hk.
Qed.

Lemma preserves_orReturn (P : CG -> Prop) (c k : Gen Z) :
  preserves P c -> preserves P k -> preserves P (orReturn c k).
Proof.
  intros Hc Hk. unfold orReturn. apply preserves_bind; [assumption|].
  intros err. destruct (negb (err =? 0)); [apply preserves_ret|assumption].
Qed.

Lemma preserves_if (P : CG -> Prop) {A} (b : bool) (c d : Gen A) :
  preserves P c -> preserves P d -> preserves P (if b then c else d).
Proof. destruct b; auto. Qed.

(** A computation that hands back the table it was given keeps
    [no_address]. *)
Lemma preserves_same_table {A} (c : Gen A) :
  (forall s, match c s with
             | Ret _ s' | Exits s' | NullDeref s' => symbolTable s' = symbolTable s
             | NoFuel => True
             end) ->
  preserves no_address c.
Proof.
  intros Hc s H. specialize (Hc s). unfold no_address in *.
  destruct (c s); try rewrite Hc; auto.
Qed.

Lemma preserves_addSymbol (sym : Symbol) :
  address sym = Indeterminate -> preserves no_address (addSymbol sym).
Proof.
  intros Ha s H. unfold addSymbol, no_address in *. simpl.
  apply Forall_app. split; [assumption|]. now constructor.
Qed.

Ltac same_table :=
  apply preserves_same_table; intros ?s;
  cbv [get put getCurrentToken getCurrentTokenType tokenIs nextToken emit patch_m
       setCurrentReg setCurrentLevel setCurrentScope currentSymbol bind ret];
  repeat match goal with
         | |- context [if ?b then _ else _] => destruct b
         | |- context [match findSymbol ?a ?b ?c with _ => _ end] =>
             destruct (findSymbol a b c)
         end;
  reflexivity.

Lemma preserves_findLevel (x : Z) : preserves no_address (findLevel x).
Proof.
  unfold findLevel.
  apply preserves_bind; [same_table|intros sym].
  apply preserves_bind; [same_table|intros s0].
  apply preserves_if; [apply preserves_ret|].
  apply preserves_bind; [same_table|intros sym']. apply preserves_ret.
Qed.

Ltac keep :=
  repeat lazymatch goal with
    | |- preserves _ nofuel => apply preserves_nofuel
    | |- preserves _ (ret _) => apply preserves_ret
    | |- preserves _ (orReturn _ _) => apply preserves_orReturn
    | |- preserves _ (bind _ _) => apply preserves_bind; [|intros ?]
    | |- preserves _ (if _ then _ else _) => apply preserves_if
    | |- preserves _ (addSymbol _) => apply preserves_addSymbol; reflexivity
    | |- preserves _ (findLevel _) => apply preserves_findLevel
    | |- preserves _ _ =>
        first [ match goal with H : _ |- _ => apply H end | same_table ]
    end.

Lemma preserves_const_item : preserves no_address const_item.
Proof. unfold const_item. keep. Qed.

Lemma preserves_var_item : preserves no_address var_item.
Proof. unfold var_item. keep. Qed.

Lemma preserves_const_declaration (n : nat) :
  preserves no_address (const_declaration n).
Proof.
  pose proof preserves_const_item as Hi.
  assert (Hl : forall k, preserves no_address (const_loop k)).
  { induction k as [|k IH]; cbn [const_loop]; keep. }
  unfold const_declaration. keep.
Qed.

Lemma preserves_var_declaration (n : nat) :
  preserves no_address (var_declaration n).
Proof.
  pose proof preserves_var_item as Hi.
  assert (Hl : forall k, preserves no_address (var_loop k)).
  { induction k as [|k IH]; cbn [var_loop]; keep. }
  unfold var_declaration. keep.
Qed.

Lemma preserves_emitBinary (OP : Z) : preserves no_address (emitBinary OP).
Proof. unfold emitBinary. keep. Qed.

Lemma preserves_emitForCurrentSymbol (OP : Z) :
  preserves no_address (emitForCurrentSymbol OP).
Proof. unfold emitForCurrentSymbol. keep. Qed.

Lemma parsing_keeps_no_address (n : nat) : all_preserve no_address n.
Proof.
  induction n as [|n IH].
  - repeat split; intros; apply preserves_nofuel.
  - destruct IH as (Hb & Hp & Hs & Hsl & Hc & He & Hel & Ht & Htl & Hf).
    pose proof (preserves_const_declaration n) as Hcd.
    pose proof (preserves_var_declaration n) as Hvd.
    pose proof preserves_emitBinary as Heb.
    pose proof preserves_emitForCurrentSymbol as Hes.
    repeat split; intros.
    + cbn [block]. keep.
    + cbn [proc_declaration]. cbv zeta. keep.
    + cbn [statement]. keep.
    + cbn [statement_loop]. keep.
    + cbn [condition]. cbv zeta. keep.
    + cbn [expression]. keep.
    + cbn [expression_loop]. cbv zeta. keep.
    + cbn [term]. keep.
    + cbn [term_loop]. cbv zeta. keep.
    + cbn [factor]. keep.
Qed.

(** The half of C6 that fails, for every input: whatever [codeGenerator]
    is given and whatever it returns, no symbol of its table carries an
    assigned address. *)
Lemma address_never_written (n : nat) (tokenList : list Token) (err : Z) (s : CG) :
  codeGenerator n tokenList = Ret err s -> no_address s.
Proof.
  intros E. unfold codeGenerator in E.
  destruct (parsing_keeps_no_address n) as (Hb & _).
  assert (Hp : preserves no_address (program n)) by (unfold program; keep).
  specialize (Hp (initial tokenList) ltac:(constructor)).
  now rewrite E in Hp.
Qed.

(** C6, at the failing input.  For [var x, y; if odd x then read y.] code
    generation returns 0 with any budget from 7 on.  The two symbols are
    added with an [address] that was never written, not with 4 and 5, and
    the [LOD] of [x] and the [STO] of [y] carry that member as [m]. *)
Theorem variable_address_never_assigned :
  forall k,
    exists s,
      codeGenerator (7 + k) variables_program = Ret 0 s /\
      symbolTable s = [mkSymbol VAR "x" Indeterminate 0 Indeterminate;
                       mkSymbol VAR "y" Indeterminate 0 Indeterminate] /\
      vmCode s = [ins INC 0 (Known 0) (Known 2);
                  ins INC 0 (Known 0) (Known 2);
                  ins LOD 0 (Known 0) Indeterminate;
                  ins ODD 0 (Known 0) (Known 1);
                  ins JPC 0 (Known 0) (Known 7);
                  ins SIO_READ 0 (Known 0) (Known 2);
                  ins STO 0 (Known 0) Indeterminate;
                  ins SIO_HALT 0 (Known 0) (Known 3)].
Proof.
  intros k. eexists.
  split; [vm_compute; reflexivity|]. split; reflexivity.
Qed.

End CodeGenProps.

(* ===================================================================== *)
(** * Properties of the virtual machine                                   *)
(* ===================================================================== *)

Module VMProps.
Import VM VMTerms.




Lemma opcodeName_inside (o : Z) : 0 <= o <= 24 -> is_Some (opcodeName o).
Proof.
  intros H. unfold opcodeName. destruct (Z.ltb_spec o 0); [lia|].
  apply lookup_lt_is_Some_2. change (length opcodes) with 25%nat. lia.
Qed.

(** ** C2: what stops the machine *)




End VMProps.

(* ===================================================================== *)
(** * Further properties of the lexer                                     *)
(* ===================================================================== *)

Module LexerMore.
Import Lexer LexerTerms LexerMoreTerms.

Lemma advance_0 (st : LexerState) : advance 0 st = st.
Proof. destruct st; unfold advance; simpl; f_equal; lia. Qed.

Lemma advance_plus (a b : nat) (st : LexerState) :
  advance a (advance b st) = advance (b + a) st.
Proof. unfold advance; simpl. f_equal. lia. Qed.

(** ** Comments *)

Lemma comment_loop_closed (body rest : string) :
  forall st,
    closes body = false ->
    comment_loop (body ++ String "*" (String "/" rest))%string st
    = Returns (advance (String.length body + 3) st).
Proof.
  induction body as [|c body IH]; intros st H.
  - simpl. rewrite advance_plus. reflexivity.
  - simpl in H. apply orb_false_iff in H as [Hc Hb].
    cbn [String.append comment_loop String.length].
    rewrite IH by assumption. rewrite !advance_plus.
    replace (1 + (String.length body + 3))%nat
      with (S (String.length body) + 3)%nat by lia.
    destruct (ch_is c "*") eqn:Hstar; [|reflexivity].
    destruct body as [|d body]; [reflexivity|].
    cbn [String.append first] in *. simpl in Hc. now rewrite Hc.
Qed.

(** A comment is skipped whole.  When the source at [charInd] holds a
    comment whose body does not itself contain the closing pair,
    [DFA_Special] returns the state it was given with [charInd] just past
    the closing pair: no token is added, no error is set, and [lineNum] is
    left as it was, also when the body contains newlines. *)
Theorem comment_is_skipped (st : LexerState) (body rest : string) :
  here st = (String "/" (String "*" body) ++ String "*" (String "/" rest))%string ->
  closes body = false ->
  DFA_Special st = Returns (advance (String.length body + 4) st).
Proof.
  intros Hhere Hb. unfold DFA_Special. rewrite Hhere.
  cbn [String.append first rest_of]. simpl ch_is. cbv beta iota.
  rewrite comment_loop_closed by assumption.
  rewrite advance_plus. do 2 f_equal. lia.
Qed.

Lemma comment_is_skipped_witness :
  DFA_Special (initLexerState "/* a
b */ x")
  = Returns (advance 9 (initLexerState "/* a
b */ x")).
Proof.
  apply (comment_is_skipped (initLexerState "/* a
b */ x") " a
b " " x"); reflexivity.
Defined.

(** ** A number that runs into a letter *)

Lemma digit_loop_hits_letter (M : Z) (w : string) (c : ascii) (rest : string) :
  forall (i : Z) (lex : string) (st : LexerState),
    all_digits w = true ->
    isalpha c = true ->
    i + Z.of_nat (String.length w) - 1 <= M ->
    digit_loop M (w ++ String c rest)%string i false lex st
    = (setError NONLETTER_VAR_INITIAL (advance (String.length w + 1) st), None).
Proof.
  induction w as [|d w IH]; intros i lex st Hw Hc Hlen.
  - cbn [String.append digit_loop String.length]. rewrite Hc. cbn [orb].
    destruct (i - 1 >? M) eqn:Hgt; [apply Z.gtb_lt in Hgt; simpl in Hlen; lia|].
    reflexivity.
  - simpl in Hw. apply andb_true_iff in Hw as [Hd Hw].
    cbn [String.length] in Hlen |- *.
    cbn [String.append digit_loop].
    rewrite Hd, (LexerProps.isdigit_not_isalpha d Hd). cbn [orb].
    destruct (i - 1 >? M) eqn:Hgt; [apply Z.gtb_lt in Hgt; lia|].
    rewrite IH by (auto; lia). rewrite advance_plus. reflexivity.
Qed.

(** Digits followed by a letter.  When the source at [charInd] holds a run
    of digits [w] (of any length that fits the buffer, also more than 5)
    and then a letter, [DFA_Digit] stops at the letter with
    [NONLETTER_VAR_INITIAL], having consumed the digits and the letter, and
    adds no token. *)
Theorem digits_then_letter (M : Z) (st : LexerState) (w : string) (c : ascii)
  (rest : string) :
  here st = (w ++ String c rest)%string ->
  all_digits w = true ->
  isalpha c = true ->
  Z.of_nat (String.length w) <= M ->
  DFA_Digit M st
  = Returns (setError NONLETTER_VAR_INITIAL (advance (String.length w + 1) st)).
Proof.
  intros Hhere Hw Hc Hlen. unfold DFA_Digit.
  rewrite Hhere, digit_loop_hits_letter by (auto; lia). reflexivity.
Qed.

Lemma digits_then_letter_witness :
  DFA_Digit 11 (initLexerState "1234567x;")
  = Returns (setError NONLETTER_VAR_INITIAL
               (advance 8 (initLexerState "1234567x;"))).
Proof.
  apply (digits_then_letter 11 (initLexerState "1234567x;") "1234567" "x" ";");
    [reflexivity|reflexivity|reflexivity|simpl; lia].
Defined.


(** ** An invalid character *)

Lemma skip_blanks_run (blanks : string) (c : ascii) (rest : string) :
  forall st,
    all_blank blanks = true ->
    ch_is c " " = false -> ch_is c "010" = false ->
    skip_blanks (blanks ++ String c rest)%string st
    = addLines (newlines blanks) (advance (String.length blanks) st).
Proof.
  induction blanks as [|b blanks IH]; intros st Hb Hsp Hnl.
  - cbn [String.append skip_blanks]. rewrite Hsp, Hnl. cbn [orb].
    rewrite advance_0. destruct st; unfold addLines; simpl. f_equal. lia.
  - simpl in Hb. apply andb_true_iff in Hb as [Hb1 Hb2].
    cbn [String.append skip_blanks]. rewrite Hb1.
    rewrite IH by assumption.
    cbn [newlines String.length].
    destruct (ch_is b "010"); unfold addLines, advance, newLine; simpl;
      f_equal; lia.
Qed.

Lemma here_nonempty_inside (st : LexerState) (c : ascii) (rest : string) :
  here st = String c rest -> inside st.
Proof.
  intros H. pose proof (LexerProps.here_length st) as L. rewrite H in L.
  simpl in L. unfold inside. lia.
Qed.

Lemma string_from_empty (k : nat) : string_from k "" = ""%string.
Proof. destruct k; reflexivity. Qed.

Lemma string_from_plus (n k : nat) :
  forall s, string_from (n + k) s = string_from k (string_from n s).
Proof.
  induction n as [|n IH]; intros s; [reflexivity|].
  destruct s as [|c s]; simpl; [now rewrite string_from_empty|apply IH].
Qed.

Lemma string_from_app (a b : string) :
  string_from (String.length a) (a ++ b) = b.
Proof. induction a as [|x a IH]; simpl; auto. Qed.

Lemma here_advance_from (k : nat) (st : LexerState) :
  here (advance k st) = string_from k (here st).
Proof. unfold here, advance; simpl. apply string_from_plus. Qed.

Lemma here_advance (st : LexerState) (a b : string) :
  here st = (a ++ b)%string -> here (advance (String.length a) st) = b.
Proof.
  intros H. rewrite here_advance_from, H. apply string_from_app.
Qed.

Lemma lex_loop_S (M : Z) (fuel : nat) (st : LexerState) :
  lex_loop M (S fuel) st
  = match peek st with
    | None => ReadsPastEnd
    | Some c =>
        if negb (ch_is c NUL) && LexErr_eqb (lexerError st) NONE then
          let st := skip_blanks (here st) st in
          let currentSymbol := first (here st) in
          if ch_is currentSymbol NUL then Returns st
          else
            match getSymbolType currentSymbol with
            | ALPHA =>
                match DFA_Alpha M st with
                | Returns st => lex_loop M fuel st
                | ReadsPastEnd => ReadsPastEnd
                | WritesPastLexeme => WritesPastLexeme
                | OutOfFuel => OutOfFuel
                end
            | DIGIT =>
                match DFA_Digit M st with
                | Returns st => lex_loop M fuel st
                | ReadsPastEnd => ReadsPastEnd
                | WritesPastLexeme => WritesPastLexeme
                | OutOfFuel => OutOfFuel
                end
            | SPECIAL =>
                match DFA_Special st with
                | Returns st => lex_loop M fuel st
                | ReadsPastEnd => ReadsPastEnd
                | WritesPastLexeme => WritesPastLexeme
                | OutOfFuel => OutOfFuel
                end
            | INVALID => lex_loop M fuel (setError INV_SYM st)
            end
        else Returns st
    end.
Proof. reflexivity. Qed.

(** The first invalid character stops the lexer.  When the lexer has no
    error yet and the source at [charInd] holds blanks and newlines and
    then a character [c] that is neither a letter, a digit, one of the
    thirteen special symbols, a blank, a newline nor the NUL (a tab, for
    one), the outer loop ends with [INV_SYM]; [charInd] is on the
    character, the tokens are those read so far, and [lineNum] has grown
    by the number of newlines skipped. *)
Theorem invalid_character_stops (M : Z) (fuel : nat) (st : LexerState)
  (blanks : string) (c : ascii) (rest : string) :
  lexerError st = NONE ->
  here st = (blanks ++ String c rest)%string ->
  all_blank blanks = true ->
  getSymbolType c = INVALID ->
  ch_is c NUL = false -> ch_is c " " = false -> ch_is c "010" = false ->
  lex_loop M (S (S fuel)) st
  = Returns (setError INV_SYM
               (addLines (newlines blanks) (advance (String.length blanks) st))).
Proof.
  intros He Hhere Hb Hty Hnul Hsp Hnl.
  assert (Hin : inside st).
  { destruct blanks; simpl in Hhere; eapply here_nonempty_inside; eauto. }
  assert (Hfirst : ch_is (first (here st)) NUL = false).
  { rewrite Hhere. destruct blanks as [|b blanks]; simpl; [assumption|].
    simpl in Hb. apply andb_true_iff in Hb as [Hb _].
    unfold ch_is in *. destruct (Ascii.eqb_spec b NUL) as [->|]; [|reflexivity].
    discriminate Hb. }
  set (st1 := addLines (newlines blanks) (advance (String.length blanks) st)).
  assert (Hsk : skip_blanks (here st) st = st1).
  { rewrite Hhere. now apply skip_blanks_run. }
  assert (H1 : here st1 = String c rest).
  { change (here st1) with (here (advance (String.length blanks) st)).
    now apply here_advance. }
  assert (Hin1 : inside (setError INV_SYM st1)).
  { change (inside st1). eapply here_nonempty_inside; eauto. }
  rewrite lex_loop_S. unfold peek.
  destruct (Nat.leb_spec (charInd st) (String.length (sourceCode st)));
    [|unfold inside in Hin; lia].
  rewrite Hfirst, He. cbn [negb andb LexErr_eqb]. cbv zeta.
  rewrite Hsk, H1. cbn [first]. rewrite Hnul, Hty.
  apply LexerProps.lex_loop_stops_on_error; [exact Hin1|discriminate].
Qed.

Lemma invalid_character_stops_witness :
  lex_loop 11 2 (initLexerState "

	x")
  = Returns (setError INV_SYM (addLines 2 (advance 2 (initLexerState "

	x")))).
Proof.
  apply (invalid_character_stops 11 0 (initLexerState "

	x") "

" "009" "x"); reflexivity.
Defined.


(** ** Sources without a comment *)

Lemma opens_string_from (k : nat) :
  forall s, opens s = false -> opens (string_from k s) = false.
Proof.
  induction k as [|k IH]; intros s H; [exact H|].
  destruct s as [|c s]; [reflexivity|].
  simpl in H. apply orb_false_iff in H as [_ H]. simpl. now apply IH.
Qed.

Lemma moved_here (lo hi : nat) (st st' : LexerState) :
  moved lo hi st st' ->
  here st' = string_from (charInd st' - charInd st) (here st).
Proof.
  intros (Hs & Hlo & _). unfold here. rewrite Hs, <- string_from_plus.
  f_equal. lia.
Qed.

Lemma moved_opens (lo hi : nat) (st st' : LexerState) :
  moved lo hi st st' -> opens (here st) = false -> opens (here st') = false.
Proof.
  intros Hm Ho. rewrite (moved_here _ _ _ _ Hm). now apply opens_string_from.
Qed.

Lemma DFA_Special_returns (st : LexerState) :
  opens (here st) = false -> exists st', DFA_Special st = Returns st'.
Proof.
  intros Ho. unfold DFA_Special.
  destruct (here st) as [|c0 r0]; [simpl; eauto|].
  simpl in Ho. apply orb_false_iff in Ho as [Ho _].
  cbn [first rest_of].
  destruct (ch_is c0 "/") eqn:H0.
  - cbn [andb] in Ho. rewrite Ho. eauto.
  - repeat match goal with
           | |- context [if ?b then _ else _] => destruct b
           end; eauto.
Qed.

Lemma DFA_Alpha_no_overread (M : Z) (st : LexerState) :
  DFA_Alpha M st <> ReadsPastEnd.
Proof.
  unfold DFA_Alpha.
  destruct (alpha_loop M (here st) 1 "" st) as [st' [[i lex]|]]; [|discriminate].
  destruct (i - 1 >? M); [discriminate|].
  destruct (i - 1 >? 11); [|destruct (negb _)]; discriminate.
Qed.

Lemma DFA_Digit_no_overread (M : Z) (st : LexerState) :
  DFA_Digit M st <> ReadsPastEnd.
Proof.
  unfold DFA_Digit.
  destruct (digit_loop M (here st) 1 false "" st) as [st' [[i lex]|]]; [|discriminate].
  destruct (i - 1 >? M); [discriminate|].
  destruct (i - 1 >? 5); discriminate.
Qed.

(** Reading past the end of the source can only happen inside a comment. *)
Lemma lex_loop_no_overread (M : Z) (fuel : nat) :
  forall st,
    inside st ->
    opens (here st) = false ->
    lex_loop M fuel st <> ReadsPastEnd.
Proof.
  induction fuel as [|fuel IH]; intros st Hin Ho; [discriminate|].
  rewrite lex_loop_S. unfold peek.
  destruct (Nat.leb_spec (charInd st) (String.length (sourceCode st)));
    [|unfold inside in Hin; lia].
  destruct (negb (ch_is (first (here st)) NUL) && LexErr_eqb (lexerError st) NONE);
    [|discriminate].
  cbv zeta.
  destruct (LexerProps.skip_blanks_moves (here st) st) as [Hmv Herr].
  destruct (LexerProps.moved_inside 0 st _ Hin Hmv) as [Hin1 Hlen1].
  pose proof (moved_opens _ _ _ _ Hmv Ho) as Ho1.
  set (st1 := skip_blanks (here st) st) in *.
  destruct (ch_is (first (here st1)) NUL) eqn:Hnul; [discriminate|].
  destruct (getSymbolType (first (here st1))) eqn:Hty.
  - apply LexerProps.getSymbolType_ALPHA in Hty.
    destruct (DFA_Alpha M st1) as [st2| | |] eqn:E; try discriminate.
    + pose proof (LexerProps.DFA_Alpha_moves M st1 st2 Hty E) as Hm.
      destruct (LexerProps.moved_inside 1 st1 _ Hin1 Hm).
      apply IH; [assumption|eapply moved_opens; eauto].
    + now apply DFA_Alpha_no_overread in E.
  - apply LexerProps.getSymbolType_DIGIT in Hty.
    destruct (DFA_Digit M st1) as [st2| | |] eqn:E; try discriminate.
    + pose proof (LexerProps.DFA_Digit_moves M st1 st2 Hty E) as Hm.
      destruct (LexerProps.moved_inside 1 st1 _ Hin1 Hm).
      apply IH; [assumption|eapply moved_opens; eauto].
    + now apply DFA_Digit_no_overread in E.
  - destruct (DFA_Special_returns st1 Ho1) as [st2 E]. rewrite E.
    pose proof (LexerProps.DFA_Special_moves st1 st2 Hnul E) as Hm.
    destruct (LexerProps.moved_inside 1 st1 _ Hin1 Hm).
    apply IH; [assumption|eapply moved_opens; eauto].
  - apply IH; [exact Hin1|exact Ho1].
Qed.

(** *** Runs of letters and digits that fit [lexeme] *)

Lemma runs_fit_alnum (M : Z) (w rest : string) :
  forall n,
    all_alnum w = true ->
    runs_fit M n (w ++ rest) = runs_fit M (n + String.length w) rest.
Proof.
  induction w as [|c w IH]; intros n Hw.
  - simpl. now rewrite Nat.add_0_r.
  - simpl in Hw. apply andb_true_iff in Hw as [Hc Hw].
    cbn [String.append runs_fit String.length]. rewrite Hc, IH by assumption.
    f_equal. lia.
Qed.

Lemma runs_fit_boundary (M : Z) (n : nat) (rest : string) :
  isalnum (first rest) = false ->
  runs_fit M n rest = true ->
  fits M n = true /\ runs_fit M 0 rest = true.
Proof.
  intros Hc H. destruct rest as [|c rest]; simpl in *.
  - split; [exact H|reflexivity].
  - rewrite Hc in *. apply andb_true_iff in H as [H1 H2].
    split; [exact H1|exact H2].
Qed.

Lemma runs_fit_skip (M : Z) (c : ascii) (rest : string) :
  isalnum c = false ->
  runs_fit M 0 (String c rest) = true -> runs_fit M 0 rest = true.
Proof. intros Hc H. simpl in H. now rewrite Hc in H. Qed.

Lemma here_step (st : LexerState) (c : ascii) (rest : string) :
  here st = String c rest -> here (advance 1 st) = rest.
Proof. intros H. apply (here_advance st (String c "") rest H). Qed.

Lemma alpha_loop_ends (M : Z) (rest : string) :
  forall i lex st st' i' lex',
    here st = rest ->
    alpha_loop M rest i lex st = (st', Some (i', lex')) ->
    exists w r,
      rest = (w ++ r)%string /\ all_alnum w = true /\
      Z.of_nat (String.length w) = i' - i /\
      isalnum (first r) = false /\
      here st' = r /\ lexerError st' = lexerError st /\
      (w <> ""%string -> i' - 2 <= M).
Proof.
  induction rest as [|c rest IH]; intros i lex st st' i' lex' Hh E; simpl in E.
  - injection E as <- <- <-. exists ""%string, ""%string.
    repeat split; simpl; auto; try lia; congruence.
  - destruct (isalpha c || isdigit c) eqn:Hc.
    + destruct (i - 1 >? M) eqn:Hgt; [discriminate|].
      assert (i - 1 <= M) by (destruct (Z.gtb_spec (i - 1) M); [discriminate|lia]).
      apply IH in E; [|now apply (here_step st c rest)].
      destruct E as (w & r & -> & Hw & Hl & Hr & Hh' & He & Hb).
      exists (String c w), r. simpl. unfold isalnum at 1. rewrite Hc, Hw.
      repeat split; auto; try lia.
      intros _. destruct w as [|d w]; [simpl in Hl; lia|apply Hb; discriminate].
    + injection E as <- <- <-. exists ""%string, (String c rest).
      simpl. unfold isalnum. rewrite Hc.
      repeat split; auto; try lia; congruence.
Qed.

Lemma alpha_loop_none (M : Z) (rest : string) :
  forall i lex st st',
    alpha_loop M rest i lex st = (st', None) -> lexerError st' = NAME_TOO_LONG.
Proof.
  induction rest as [|c rest IH]; intros i lex st st' E; simpl in E;
    [discriminate|].
  destruct (isalpha c || isdigit c); [|discriminate].
  destruct (i - 1 >? M); [now injection E as <-|].
  now apply IH in E.
Qed.

Lemma digit_loop_ends (M : Z) (rest : string) :
  forall i lex st st' i' lex',
    here st = rest ->
    digit_loop M rest i false lex st = (st', Some (i', lex')) ->
    exists w r,
      rest = (w ++ r)%string /\ all_alnum w = true /\
      Z.of_nat (String.length w) = i' - i /\
      isalnum (first r) = false /\
      here st' = r /\ lexerError st' = lexerError st /\
      (w <> ""%string -> i' - 2 <= M).
Proof.
  induction rest as [|c rest IH]; intros i lex st st' i' lex' Hh E; simpl in E.
  - injection E as <- <- <-. exists ""%string, ""%string.
    repeat split; simpl; auto; try lia; congruence.
  - destruct (isalpha c || isdigit c) eqn:Hc.
    + destruct (i - 1 >? M) eqn:Hgt; [discriminate|].
      assert (i - 1 <= M) by (destruct (Z.gtb_spec (i - 1) M); [discriminate|lia]).
      destruct (isalpha c) eqn:Ha; [discriminate|].
      apply IH in E; [|now apply (here_step st c rest)].
      destruct E as (w & r & -> & Hw & Hl & Hr & Hh' & He & Hb).
      exists (String c w), r. simpl. unfold isalnum at 1. rewrite Ha, Hc, Hw.
      repeat split; auto; try lia.
      intros _. destruct w as [|d w]; [simpl in Hl; lia|apply Hb; discriminate].
    + injection E as <- <- <-. exists ""%string, (String c rest).
      simpl. unfold isalnum. rewrite Hc.
      repeat split; auto; try lia; congruence.
Qed.

Lemma digit_loop_none (M : Z) (rest : string) :
  forall i y lex st st',
    digit_loop M rest i y lex st = (st', None) -> lexerError st' <> NONE.
Proof.
  induction rest as [|c rest IH]; intros i y lex st st' E; simpl in E;
    [discriminate|].
  destruct (isalpha c || isdigit c); [|discriminate].
  destruct (i - 1 >? M); [injection E as <-; discriminate|].
  destruct (if isalpha c then true else y); [injection E as <-; discriminate|].
  now apply IH in E.
Qed.

(** A run that starts at [charInd] and is not [MAX_LEXEME_LENGTH + 1]
    characters long leaves room for the terminator. *)
Lemma run_leaves_room (M : Z) (st : LexerState) (w r : string) (i : Z) :
  isalnum (first (here st)) = true ->
  runs_fit M 0 (here st) = true ->
  here st = (w ++ r)%string -> all_alnum w = true ->
  Z.of_nat (String.length w) = i - 1 ->
  isalnum (first r) = false ->
  (w <> ""%string -> i - 2 <= M) ->
  (i - 1 >? M) = false /\ runs_fit M 0 r = true.
Proof.
  intros Ha Hfit Hh Hw Hl Hr Hb.
  assert (Hn : w <> ""%string).
  { intros ->. simpl in Hh. rewrite Hh in Ha. congruence. }
  rewrite Hh, runs_fit_alnum in Hfit by assumption.
  apply runs_fit_boundary in Hfit as [Hf Hfit]; [|exact Hr].
  split; [|exact Hfit].
  unfold fits in Hf. apply orb_true_iff in Hf as [Hf|Hf].
  - apply Nat.eqb_eq in Hf. destruct w; [congruence|discriminate].
  - apply negb_true_iff, Z.eqb_neq in Hf. specialize (Hb Hn).
    destruct (Z.gtb_spec (i - 1) M); [lia|reflexivity].
Qed.

Lemma DFA_Alpha_fit (M : Z) (st : LexerState) :
  isalnum (first (here st)) = true ->
  runs_fit M 0 (here st) = true ->
  exists st2,
    DFA_Alpha M st = Returns st2 /\
    (lexerError st2 = NONE -> runs_fit M 0 (here st2) = true).
Proof.
  intros Ha Hfit. unfold DFA_Alpha.
  destruct (alpha_loop M (here st) 1 "" st) as [st' [[i lex]|]] eqn:E.
  - apply alpha_loop_ends in E; [|reflexivity].
    destruct E as (w & r & Hh & Hw & Hl & Hr & Hh' & He & Hb).
    destruct (run_leaves_room M st w r i Ha Hfit Hh Hw Hl Hr Hb) as [Hroom Hfit'].
    rewrite Hroom.
    destruct (i - 1 >? 11); [|destruct (negb _)];
      (eexists; split; [reflexivity|]); intros _;
      (change (runs_fit M 0 (here st') = true)); now rewrite Hh'.
  - apply alpha_loop_none in E. eexists. split; [reflexivity|]. congruence.
Qed.

Lemma DFA_Digit_fit (M : Z) (st : LexerState) :
  isalnum (first (here st)) = true ->
  runs_fit M 0 (here st) = true ->
  exists st2,
    DFA_Digit M st = Returns st2 /\
    (lexerError st2 = NONE -> runs_fit M 0 (here st2) = true).
Proof.
  intros Ha Hfit. unfold DFA_Digit.
  destruct (digit_loop M (here st) 1 false "" st) as [st' [[i lex]|]] eqn:E.
  - apply digit_loop_ends in E; [|reflexivity].
    destruct E as (w & r & Hh & Hw & Hl & Hr & Hh' & He & Hb).
    destruct (run_leaves_room M st w r i Ha Hfit Hh Hw Hl Hr Hb) as [Hroom Hfit'].
    rewrite Hroom.
    destruct (i - 1 >? 5);
      (eexists; split; [reflexivity|]); intros _;
      (change (runs_fit M 0 (here st') = true)); now rewrite Hh'.
  - apply digit_loop_none in E. eexists. split; [reflexivity|]. congruence.
Qed.

Lemma blank_not_alnum (c : ascii) :
  ch_is c " " || ch_is c "010" = true -> isalnum c = false.
Proof.
  unfold ch_is. intros H. apply orb_true_iff in H as [H|H];
    apply Ascii.eqb_eq in H; subst c; reflexivity.
Qed.

Lemma special_not_alnum (c : ascii) :
  getSymbolType c = SPECIAL -> isalnum c = false.
Proof.
  unfold getSymbolType, isalnum.
  destruct (isalpha c); [discriminate|]. now destruct (isdigit c).
Qed.

Lemma skip_blanks_fit (M : Z) (rest : string) :
  forall st,
    here st = rest ->
    runs_fit M 0 rest = true ->
    runs_fit M 0 (here (skip_blanks rest st)) = true.
Proof.
  induction rest as [|c rest IH]; intros st Hh Hfit.
  - simpl. now rewrite Hh.
  - cbn [skip_blanks].
    destruct (ch_is c " " || ch_is c "010") eqn:Hb; [|now rewrite Hh].
    apply IH.
    + destruct (ch_is c "010"); [|now apply (here_step st c rest)].
      change (here (advance 1 st) = rest). now apply (here_step st c rest).
    + eapply runs_fit_skip; [|exact Hfit]. now apply blank_not_alnum.
Qed.

Lemma DFA_Special_fit (M : Z) (st st2 : LexerState) :
  opens (here st) = false ->
  ch_is (first (here st)) NUL = false ->
  isalnum (first (here st)) = false ->
  runs_fit M 0 (here st) = true ->
  DFA_Special st = Returns st2 ->
  runs_fit M 0 (here st2) = true.
Proof.
  intros Ho Hnul Hc Hfit E.
  destruct (here st) as [|c0 r0] eqn:Hh; [discriminate Hnul|].
  cbn [first] in Hc.
  pose proof (runs_fit_skip M c0 r0 Hc Hfit) as Hfit0.
  pose proof (here_step st c0 r0 Hh) as H1.
  assert (H2 : forall d r1, r0 = String d r1 -> isalnum d = false ->
                 here (advance 1 (advance 1 st)) = r1 /\ runs_fit M 0 r1 = true).
  { intros d r1 -> Hd. split.
    - now apply (here_step (advance 1 st) d r1).
    - eapply runs_fit_skip; eauto. }
  assert (Hpair : forall d, ch_is (first r0) d = true -> isalnum d = false ->
                    ch_is d NUL = false ->
                    runs_fit M 0 (here (advance 1 (advance 1 st))) = true).
  { intros d Hd Hal Hn. unfold ch_is in Hd. apply Ascii.eqb_eq in Hd.
    destruct r0 as [|d' r1]; simpl in Hd.
    - subst d. discriminate Hn.
    - subst d'. destruct (H2 d r1 eq_refl Hal) as [-> ?]. assumption. }
  simpl in Ho. apply orb_false_iff in Ho as [Ho _].
  unfold DFA_Special in E. rewrite Hh in E. cbn [first rest_of] in E.
  destruct (ch_is c0 "/") eqn:H0.
  - cbn [andb] in Ho. rewrite Ho in E. injection E as <-.
    change (runs_fit M 0 (here (advance 1 st)) = true). now rewrite H1.
  - repeat match type of E with
           | (if ?b then _ else _) = _ => destruct b eqn:?
           end;
      injection E as <-;
      first [ change (runs_fit M 0 (here (advance 1 st)) = true); now rewrite H1
            | change (runs_fit M 0 (here (advance 1 (advance 1 st))) = true);
              eapply Hpair; [eassumption|reflexivity|reflexivity] ].
Qed.

Lemma lex_loop_returns (M : Z) (fuel : nat) :
  forall st,
    inside st ->
    opens (here st) = false ->
    (lexerError st = NONE -> runs_fit M 0 (here st) = true) ->
    (String.length (here st) < fuel)%nat ->
    exists st', lex_loop M fuel st = Returns st'.
Proof.
  induction fuel as [|fuel IH]; intros st Hin Ho Hfit Hlen; [lia|].
  rewrite lex_loop_S. unfold peek.
  destruct (Nat.leb_spec (charInd st) (String.length (sourceCode st)));
    [|unfold inside in Hin; lia].
  destruct (negb (ch_is (first (here st)) NUL)); [|simpl; eauto].
  destruct (lexerError st) eqn:He; try (simpl; eauto; fail).
  cbn [andb LexErr_eqb]. cbv zeta.
  specialize (Hfit eq_refl).
  destruct (LexerProps.skip_blanks_moves (here st) st) as [Hmv Herr].
  destruct (LexerProps.moved_inside 0 st _ Hin Hmv) as [Hin1 Hlen1].
  pose proof (moved_opens _ _ _ _ Hmv Ho) as Ho1.
  pose proof (skip_blanks_fit M (here st) st eq_refl Hfit) as Hfit1.
  set (st1 := skip_blanks (here st) st) in *.
  destruct (ch_is (first (here st1)) NUL) eqn:Hnul; [eauto|].
  destruct (getSymbolType (first (here st1))) eqn:Hty.
  - apply LexerProps.getSymbolType_ALPHA in Hty.
    destruct (DFA_Alpha_fit M st1 Hty Hfit1) as (st2 & E & Hfit2). rewrite E.
    pose proof (LexerProps.DFA_Alpha_moves M st1 st2 Hty E) as Hm.
    destruct (LexerProps.moved_inside 1 st1 _ Hin1 Hm).
    apply IH; [assumption|eapply moved_opens; eauto|assumption|lia].
  - apply LexerProps.getSymbolType_DIGIT in Hty.
    destruct (DFA_Digit_fit M st1 Hty Hfit1) as (st2 & E & Hfit2). rewrite E.
    pose proof (LexerProps.DFA_Digit_moves M st1 st2 Hty E) as Hm.
    destruct (LexerProps.moved_inside 1 st1 _ Hin1 Hm).
    apply IH; [assumption|eapply moved_opens; eauto|assumption|lia].
  - destruct (DFA_Special_returns st1 Ho1) as [st2 E]. rewrite E.
    pose proof (LexerProps.DFA_Special_moves st1 st2 Hnul E) as Hm.
    destruct (LexerProps.moved_inside 1 st1 _ Hin1 Hm).
    apply IH; [assumption|eapply moved_opens; eauto| |lia].
    intros _. eapply DFA_Special_fit; eauto. now apply special_not_alnum.
  - assert (Hpos : (1 <= String.length (here st1))%nat).
    { destruct (here st1); [discriminate Hnul|simpl; lia]. }
    destruct fuel as [|fuel]; [lia|].
    rewrite LexerProps.lex_loop_stops_on_error;
      [eauto|exact Hin1|simpl; discriminate].
Qed.

(** The lexer comes to an end on every input: the rounds [lexicalAnalyzer]
    is given are never used up.  On a source in which no slash is followed
    by a star it never reads past the end of the source.  On such a source
    it returns a result when, moreover, no maximal run of letters and
    digits of the source is exactly [MAX_LEXEME_LENGTH + 1] characters
    long; a run of that length fills [lexeme] and has its terminator
    written past it. *)
Theorem lexer_returns_without_comment (M : Z) (src : string) :
  lexicalAnalyzer M (Some src) <> OutOfFuel /\
  (opens src = false -> lexicalAnalyzer M (Some src) <> ReadsPastEnd) /\
  (opens src = false -> runs_fit M 0 src = true ->
   exists out, lexicalAnalyzer M (Some src) = Returns out).
Proof.
  split; [apply LexerProps.lexicalAnalyzer_budget|]. split.
  - intros Ho. unfold lexicalAnalyzer.
    pose proof (lex_loop_no_overread M (S (String.length src)) (initLexerState src))
      as H.
    destruct (lex_loop M (S (String.length src)) (initLexerState src))
      as [st| | |]; try discriminate.
    + destruct (negb _); discriminate.
    + exfalso. apply H; [unfold inside; simpl; lia|exact Ho|reflexivity].
  - intros Ho Hfit. unfold lexicalAnalyzer.
    destruct (lex_loop_returns M (S (String.length src)) (initLexerState src))
      as [st E].
    + unfold inside; simpl; lia.
    + exact Ho.
    + intros _. exact Hfit.
    + rewrite LexerProps.here_length. simpl. lia.
    + rewrite E. destruct (negb _); eauto.
Qed.

Lemma lexer_returns_without_comment_witness :
  lexicalAnalyzer 11 (Some "x := y / 2 * 3;") <> ReadsPastEnd /\
  exists out, lexicalAnalyzer 11 (Some "x := y / 2 * 3;") = Returns out.
Proof.
  pose proof (lexer_returns_without_comment 11 "x := y / 2 * 3;") as (_ & H1 & H2).
  split; [apply H1; reflexivity|apply H2; reflexivity].
Defined.

(** The length that is left out: the same source with a name of 12
    characters has no defined outcome. *)
Example lexer_overflows_on_twelve :
  opens "x := abcdefghijkl / 2;" = false /\
  runs_fit 11 0 "x := abcdefghijkl / 2;" = false /\
  lexicalAnalyzer 11 (Some "x := abcdefghijkl / 2;") = WritesPastLexeme.
Proof. repeat split. Qed.

(** ** The tokens the lexer makes *)

Lemma scanReserved_range (table : list (Z * string)) (w : string) :
  Forall (fun e => numbersym < fst e <= elsesym) table ->
  scanReserved table w = -1 \/ numbersym < scanReserved table w <= elsesym.
Proof.
  induction 1 as [|[i x] table Hi _ IH]; simpl; [now left|].
  destruct (String.eqb w x); [right; exact Hi|exact IH].
Qed.

Lemma checkReservedTokens_range (w : string) :
  checkReservedTokens w = -1 \/ numbersym < checkReservedTokens w <= elsesym.
Proof.
  apply scanReserved_range. unfold tokens.
  repeat constructor; vm_compute; intuition discriminate.
Qed.

Lemma all_alnum_app (a b : string) :
  all_alnum (a ++ b) = all_alnum a && all_alnum b.
Proof. induction a as [|c a IH]; simpl; [reflexivity|]. now rewrite IH, andb_assoc. Qed.

Lemma all_digits_app (a b : string) :
  all_digits (a ++ b) = all_digits a && all_digits b.
Proof. induction a as [|c a IH]; simpl; [reflexivity|]. now rewrite IH, andb_assoc. Qed.

Lemma length_append (a b : string) :
  String.length (a ++ b) = (String.length a + String.length b)%nat.
Proof. induction a as [|c a IH]; simpl; auto. Qed.

Lemma first_append (a b : string) :
  a <> ""%string -> first (a ++ b) = first a.
Proof. destruct a; [congruence|reflexivity]. Qed.

Ltac impossible :=
  first [ discriminate
        | let H := fresh in intros H; simpl in H; discriminate H ].

Lemma append_empty (a : string) : (a ++ "")%string = a.
Proof. induction a as [|c a IH]; simpl; congruence. Qed.

Lemma alpha_loop_lexeme (M : Z) (rest : string) :
  forall i lex st st' i' lex',
    alpha_loop M rest i lex st = (st', Some (i', lex')) ->
    tokenList st' = tokenList st /\
    exists w r, rest = (w ++ r)%string /\ lex' = (lex ++ w)%string /\
                all_alnum w = true /\
                Z.of_nat (String.length w) = i' - i /\
                (isalnum (first rest) = true -> w <> ""%string).
Proof.
  induction rest as [|c rest IH]; intros i lex st st' i' lex' E; simpl in E.
  - injection E as <- <- <-. split; [reflexivity|]. exists ""%string, ""%string.
    repeat split; simpl; try lia; try (symmetry; apply append_empty); impossible.
  - destruct (isalpha c || isdigit c) eqn:Hc.
    + destruct (i - 1 >? M); [discriminate|].
      apply IH in E. destruct E as (Ht & w & r & -> & -> & Hw & Hl & _).
      split; [exact Ht|]. exists (String c w), r.
      rewrite LexerProps.append_snoc. simpl.
      unfold isalnum. rewrite Hc, Hw. repeat split; auto; try lia; impossible.
    + injection E as <- <- <-. split; [reflexivity|].
      exists ""%string, (String c rest).
      simpl. unfold isalnum. rewrite Hc.
      repeat split; auto; try lia; try (symmetry; apply append_empty); impossible.
Qed.

Lemma alpha_loop_tokens (M : Z) (rest : string) :
  forall i lex st st' o,
    alpha_loop M rest i lex st = (st', o) -> tokenList st' = tokenList st.
Proof.
  induction rest as [|c rest IH]; intros i lex st st' o E; simpl in E.
  - now injection E as <- _.
  - destruct (isalpha c || isdigit c); [|now injection E as <- _].
    destruct (i - 1 >? M); [now injection E as <- _|].
    now apply IH in E.
Qed.

Lemma digit_loop_lexeme (M : Z) (rest : string) :
  forall i lex st st' i' lex',
    digit_loop M rest i false lex st = (st', Some (i', lex')) ->
    exists w r, rest = (w ++ r)%string /\ lex' = (lex ++ w)%string /\
                all_digits w = true /\
                Z.of_nat (String.length w) = i' - i /\
                (isalnum (first rest) = true -> w <> ""%string).
Proof.
  induction rest as [|c rest IH]; intros i lex st st' i' lex' E; simpl in E.
  - injection E as <- <- <-. exists ""%string, ""%string.
    repeat split; simpl; try lia; try (symmetry; apply append_empty); impossible.
  - destruct (isalpha c || isdigit c) eqn:Hc.
    + destruct (i - 1 >? M); [discriminate|].
      destruct (isalpha c) eqn:Ha; [discriminate|].
      cbn [orb] in Hc.
      apply IH in E. destruct E as (w & r & -> & -> & Hw & Hl & _).
      exists (String c w), r.
      rewrite LexerProps.append_snoc. simpl.
      rewrite Hc, Hw. repeat split; auto; try lia; impossible.
    + injection E as <- <- <-.
      exists ""%string, (String c rest).
      simpl. unfold isalnum. rewrite Hc.
      repeat split; auto; try lia; try (symmetry; apply append_empty); impossible.
Qed.

Lemma digit_loop_tokens (M : Z) (rest : string) :
  forall i y lex st st' o,
    digit_loop M rest i y lex st = (st', o) -> tokenList st' = tokenList st.
Proof.
  induction rest as [|c rest IH]; intros i y lex st st' o E; simpl in E.
  - now injection E as <- _.
  - destruct (isalpha c || isdigit c); [|now injection E as <- _].
    destruct (i - 1 >? M); [now injection E as <- _|].
    destruct (if isalpha c then true else y); [now injection E as <- _|].
    now apply IH in E.
Qed.

Lemma tokens_ok_same (st st' : LexerState) :
  tokenList st' = tokenList st -> tokens_ok st -> tokens_ok st'.
Proof. unfold tokens_ok. now intros ->. Qed.

Lemma tokens_ok_add (t : Token) (st : LexerState) :
  well_formed t -> tokens_ok st -> tokens_ok (addToken t st).
Proof.
  unfold tokens_ok. intros Ht H. simpl. apply Forall_app. split; [exact H|].
  constructor; [exact Ht|constructor].
Qed.

Lemma DFA_Alpha_tokens_ok (M : Z) (st st2 : LexerState) :
  isalpha (first (here st)) = true ->
  DFA_Alpha M st = Returns st2 ->
  tokens_ok st -> tokens_ok st2.
Proof.
  intros Ha E2 Hok. unfold DFA_Alpha in E2.
  destruct (alpha_loop M (here st) 1 "" st) as [st' [[i lex]|]] eqn:E.
  - destruct (i - 1 >? M); [discriminate|].
    apply alpha_loop_lexeme in E.
    destruct E as (Ht & w & r & Hr & Hlex & Hw & Hl & Hne).
    simpl in Hlex. subst lex.
    assert (Hn : w <> ""%string).
    { apply Hne. unfold isalnum. now rewrite Ha. }
    assert (Hf : first w = first (here st)).
    { rewrite Hr. symmetry. now apply first_append. }
    assert (Hpos : (1 <= String.length w)%nat).
    { destruct w; [congruence|simpl; lia]. }
    destruct (i - 1 >? 11) eqn:Hgt;
      [injection E2 as <-; eapply tokens_ok_same; [|exact Hok]; exact Ht|].
    assert (i - 1 <= 11) by (destruct (Z.gtb_spec (i - 1) 11); [discriminate|lia]).
    assert (Hok' : tokens_ok st') by (eapply tokens_ok_same; eauto).
    destruct (checkReservedTokens_range w) as [Hr1|Hr1].
    + rewrite Hr1 in E2. simpl negb in E2. cbv iota in E2. injection E2 as <-.
      apply tokens_ok_add; [|exact Hok'].
      unfold well_formed; simpl. rewrite Hf.
      repeat split; auto; try lia; unfold identsym, elsesym, numbersym;
        try lia; intros; discriminate.
    + destruct (Z.eqb_spec (checkReservedTokens w) (-1)) as [Heq|_];
        [unfold numbersym in Hr1; lia|].
      simpl negb in E2. cbv iota in E2. injection E2 as <-.
      apply tokens_ok_add; [|exact Hok'].
      unfold well_formed; simpl.
      unfold identsym, elsesym, numbersym in *.
      repeat split; auto; try lia; intros; lia.
  - injection E2 as <-. apply alpha_loop_tokens in E. eapply tokens_ok_same; eauto.
Qed.

Lemma DFA_Digit_tokens_ok (M : Z) (st st2 : LexerState) :
  isalnum (first (here st)) = true ->
  DFA_Digit M st = Returns st2 ->
  tokens_ok st -> tokens_ok st2.
Proof.
  intros Ha E2 Hok. unfold DFA_Digit in E2.
  destruct (digit_loop M (here st) 1 false "" st) as [st' [[i lex]|]] eqn:E.
  - destruct (i - 1 >? M); [discriminate|].
    pose proof (digit_loop_tokens _ _ _ _ _ _ _ _ E) as Ht.
    apply digit_loop_lexeme in E.
    destruct E as (w & r & Hr & Hlex & Hw & Hl & Hne).
    simpl in Hlex. subst lex.
    assert (Hpos : (1 <= String.length w)%nat).
    { specialize (Hne Ha). destruct w; [congruence|simpl; lia]. }
    destruct (i - 1 >? 5) eqn:Hgt;
      [injection E2 as <-; eapply tokens_ok_same; [|exact Hok]; exact Ht|].
    assert (i - 1 <= 5) by (destruct (Z.gtb_spec (i - 1) 5); [discriminate|lia]).
    injection E2 as <-.
    apply tokens_ok_add; [|eapply tokens_ok_same; eauto].
    unfold well_formed; simpl. unfold identsym, elsesym, numbersym.
    repeat split; auto; try lia; intros; lia.
  - injection E2 as <-. apply digit_loop_tokens in E. eapply tokens_ok_same; eauto.
Qed.

Lemma comment_loop_tokens (body : string) :
  forall st st', comment_loop body st = Returns st' -> tokenList st' = tokenList st.
Proof.
  induction body as [|c body IH]; intros st st' E; simpl in E; [discriminate|].
  destruct (ch_is c "*"); [destruct (ch_is (first body) "/")|];
    try (injection E as <-; reflexivity); now apply IH in E.
Qed.

Lemma DFA_Special_tokens_ok (st st' : LexerState) :
  DFA_Special st = Returns st' -> tokens_ok st -> tokens_ok st'.
Proof.
  intros E Hok. unfold DFA_Special in E.
  repeat match type of E with
         | (if ?b then _ else _) = _ => destruct b
         end;
    try (apply comment_loop_tokens in E; eapply tokens_ok_same; eauto; fail);
    injection E as <-;
    try (exact Hok);
    (apply (tokens_ok_add _ _); [|exact Hok]);
    unfold well_formed; repeat split; simpl;
    try lia;
    try (vm_compute; intuition discriminate);
    let H := fresh in intros H; vm_compute in H; discriminate H.
Qed.

Lemma skip_blanks_tokens (rest : string) :
  forall st, tokenList (skip_blanks rest st) = tokenList st.
Proof.
  induction rest as [|c rest IH]; intros st; simpl; [reflexivity|].
  destruct (ch_is c " " || ch_is c "010"); [|reflexivity].
  rewrite IH. now destruct (ch_is c "010").
Qed.

Lemma getSymbolType_is_ALPHA (c : ascii) : getSymbolType c = ALPHA -> isalpha c = true.
Proof.
  unfold getSymbolType. destruct (isalpha c); [reflexivity|].
  destruct (isdigit c); [discriminate|destruct (isSpecialSymbol c); discriminate].
Qed.

Lemma lex_loop_tokens_ok (M : Z) (fuel : nat) :
  forall st st',
    lex_loop M fuel st = Returns st' -> tokens_ok st -> tokens_ok st'.
Proof.
  induction fuel as [|fuel IH]; intros st st' E Hok; [discriminate|].
  rewrite lex_loop_S in E.
  destruct (peek st) as [c|]; [|discriminate].
  destruct (negb (ch_is c NUL) && LexErr_eqb (lexerError st) NONE);
    [|now injection E as <-].
  cbv zeta in E.
  assert (Hok1 : tokens_ok (skip_blanks (here st) st)).
  { eapply tokens_ok_same; [apply skip_blanks_tokens|exact Hok]. }
  set (st1 := skip_blanks (here st) st) in *.
  destruct (ch_is (first (here st1)) NUL); [now injection E as <-|].
  destruct (getSymbolType (first (here st1))) eqn:Hty.
  - destruct (DFA_Alpha M st1) as [st2| | |] eqn:E2; try discriminate.
    apply IH in E; [exact E|].
    eapply DFA_Alpha_tokens_ok; [|exact E2|exact Hok1].
    now apply getSymbolType_is_ALPHA.
  - destruct (DFA_Digit M st1) as [st2| | |] eqn:E2; try discriminate.
    apply IH in E; [exact E|].
    eapply DFA_Digit_tokens_ok; [|exact E2|exact Hok1].
    now apply LexerProps.getSymbolType_DIGIT.
  - destruct (DFA_Special st1) as [st2| | |] eqn:E2; try discriminate.
    apply IH in E; [exact E|]. eapply DFA_Special_tokens_ok; eauto.
  - apply IH in E; [exact E|exact Hok1].
Qed.

(** Every token of a list the lexer returns is well formed: its id is one
    of [identsym .. elsesym] (never [nulsym]) and its lexeme has 1 to 11
    characters; an identifier starts with a letter, consists of letters
    and digits and is not a reserved word; a number consists of at most 5
    digits.  This holds whatever error the lexer returns with. *)
Theorem lexer_tokens_well_formed (M : Z) (src : string) (out : LexerOut)
  (toks : list Token) :
  lexicalAnalyzer M (Some src) = Returns out ->
  out_tokenList out = Some toks ->
  Forall well_formed toks.
Proof.
  unfold lexicalAnalyzer. intros E Ht.
  destruct (lex_loop M (S (String.length src)) (initLexerState src))
    as [st| | |] eqn:El; try discriminate.
  apply lex_loop_tokens_ok in El; [|constructor].
  destruct (negb _); injection E as <-; simpl in Ht; injection Ht as <-;
    exact El.
Qed.

Lemma lexer_tokens_well_formed_witness :
  Forall well_formed
    [mkToken varsym "var"; mkToken identsym "x1"; mkToken semicolonsym ";";
     mkToken identsym "x1"; mkToken becomessym ":="; mkToken numbersym "12345"].
Proof.
  apply (lexer_tokens_well_formed 11 "var x1; x1 := 12345 123456"
           (mkLexerOut NUM_TOO_LONG 0
              (Some [mkToken varsym "var"; mkToken identsym "x1";
                     mkToken semicolonsym ";"; mkToken identsym "x1";
                     mkToken becomessym ":="; mkToken numbersym "12345"])));
    reflexivity.
Defined.

End LexerMore.

(* ===================================================================== *)
(** * Further properties of the code generator                            *)
(* ===================================================================== *)

Module CodeGenMore.
Import CodeGen CodeGenTerms CodeGenMoreTerms.
Local Open Scope cg_scope.

(** ** Invariants of the generator state *)

Section Invariant.

Variables P X N : CG -> Prop.

Lemma holds_ret {A} (a : A) : holds P X N (ret a).
Proof. intros s H. exact H. Qed.

Lemma holds_nofuel {A} : holds P X N (@nofuel A).
Proof. intros s H. exact I. Qed.

Lemma holds_bind {A B} (c : Gen A) (k : A -> Gen B) :
  holds P X N c -> (forall a, holds P X N (k a)) -> holds P X N (bind c k).
Proof.
  intros Hc Hk s H. unfold bind. specialize (Hc s H).
  destruct (c s); auto. now apply Hk.
Qed.

Lemma holds_orReturn (c k : Gen Z) :
  holds P X N c -> holds P X N k -> holds P X N (orReturn c k).
Proof.
  intros Hc Hk. unfold orReturn. apply holds_bind; [assumption|].
  intros err. destruct (negb (err =? 0)); [apply holds_ret|assumption].
Qed.

Lemma holds_if {A} (b : bool) (c d : Gen A) :
  holds P X N c -> holds P X N d -> holds P X N (if b then c else d).
Proof. destruct b; auto. Qed.

Lemma holds_get : holds P X N get.
Proof. intros s H. exact H. Qed.

Lemma holds_getCurrentToken : holds P X N getCurrentToken.
Proof. intros s H. exact H. Qed.

Lemma holds_getCurrentTokenType : holds P X N getCurrentTokenType.
Proof. intros s H. exact H. Qed.

Lemma holds_tokenIs (t : Z) : holds P X N (tokenIs t).
Proof. intros s H. exact H. Qed.

Hypothesis P_currentSymbol : holds P X N currentSymbol.
Hypothesis P_nextToken : holds P X N nextToken.
Hypothesis P_emit_plain :
  forall OP R L M, In OP plain_ops -> holds P X N (emit OP R L M).
Hypothesis P_emit_jump :
  forall OP R, OP = JMP \/ OP = JPC ->
               holds P X N (emit OP R (Known 0) (Known 0)).
Hypothesis P_patch_m : forall ref, holds P X N (patch_m ref).
Hypothesis P_setCurrentReg : forall f, holds P X N (setCurrentReg f).
Hypothesis P_setCurrentLevel : forall f, holds P X N (setCurrentLevel f).
Hypothesis P_setCurrentScope : forall p, holds P X N (setCurrentScope p).
Hypothesis P_addSymbol : forall sym, holds P X N (addSymbol sym).

Ltac step_all :=
  repeat lazymatch goal with
    | |- holds _ _ _ nofuel => apply holds_nofuel
    | |- holds _ _ _ (ret _) => apply holds_ret
    | |- holds _ _ _ (orReturn _ _) => apply holds_orReturn
    | |- holds _ _ _ (bind _ _) => apply holds_bind; [|intros ?]
    | |- holds _ _ _ (if _ then _ else _) => apply holds_if
    | |- holds _ _ _ get => apply holds_get
    | |- holds _ _ _ getCurrentToken => apply holds_getCurrentToken
    | |- holds _ _ _ getCurrentTokenType => apply holds_getCurrentTokenType
    | |- holds _ _ _ (tokenIs _) => apply holds_tokenIs
    | |- holds _ _ _ currentSymbol => apply P_currentSymbol
    | |- holds _ _ _ nextToken => apply P_nextToken
    | |- holds _ _ _ (patch_m _) => apply P_patch_m
    | |- holds _ _ _ (setCurrentReg _) => apply P_setCurrentReg
    | |- holds _ _ _ (setCurrentLevel _) => apply P_setCurrentLevel
    | |- holds _ _ _ (setCurrentScope _) => apply P_setCurrentScope
    | |- holds _ _ _ (addSymbol _) => apply P_addSymbol
    | |- holds _ _ _ (emit _ _ (Known 0) (Known 0)) =>
        first [ apply P_emit_jump; solve [auto]
              | apply P_emit_plain; solve [simpl; intuition] ]
    | |- holds _ _ _ (emit _ _ _ _) =>
        first [ apply P_emit_plain; solve [assumption | simpl; intuition]
              | match goal with H : _ |- _ => apply H end ]
    | |- holds _ _ _ _ =>
        match goal with
        | H : _ |- _ => apply H; solve [assumption | simpl; intuition]
        | H : _ |- _ => apply H
        end
    end.

Lemma holds_findLevel (x : Z) : holds P X N (findLevel x).
Proof. unfold findLevel. step_all. Qed.

Lemma holds_emitBinary (OP : Z) :
  In OP plain_ops -> holds P X N (emitBinary OP).
Proof. intros HOP. unfold emitBinary. step_all. Qed.

Lemma holds_emitForCurrentSymbol (OP : Z) :
  In OP plain_ops -> holds P X N (emitForCurrentSymbol OP).
Proof.
  intros HOP. pose proof holds_findLevel as Hf.
  unfold emitForCurrentSymbol. step_all.
Qed.

Lemma holds_const_item : holds P X N const_item.
Proof. unfold const_item. step_all. Qed.

Lemma holds_var_item : holds P X N var_item.
Proof. unfold var_item. step_all. Qed.

Lemma holds_const_declaration (n : nat) : holds P X N (const_declaration n).
Proof.
  pose proof holds_const_item as Hi.
  assert (Hl : forall k, holds P X N (const_loop k)).
  { induction k as [|k IH]; cbn [const_loop]; step_all. }
  unfold const_declaration. step_all.
Qed.

Lemma holds_var_declaration (n : nat) : holds P X N (var_declaration n).
Proof.
  pose proof holds_var_item as Hi.
  assert (Hl : forall k, holds P X N (var_loop k)).
  { induction k as [|k IH]; cbn [var_loop]; step_all. }
  unfold var_declaration. step_all.
Qed.

Lemma parsing_holds (n : nat) : all_hold P X N n.
Proof.
  induction n as [|n IH].
  - repeat split; intros; apply holds_nofuel.
  - destruct IH as (Hb & Hp & Hs & Hsl & Hc & He & Hel & Ht & Htl & Hf).
    pose proof (holds_const_declaration n) as Hcd.
    pose proof (holds_var_declaration n) as Hvd.
    pose proof holds_emitBinary as Heb.
    pose proof holds_emitForCurrentSymbol as Hes.
    repeat split; intros.
    + cbn [block]. step_all.
    + cbn [proc_declaration]. cbv zeta. step_all.
    + cbn [statement]. step_all.
    + cbn [statement_loop]. step_all.
    + cbn [condition]. cbv zeta. step_all.
    + cbn [expression]. step_all.
    + cbn [expression_loop]. cbv zeta. step_all.
    + cbn [term]. step_all.
    + cbn [term_loop]. cbv zeta. step_all.
    + cbn [factor]. step_all.
Qed.

(** [program] up to the final [emit]. *)
Lemma program_holds (n : nat) :
  holds P X N (emit SIO_HALT 0 (Known 0) (Known 3)) ->
  holds P X N (program n).
Proof.
  intros Hh. destruct (parsing_holds n) as (Hb & _).
  unfold program. step_all.
Qed.

End Invariant.


(** ** The code array *)

Lemma nextCodeIndex_emit (s : CG) (i : Instruction) :
  Z.of_nat (length (vmCode s ++ [i])) = nextCodeIndex s + 1.
Proof. unfold nextCodeIndex. rewrite length_app. simpl. lia. Qed.

Ltac prim :=
  let s := fresh "s" in
  let H := fresh "H" in
  intros s H;
  cbv [currentSymbol nextToken emit patch_m setCurrentReg setCurrentLevel
       setCurrentScope addSymbol];
  repeat match goal with
         | |- context [match findSymbol ?a ?b ?c with _ => _ end] =>
             destruct (findSymbol a b c) eqn:?
         | |- context [if ?b then _ else _] => destruct b eqn:?
         end.

Lemma code_fits_parsing (n : nat) :
  all_hold code_fits code_full code_fits n /\
  holds code_fits code_full code_fits (program n).
Proof.
  assert (He : forall OP R L M, holds code_fits code_full code_fits (emit OP R L M)).
  { intros; prim; unfold code_fits, code_full, nextCodeIndex in *; simpl.
    - lia.
    - rewrite length_app. simpl. lia. }
  assert (Hp : forall ref, holds code_fits code_full code_fits (patch_m ref)).
  { intros; prim. unfold code_fits, nextCodeIndex in *; simpl.
    now rewrite length_alter. }
  split; [apply parsing_holds|apply program_holds]; auto;
    try (intros; prim; exact H).
Qed.

(** The code array is never overrun.  However [codeGenerator] ends, at
    most [MAX_CODE_LENGTH] instructions have been emitted; and when it ends
    in the [exit(0)] of [emit], exactly [MAX_CODE_LENGTH] have. *)
Theorem code_array_not_overrun (n : nat) (tokenList : list Token) :
  match codeGenerator n tokenList with
  | Ret _ s | NullDeref s => code_fits s
  | Exits s => code_full s
  | NoFuel => True
  end.
Proof.
  destruct (code_fits_parsing n) as [_ Hp].
  specialize (Hp (initial tokenList)). unfold codeGenerator.
  destruct (program n (initial tokenList)); apply Hp;
    unfold code_fits, nextCodeIndex, MAX_CODE_LENGTH; simpl; lia.
Qed.


(** ** What [program] adds to [block] *)

Lemma program_inversion (n : nat) (s s' : CG) (err : Z) :
  program n s = Ret err s' ->
  (err <> 0 /\ (block n s = Ret err s' \/ block n s = Ret 0 s')) \/
  (err = 0 /\ exists s1, block n s = Ret 0 s1 /\
      vmCode s' = vmCode s1 ++ [ins SIO_HALT 0 (Known 0) (Known 3)]).
Proof.
  unfold program, orReturn, bind. intros E.
  destruct (block n s) as [e s1|s1|s1|]; try discriminate.
  destruct (Z.eqb_spec e 0) as [->|Hne]; simpl in E.
  - unfold tokenIs, getCurrentTokenType, getCurrentToken, bind, ret in E.
    destruct (id (getCurrentTokenFromIterator s1) =? periodsym).
    + unfold nextToken, emit in E. simpl in E.
      destruct (nextCodeIndex _ =? MAX_CODE_LENGTH); [discriminate|].
      injection E as <- <-. right. split; [reflexivity|].
      exists s1. split; reflexivity.
    + injection E as <- <-. left. split; [discriminate|]. now right.
  - unfold ret in E. injection E as <- <-. left. split; [exact Hne|]. now left.
Qed.

(** ** Jumps *)

Lemma jumps_forward_emit (OP R : Z) (L M : cint) :
  (OP <> JMP /\ OP <> JPC) \/ M = Known 0 ->
  holds jumps_forward jumps_forward jumps_forward (emit OP R L M).
Proof.
  intros Hok. prim; [exact H|].
  intros i x Hi Hj. unfold jumps_forward, nextCodeIndex in *. simpl in *.
  rewrite length_app. simpl.
  destruct (decide (i < length (vmCode s))%nat) as [Hlt|Hge].
  - rewrite lookup_app_l in Hi by exact Hlt.
    destruct (H i x Hi Hj) as (k & Hk & Hr). exists k. split; [exact Hk|]. lia.
  - rewrite lookup_app_r in Hi by lia.
    destruct (i - length (vmCode s))%nat; [|discriminate].
    injection Hi as <-. simpl in *.
    destruct Hok as [[H1 H2]| ->]; [tauto|]. exists 0. auto.
Qed.

Lemma jumps_forward_patch_m (ref : Z) :
  holds jumps_forward jumps_forward jumps_forward (patch_m ref).
Proof.
  prim. intros i x Hi Hj. unfold jumps_forward, nextCodeIndex in *. simpl in *.
  rewrite length_alter.
  destruct (decide (i = Z.to_nat ref)) as [->|Hne].
  - rewrite list_lookup_alter_eq in Hi.
    destruct (vmCode s !! Z.to_nat ref) as [y|] eqn:Ey; [|discriminate].
    injection Hi as <-. simpl. eexists. split; [reflexivity|].
    right. apply lookup_lt_Some in Ey. lia.
  - rewrite list_lookup_alter_ne in Hi by congruence. exact (H i x Hi Hj).
Qed.

Lemma jumps_forward_parsing (n : nat) :
  all_hold jumps_forward jumps_forward jumps_forward n.
Proof.
  apply parsing_holds;
    try (intros; prim; exact H);
    try apply jumps_forward_patch_m.
  - intros OP R L M HOP. apply jumps_forward_emit. left.
    simpl in HOP; unfold JMP, JPC; intuition (subst; discriminate).
  - intros OP R HOP. apply jumps_forward_emit. now right.
Qed.

(** *** Jumps that wait for their target *)

Lemma patched_code_app (p : Z -> Prop) (code : list Instruction)
  (OP R : Z) (L M : cint) :
  patched_code p code -> OP <> JMP -> OP <> JPC ->
  patched_code p (code ++ [mkInstruction OP R L M]).
Proof.
  intros H H1 H2 i x Hi Hj. rewrite length_app. simpl.
  destruct (decide (i < length code)%nat) as [Hlt|Hge].
  - rewrite lookup_app_l in Hi by exact Hlt.
    destruct (H i x Hi Hj) as [Hp|(k & Hk & Hr)]; [now left|].
    right. exists k. split; [exact Hk|]. lia.
  - rewrite lookup_app_r in Hi by lia.
    destruct (i - length code)%nat; [|discriminate].
    injection Hi as <-. simpl in Hj. tauto.
Qed.

Lemma patched_code_app_jump (p : Z -> Prop) (code : list Instruction)
  (x : Instruction) :
  patched_code p code ->
  patched_code (fun i => p i \/ i = Z.of_nat (length code)) (code ++ [x]).
Proof.
  intros H i y Hi Hj. rewrite length_app. simpl.
  destruct (decide (i < length code)%nat) as [Hlt|Hge].
  - rewrite lookup_app_l in Hi by exact Hlt.
    destruct (H i y Hi Hj) as [Hp|(k & Hk & Hr)]; [now left; left|].
    right. exists k. split; [exact Hk|]. lia.
  - rewrite lookup_app_r in Hi by lia.
    destruct (i - length code)%nat eqn:Hd; [|discriminate].
    left. right. apply lookup_lt_Some in Hi. lia.
Qed.

Lemma patched_code_alter (p : Z -> Prop) (code : list Instruction) (ref : Z) :
  patched_code (fun i => p i \/ i = ref) code ->
  patched_code p
    (alter (fun i => mkInstruction (op i) (r i) (l i)
                       (Known (Z.of_nat (length code))))
           (Z.to_nat ref) code).
Proof.
  intros H i x Hi Hj. rewrite length_alter.
  destruct (decide (i = Z.to_nat ref)) as [->|Hne].
  - rewrite list_lookup_alter_eq in Hi.
    destruct (code !! Z.to_nat ref) as [y|] eqn:Ey; [|discriminate].
    injection Hi as <-. simpl. right. eexists. split; [reflexivity|].
    apply lookup_lt_Some in Ey. lia.
  - rewrite list_lookup_alter_ne in Hi by congruence.
    destruct (H i x Hi Hj) as [[Hp|Hp]|Hk]; [now left|lia|now right].
Qed.

Lemma pending_emit_jump (p : Z -> Prop) (OP R : Z) (L M : cint) :
  pending_to p (fun a i => p i \/ i = a) (emit OP R L M).
Proof.
  intros s a s' H E. unfold emit in E.
  destruct (nextCodeIndex s =? MAX_CODE_LENGTH); [discriminate|].
  injection E as <- <-. apply patched_code_app_jump. exact H.
Qed.

Lemma pending_patch_m (p : Z -> Prop) (ref : Z) :
  pending_to (fun i => p i \/ i = ref) (fun _ => p) (patch_m ref).
Proof.
  intros s a s' H E. injection E as _ <-. apply patched_code_alter. exact H.
Qed.

Lemma pending0_ret (p : Z -> Prop) (e : Z) : pending_to0 p p (ret e).
Proof. intros s s' H E. injection E as _ <-. exact H. Qed.

Lemma pending0_error (p q : Z -> Prop) (e : Z) :
  e <> 0 -> pending_to0 p q (ret e).
Proof. intros He s s' H E. injection E as -> _. contradiction. Qed.

Lemma pending0_nofuel (p q : Z -> Prop) : pending_to0 p q nofuel.
Proof. intros s s' H E. discriminate. Qed.

Lemma pending0_bind (p : Z -> Prop) {A} (q : A -> Z -> Prop) (t : Z -> Prop)
  (c : Gen A) (k : A -> Gen Z) :
  pending_to p q c -> (forall a, pending_to0 (q a) t (k a)) ->
  pending_to0 p t (bind c k).
Proof.
  intros Hc Hk s s' H E. unfold bind in E.
  destruct (c s) as [a s1|s1|s1|] eqn:Ec; try discriminate.
  exact (Hk a s1 s' (Hc _ _ _ H Ec) E).
Qed.

Lemma pending0_orReturn (p q t : Z -> Prop) (c k : Gen Z) :
  pending_to0 p q c -> pending_to0 q t k -> pending_to0 p t (orReturn c k).
Proof.
  intros Hc Hk s s' H E. unfold orReturn, bind in E.
  destruct (c s) as [a s1|s1|s1|] eqn:Ec; try discriminate.
  destruct (Z.eqb_spec a 0) as [->|Hne]; simpl in E.
  - exact (Hk s1 s' (Hc _ _ H Ec) E).
  - injection E as -> _. contradiction.
Qed.

Lemma pending0_if (p q : Z -> Prop) (b : bool) (c d : Gen Z) :
  pending_to0 p q c -> pending_to0 p q d ->
  pending_to0 p q (if b then c else d).
Proof. destruct b; auto. Qed.

(** Everything but the [emit] of a jump and [patch_m] leaves the pending
    jumps as they are. *)
Ltac pending_prim :=
  let s := fresh "s" in
  let a := fresh "a" in
  let s' := fresh "s'" in
  let H := fresh "H" in
  let E := fresh "E" in
  intros s a s' H E;
  cbv [get getCurrentToken getCurrentTokenType tokenIs currentSymbol findLevel
       nextToken emit setCurrentReg setCurrentLevel setCurrentScope addSymbol
       emitBinary emitForCurrentSymbol bind ret] in E;
  repeat match type of E with
         | context [match findSymbol ?a ?b ?c with _ => _ end] =>
             destruct (findSymbol a b c)
         | context [if ?b then _ else _] => destruct b
         end;
  try discriminate; injection E as _ <-; cbv beta;
  first [ exact H
        | apply patched_code_app;
          [exact H
          |let D := fresh in intros D; vm_compute in D; discriminate D
          |let D := fresh in intros D; vm_compute in D; discriminate D] ].

Ltac pending_step :=
  repeat lazymatch goal with
    | |- pending_to0 _ _ nofuel => apply pending0_nofuel
    | |- pending_to0 _ _ (ret _) =>
        first [apply pending0_error; discriminate|apply pending0_ret]
    | |- pending_to0 _ _ (orReturn _ _) => eapply pending0_orReturn
    | |- pending_to0 _ _ (bind (emit JMP _ _ _) _) =>
        eapply pending0_bind; [apply pending_emit_jump|intros ?; cbv beta]
    | |- pending_to0 _ _ (bind (emit JPC _ _ _) _) =>
        eapply pending0_bind; [apply pending_emit_jump|intros ?; cbv beta]
    | |- pending_to0 _ _ (bind (patch_m _) _) =>
        eapply pending0_bind; [apply pending_patch_m|intros ?; cbv beta]
    | |- pending_to0 ?p _ (bind _ _) =>
        apply (pending0_bind p (fun _ => p)); [pending_prim|intros ?; cbv beta]
    | |- pending_to0 _ _ (if _ then _ else _) => apply pending0_if
    | |- pending_to0 _ _ _ =>
        match goal with H : _ |- _ => apply H end
    end.

Lemma pending_const_declaration (n : nat) (p : Z -> Prop) :
  pending_to0 p p (const_declaration n).
Proof.
  assert (Hi : pending_to0 p p const_item) by (unfold const_item; pending_step).
  assert (Hl : forall k, pending_to0 p p (const_loop k)).
  { induction k as [|k IH]; cbn [const_loop]; pending_step. }
  unfold const_declaration. pending_step.
Qed.

Lemma pending_var_declaration (n : nat) (p : Z -> Prop) :
  pending_to0 p p (var_declaration n).
Proof.
  assert (Hi : pending_to0 p p var_item) by (unfold var_item; pending_step).
  assert (Hl : forall k, pending_to0 p p (var_loop k)).
  { induction k as [|k IH]; cbn [var_loop]; pending_step. }
  unfold var_declaration. pending_step.
Qed.

(** When a parsing function returns 0, it has patched every jump it
    emitted, and each to an index after the jump. *)
Lemma patched_parsing (n : nat) : all_patched n.
Proof.
  induction n as [|n IH]; intros p.
  - repeat split; intros; apply pending0_nofuel.
  - pose proof (fun q => proj1 (IH q)) as Hb.
    pose proof (fun q => proj1 (proj2 (IH q))) as Hp.
    pose proof (fun q => proj1 (proj2 (proj2 (IH q)))) as Hs.
    destruct (IH p) as (_ & _ & _ & Hsl & Hc & He & Hel & Ht & Htl & Hf).
    pose proof (pending_const_declaration n p) as Hcd.
    pose proof (pending_var_declaration n p) as Hvd.
    repeat split; intros.
    + cbn [block]. pending_step.
    + cbn [proc_declaration]. cbv zeta. pending_step.
    + cbn [statement]. pending_step.
    + cbn [statement_loop]. pending_step.
    + cbn [condition]. cbv zeta. pending_step.
    + cbn [expression]. pending_step.
    + cbn [expression_loop]. cbv zeta. pending_step.
    + cbn [term]. pending_step.
    + cbn [term_loop]. cbv zeta. pending_step.
    + cbn [factor]. pending_step.
Qed.

(** The code never jumps backwards.  In the code [codeGenerator] returns
    with, every [JMP] and [JPC] has a target that is 0 (the value it is
    emitted with, which stays when an error return comes before its
    [patch_m]) or an index after the jump itself.  When code generation
    succeeded, every [JMP] and [JPC] has been patched: its target is an
    index of the code that lies after the jump itself.  (So no loop is
    ever generated: the code of a [while] has no jump back to its
    condition.) *)
Theorem jumps_only_forward (n : nat) (tokenList : list Token) (err : Z) (s : CG) :
  codeGenerator n tokenList = Ret err s ->
  jumps_forward s /\ (err = 0 -> jumps_inside s) /\ (err = 0 -> jumps_ahead s).
Proof.
  unfold codeGenerator. intros E.
  destruct (jumps_forward_parsing n) as (Hb & _).
  assert (H0 : jumps_forward (initial tokenList)).
  { intros i x Hi. simpl in Hi. discriminate. }
  pose proof (Hb _ H0) as Hb0.
  destruct (program_inversion _ _ _ _ E) as [(Hne & [Eb|Eb])|(-> & s1 & Eb & Hc)];
    rewrite Eb in Hb0.
  - split; [exact Hb0|split; congruence].
  - split; [exact Hb0|split; congruence].
  - assert (Hlen : nextCodeIndex s = nextCodeIndex s1 + 1).
    { unfold nextCodeIndex. rewrite Hc, length_app. simpl. lia. }
    assert (Hin : forall i x, vmCode s !! i = Some x ->
                    op x = JMP \/ op x = JPC ->
                    vmCode s1 !! i = Some x).
    { intros i x Hi Hj. rewrite Hc in Hi.
      destruct (decide (i < length (vmCode s1))%nat) as [Hlt|Hge].
      - now rewrite lookup_app_l in Hi.
      - rewrite lookup_app_r in Hi by lia.
        destruct (i - length (vmCode s1))%nat; [|discriminate].
        injection Hi as <-. simpl in Hj. unfold SIO_HALT, JMP, JPC in Hj.
        destruct Hj; discriminate. }
    assert (Hp : patched (fun _ => False) s1).
    { destruct (patched_parsing n (fun _ => False)) as (Hpb & _).
      apply (Hpb (initial tokenList) s1); [|exact Eb].
      intros i x Hi. simpl in Hi. discriminate. }
    split; [|split].
    + intros i x Hi Hj. destruct (Hb0 i x (Hin i x Hi Hj) Hj) as (k & Hk & Hr).
      exists k. split; [exact Hk|]. lia.
    + intros _ i x Hi Hj.
      destruct (Hb0 i x (Hin i x Hi Hj) Hj) as (k & Hk & Hr).
      exists k. split; [exact Hk|].
      pose proof (Nat2Z.is_nonneg i). unfold nextCodeIndex in *. lia.
    + intros _ i x Hi Hj.
      destruct (Hp i x (Hin i x Hi Hj) Hj) as [[]|(k & Hk & Hr)].
      exists k. split; [exact Hk|]. unfold nextCodeIndex in *. lia.
Qed.

(** The program [if 1 = 2 then .]: its one jump, the [JPC] at index 3, is
    patched to index 4, where the [SIO_HALT] is. *)
Lemma jumps_only_forward_witness :
  exists s, codeGenerator 6 relation_program = Ret 0 s /\
            jumps_forward s /\ jumps_inside s /\ jumps_ahead s /\
            vmCode s !! 3%nat = Some (mkInstruction JPC 1 (Known 0) (Known 4)) /\
            nextCodeIndex s = 5.
Proof.
  destruct (codeGenerator 6 relation_program) as [e s|s|s|] eqn:E;
    try (vm_compute in E; discriminate).
  assert (He : e = 0) by (vm_compute in E; congruence). subst e.
  exists s. split; [reflexivity|].
  destruct (jumps_only_forward 6 relation_program 0 s E) as (H1 & H2 & H3).
  split; [exact H1|]. split; [auto|]. split; [auto|].
  vm_compute in E. injection E as <-. split; reflexivity.
Defined.

(** The code of [var x; while 1 = 2 do read x.]: the [JPC] at index 4
    leaves the loop for index 7, and nothing after the body jumps back to
    the condition at index 1. *)
Example while_has_no_jump_back :
  exists s,
    codeGenerator 8
      [tok_var; ident "x"; tok_semicolon; mkToken whilesym "while";
       number "1"; tok_eq; number "2"; mkToken dosym "do"; tok_read;
       ident "x"; tok_period]
    = Ret 0 s /\
    map op (vmCode s) = [INC; LIT; EQL; LIT; JPC; SIO_READ; STO; SIO_HALT] /\
    m <$> vmCode s !! 4%nat = Some (Known 7).
Proof. eexists. split; [vm_compute; reflexivity|]. split; reflexivity. Qed.

(** ** The halt instruction *)

Lemma no_halt_emit (OP R : Z) (L M : cint) :
  OP <> SIO_HALT -> holds no_halt no_halt no_halt (emit OP R L M).
Proof.
  intros Hok. prim; [exact H|]. unfold no_halt in *. simpl.
  apply Forall_app. split; [exact H|]. now repeat constructor.
Qed.

Lemma no_halt_patch_m (ref : Z) : holds no_halt no_halt no_halt (patch_m ref).
Proof.
  prim. unfold no_halt in *. simpl.
  rewrite Forall_lookup in *. intros i x Hi.
  destruct (decide (i = Z.to_nat ref)) as [->|Hne].
  - rewrite list_lookup_alter_eq in Hi.
    destruct (vmCode s !! Z.to_nat ref) as [y|] eqn:Ey; [|discriminate].
    injection Hi as <-. simpl. exact (H _ _ Ey).
  - rewrite list_lookup_alter_ne in Hi by congruence. exact (H _ _ Hi).
Qed.

Lemma no_halt_parsing (n : nat) : all_hold no_halt no_halt no_halt n.
Proof.
  apply parsing_holds;
    try (intros; prim; exact H);
    try apply no_halt_patch_m.
  - intros OP R L M HOP. apply no_halt_emit.
    simpl in HOP; unfold SIO_HALT; intuition (subst; discriminate).
  - intros OP R HOP. apply no_halt_emit.
    unfold SIO_HALT; destruct HOP; subst; discriminate.
Qed.

(** The halt instruction is the last instruction of successful code and
    appears nowhere else.  When [codeGenerator] returns 0, the code is some
    instructions without any [SIO_HALT] followed by [SIO_HALT 0 0 3]; when
    it returns an error code, the code emitted so far holds no [SIO_HALT]
    at all. *)
Theorem halt_only_at_end (n : nat) (tokenList : list Token) (err : Z) (s : CG) :
  codeGenerator n tokenList = Ret err s ->
  if err =? 0
  then exists code, vmCode s = code ++ [ins SIO_HALT 0 (Known 0) (Known 3)] /\
                    Forall (fun i => op i <> SIO_HALT) code
  else no_halt s.
Proof.
  unfold codeGenerator. intros E.
  destruct (no_halt_parsing n) as (Hb & _).
  assert (H0 : no_halt (initial tokenList)) by constructor.
  pose proof (Hb _ H0) as Hb0.
  destruct (program_inversion _ _ _ _ E) as [(Hne & [Eb|Eb])|(-> & s1 & Eb & Hc)];
    rewrite Eb in Hb0.
  - destruct (Z.eqb_spec err 0); [contradiction|exact Hb0].
  - destruct (Z.eqb_spec err 0); [contradiction|exact Hb0].
  - simpl. exists (vmCode s1). split; [exact Hc|exact Hb0].
Qed.

Lemma halt_only_at_end_witness :
  exists s code,
    codeGenerator 6 relation_program = Ret 0 s /\
    vmCode s = code ++ [ins SIO_HALT 0 (Known 0) (Known 3)] /\
    Forall (fun i => op i <> SIO_HALT) code.
Proof.
  destruct (codeGenerator 6 relation_program) as [e s|s|s|] eqn:E;
    try (vm_compute in E; discriminate).
  assert (He : e = 0) by (vm_compute in E; congruence). subst e.
  destruct (halt_only_at_end 6 relation_program 0 s E) as (code & Hc & Hn).
  exists s, code. auto.
Defined.

(** ** Nothing is taken back *)

Lemma extends_refl (s : CG) : extends s s.
Proof.
  unfold extends. repeat split; auto.
  - exists []. now rewrite app_nil_r.
  - intros i x Hi. exists x. auto.
Qed.

Lemma extends_parsing (s0 : CG) (n : nat) :
  all_hold (extends s0) (extends s0) (extends s0) n /\
  holds (extends s0) (extends s0) (extends s0) (program n).
Proof.
  assert (He : forall OP R L M,
             holds (extends s0) (extends s0) (extends s0) (emit OP R L M)).
  { intros; prim; [exact H|].
    destruct H as (Ht & Hi & Hs & Hl & Hc). unfold extends; simpl.
    repeat split; auto.
    - rewrite length_app. lia.
    - intros i x Hx. destruct (Hc i x Hx) as (y & Hy & Hxy).
      exists y. split; [|exact Hxy].
      rewrite lookup_app_l; [exact Hy|]. now apply lookup_lt_Some in Hy. }
  assert (Hp : forall ref,
             holds (extends s0) (extends s0) (extends s0) (patch_m ref)).
  { intros; prim.
    destruct H as (Ht & Hi & Hs & Hl & Hc). unfold extends; simpl.
    repeat split; auto.
    - now rewrite length_alter.
    - intros i x Hx. destruct (Hc i x Hx) as (y & Hy & Hxy).
      destruct (decide (i = Z.to_nat ref)) as [->|Hne].
      + rewrite list_lookup_alter_eq, Hy. simpl. eexists. split; [reflexivity|].
        exact Hxy.
      + rewrite list_lookup_alter_ne by congruence. eauto. }
  assert (Ha : forall sym,
             holds (extends s0) (extends s0) (extends s0) (addSymbol sym)).
  { intros; prim.
    destruct H as (Ht & Hi & (added & Hs) & Hl & Hc). unfold extends; simpl.
    repeat split; auto.
    exists (added ++ [sym]). now rewrite Hs, app_assoc. }
  assert (Hn : holds (extends s0) (extends s0) (extends s0) nextToken).
  { prim. destruct H as (Ht & Hi & Hs & Hl & Hc). unfold extends; simpl.
    repeat split; auto. }
  split; [apply parsing_holds|apply program_holds]; auto;
    try (intros; prim; exact H).
Qed.

(** Nothing is taken back.  From whatever state it is called, whichever
    way it ends, each of [program], [block], [statement], [condition] and
    [expression] leaves the token list as it was, the cursor no further
    back, the symbols that were in the table in place with new ones only
    appended, and every instruction that was in the code in place with the
    [op], [r] and [l] it had (only an [m] is ever rewritten), new ones only
    appended. *)
Theorem parsing_only_appends (n : nat) (s s' : CG) :
  In (Some s') [final (program n s); final (block n s); final (statement n s);
                final (condition n s); final (expression n s)] ->
  extends s s'.
Proof.
  destruct (extends_parsing s n) as ((Hb & _ & Hs & _ & Hc & He & _) & Hp).
  pose proof (extends_refl s) as H0.
  specialize (Hp s H0). specialize (Hb s H0). specialize (Hs s H0).
  specialize (Hc s H0). specialize (He s H0).
  simpl. intros [H|[H|[H|[H|[H|[]]]]]].
  - destruct (program n s); simpl in H; simplify_eq; assumption.
  - destruct (block n s); simpl in H; simplify_eq; assumption.
  - destruct (statement n s); simpl in H; simplify_eq; assumption.
  - destruct (condition n s); simpl in H; simplify_eq; assumption.
  - destruct (expression n s); simpl in H; simplify_eq; assumption.
Qed.

Lemma parsing_only_appends_witness : extends read_before read_after.
Proof.
  apply (parsing_only_appends 3 read_before read_after).
  right. right. left. vm_compute. reflexivity.
Defined.

(** ** Error codes *)

Section Values.

Variable V : Z -> Prop.

Lemma yields_ret (a : Z) : V a -> yields V (ret a).
Proof. intros Ha s b s' E. injection E as <- _. exact Ha. Qed.

Lemma yields_nofuel : yields V nofuel.
Proof. intros s a s' E. discriminate. Qed.

Lemma yields_bind {A} (c : Gen A) (k : A -> Gen Z) :
  (forall a, yields V (k a)) -> yields V (bind c k).
Proof.
  intros Hk s b s' E. unfold bind in E.
  destruct (c s) as [a s1|s1|s1|]; try discriminate. exact (Hk a s1 b s' E).
Qed.

Lemma yields_orReturn (c k : Gen Z) :
  yields V c -> yields V k -> yields V (orReturn c k).
Proof.
  intros Hc Hk s b s' E. unfold orReturn, bind in E.
  destruct (c s) as [a s1|s1|s1|] eqn:Ec; try discriminate.
  destruct (negb (a =? 0)).
  - injection E as <- <-. exact (Hc _ _ _ Ec).
  - exact (Hk _ _ _ E).
Qed.

Lemma yields_if (b : bool) (c d : Gen Z) :
  yields V c -> yields V d -> yields V (if b then c else d).
Proof. destruct b; auto. Qed.

End Values.

Ltac values :=
  repeat lazymatch goal with
    | |- yields _ nofuel => apply yields_nofuel
    | |- yields _ (ret _) => apply yields_ret; simpl; tauto
    | |- yields _ (orReturn _ _) => apply yields_orReturn
    | |- yields _ (bind _ _) => apply yields_bind; intros ?
    | |- yields _ (if _ then _ else _) => apply yields_if
    | |- yields _ _ => match goal with H : _ |- _ => apply H end
    end.

Lemma error_codes_parsing (n : nat) : all_yield (fun e => In e error_codes) n.
Proof.
  induction n as [|n IH].
  - repeat split; intros; apply yields_nofuel.
  - destruct IH as (Hb & Hp & Hs & Hsl & Hc & He & Hel & Ht & Htl & Hf).
    assert (Hci : yields (fun e => In e error_codes) const_item)
      by (unfold const_item; values).
    assert (Hvi : yields (fun e => In e error_codes) var_item)
      by (unfold var_item; values).
    assert (Hcl : forall k, yields (fun e => In e error_codes) (const_loop k)).
    { induction k as [|k IHk]; cbn [const_loop]; values. }
    assert (Hvl : forall k, yields (fun e => In e error_codes) (var_loop k)).
    { induction k as [|k IHk]; cbn [var_loop]; values. }
    assert (Hcd : yields (fun e => In e error_codes) (const_declaration n))
      by (unfold const_declaration; values).
    assert (Hvd : yields (fun e => In e error_codes) (var_declaration n))
      by (unfold var_declaration; values).
    repeat split; intros.
    + cbn [block]. values.
    + cbn [proc_declaration]. cbv zeta. values.
    + cbn [statement]. values.
    + cbn [statement_loop]. values.
    + cbn [condition]. cbv zeta. values.
    + cbn [expression]. values.
    + cbn [expression_loop]. cbv zeta. values.
    + cbn [term]. values.
    + cbn [term_loop]. cbv zeta. values.
    + cbn [factor]. values.
Qed.

(** The error codes.  Whatever [codeGenerator] returns is one of 0 to 14
    or 16; it never returns 15 or 17. *)
Theorem codeGenerator_error_codes (n : nat) (tokenList : list Token) (err : Z)
  (s : CG) :
  codeGenerator n tokenList = Ret err s ->
  In err error_codes /\ err <> 15 /\ err <> 17.
Proof.
  intros E.
  assert (H : In err error_codes).
  { destruct (error_codes_parsing n) as (Hb & _).
    assert (Hp : yields (fun e => In e error_codes) (program n))
      by (unfold program; values).
    exact (Hp _ _ _ E). }
  split; [exact H|].
  simpl in H. intuition (subst; discriminate).
Qed.

Lemma codeGenerator_error_codes_witness :
  In 7 error_codes /\ 7 <> 15 /\ 7 <> 17.
Proof.
  destruct (codeGenerator 5 call_var_program) as [e s|s|s|] eqn:E;
    try (vm_compute in E; discriminate).
  assert (He : e = 7) by (vm_compute in E; congruence). subst e.
  exact (codeGenerator_error_codes 5 call_var_program 7 s E).
Defined.


(** ** The nesting level *)

Lemma wrapu32_range (z : Z) : 0 <= wrapu32 z < 2 ^ 32.
Proof. unfold wrapu32. apply Z.mod_pos_bound. lia. Qed.

Lemma wrapu32_back (lv : Z) :
  0 <= lv < 2 ^ 32 -> wrapu32 (wrapu32 (lv + 1) - 1) = lv.
Proof.
  intros H. unfold wrapu32.
  destruct (Z.eq_dec lv (2 ^ 32 - 1)) as [->|Hne]; [reflexivity|].
  rewrite (Z.mod_small (lv + 1)) by lia.
  rewrite Z.mod_small by lia. lia.
Qed.

Lemma level0_ret (lv : Z) (e : Z) : level_to0 lv lv (ret e).
Proof. intros s s' Hl E. injection E as _ <-. exact Hl. Qed.

Lemma level0_nofuel (lv lv' : Z) : level_to0 lv lv' nofuel.
Proof. intros s s' Hl E. discriminate. Qed.

Lemma level0_bind (lv lv1 lv' : Z) {A} (c : Gen A) (k : A -> Gen Z) :
  level_to lv lv1 c -> (forall a, level_to0 lv1 lv' (k a)) ->
  level_to0 lv lv' (bind c k).
Proof.
  intros Hc Hk s s' Hl E. unfold bind in E.
  destruct (c s) as [a s1|s1|s1|] eqn:Ec; try discriminate.
  exact (Hk a s1 s' (Hc _ _ _ Hl Ec) E).
Qed.

Lemma level0_orReturn (lv lv' : Z) (c k : Gen Z) :
  level_to0 lv lv c -> level_to0 lv lv' k -> level_to0 lv lv' (orReturn c k).
Proof.
  intros Hc Hk s s' Hl E. unfold orReturn, bind in E.
  destruct (c s) as [a s1|s1|s1|] eqn:Ec; try discriminate.
  destruct (Z.eqb_spec a 0) as [->|Hne]; simpl in E.
  - exact (Hk s1 s' (Hc _ _ Hl Ec) E).
  - injection E as -> _. contradiction.
Qed.

Lemma level0_if (lv lv' : Z) (b : bool) (c d : Gen Z) :
  level_to0 lv lv' c -> level_to0 lv lv' d ->
  level_to0 lv lv' (if b then c else d).
Proof. destruct b; auto. Qed.

Lemma level_setCurrentLevel (lv : Z) (f : Z -> Z) :
  level_to lv (f lv) (setCurrentLevel f).
Proof. intros s a s' Hl E. injection E as _ <-. simpl. now rewrite Hl. Qed.

(** Everything but [setCurrentLevel] leaves the level alone. *)
Ltac level_prim :=
  let s := fresh "s" in
  let a := fresh "a" in
  let s' := fresh "s'" in
  let Hl := fresh "Hl" in
  let E := fresh "E" in
  intros s a s' Hl E;
  cbv [get getCurrentToken getCurrentTokenType tokenIs currentSymbol findLevel
       nextToken emit patch_m setCurrentReg setCurrentScope addSymbol
       emitBinary emitForCurrentSymbol bind ret] in E;
  repeat match type of E with
         | context [match findSymbol ?a ?b ?c with _ => _ end] =>
             destruct (findSymbol a b c)
         | context [if ?b then _ else _] => destruct b
         end;
  try discriminate; injection E as _ <-; exact Hl.

Ltac level_step :=
  repeat lazymatch goal with
    | |- level_to0 _ _ nofuel => apply level0_nofuel
    | |- level_to0 _ _ (ret _) => apply level0_ret
    | |- level_to0 _ _ (orReturn _ _) => apply level0_orReturn
    | |- level_to0 _ _ (bind (setCurrentLevel _) _) =>
        eapply level0_bind; [apply level_setCurrentLevel|intros ?; cbv beta]
    | |- level_to0 _ _ (bind _ _) =>
        eapply level0_bind; [level_prim|intros ?]
    | |- level_to0 _ _ (if _ then _ else _) => apply level0_if
    | |- level_to0 _ _ _ =>
        match goal with H : _ |- _ => apply H end
    end.

Lemma level_const_declaration (n : nat) (lv : Z) :
  level_to0 lv lv (const_declaration n).
Proof.
  assert (Hi : level_to0 lv lv const_item) by (unfold const_item; level_step).
  assert (Hl : forall k, level_to0 lv lv (const_loop k)).
  { induction k as [|k IH]; cbn [const_loop]; level_step. }
  unfold const_declaration. level_step.
Qed.

Lemma level_var_declaration (n : nat) (lv : Z) :
  level_to0 lv lv (var_declaration n).
Proof.
  assert (Hi : level_to0 lv lv var_item) by (unfold var_item; level_step).
  assert (Hl : forall k, level_to0 lv lv (var_loop k)).
  { induction k as [|k IH]; cbn [var_loop]; level_step. }
  unfold var_declaration. level_step.
Qed.

Lemma level_parsing (n : nat) : all_level n.
Proof.
  induction n as [|n IH]; intros lv Hlv.
  - repeat split; intros; apply level0_nofuel.
  - pose proof (IH (wrapu32 (lv + 1)) (wrapu32_range _)) as (Hb' & _).
    destruct (IH lv Hlv) as (Hb & Hp & Hs & Hsl & Hc & He & Hel & Ht & Htl & Hf).
    pose proof (level_const_declaration n lv) as Hcd.
    pose proof (level_var_declaration n lv) as Hvd.
    repeat split; intros.
    + cbn [block]. level_step.
    + cbn [proc_declaration]. cbv zeta.
      level_step; rewrite (wrapu32_back lv Hlv); level_step.
    + cbn [statement]. level_step.
    + cbn [statement_loop]. level_step.
    + cbn [condition]. cbv zeta. level_step.
    + cbn [expression]. level_step.
    + cbn [expression_loop]. cbv zeta. level_step.
    + cbn [term]. level_step.
    + cbn [term_loop]. cbv zeta. level_step.
    + cbn [factor]. level_step.
Qed.

(** The nesting level is restored.  When [program], [block], [statement],
    [condition] or [expression] returns 0, [currentLevel] is what it was at
    the call, however many procedures were declared in between. *)
Theorem currentLevel_restored (n : nat) (s s' : CG) :
  0 <= currentLevel s < 2 ^ 32 ->
  In (Ret 0 s') [program n s; block n s; statement n s; condition n s;
                 expression n s] ->
  currentLevel s' = currentLevel s.
Proof.
  intros Hlv.
  destruct (level_parsing n _ Hlv) as (Hb & _ & Hs & _ & Hc & He & _).
  assert (Hp : level_to0 (currentLevel s) (currentLevel s) (program n)).
  { unfold program. level_step. }
  simpl. intros [H|[H|[H|[H|[H|[]]]]]].
  - exact (Hp s s' eq_refl H).
  - exact (Hb s s' eq_refl H).
  - exact (Hs s s' eq_refl H).
  - exact (Hc s s' eq_refl H).
  - exact (He s s' eq_refl H).
Qed.


Lemma currentLevel_restored_witness :
  exists s', program 5 (initial call_program) = Ret 0 s' /\ currentLevel s' = 0.
Proof.
  destruct (program 5 (initial call_program)) as [e s'|s'|s'|] eqn:E;
    try (vm_compute in E; discriminate).
  assert (He : e = 0) by (vm_compute in E; congruence). subst e.
  exists s'. split; [reflexivity|].
  apply (currentLevel_restored 5 (initial call_program) s');
    [simpl; lia|left; exact E].
Defined.

(** The [exit(0)] of [emit] is reached: 500 variable declarations fill the
    code array, and the generator ends there without returning. *)
Lemma code_limit_is_reached :
  exists s, codeGenerator 503 (many_variables 500) = Exits s.
Proof. eexists. vm_compute. reflexivity. Qed.


(** ** The code generator terminates *)
















End CodeGenMore.

(* ===================================================================== *)
(** * Further properties of the virtual machine                           *)
(* ===================================================================== *)

Module VMMore.
Import VM VMTerms.

Lemma wrap32_id (z : Z) : - 2 ^ 31 <= z < 2 ^ 31 -> wrap32 z = z.
Proof.
  intros H. unfold wrap32.
  rewrite Z.mod_small by lia. lia.
Qed.

Lemma load_Some (a : list Z) (i v : Z) :
  load a i = Some v -> 0 <= i < Z.of_nat (length a).
Proof.
  unfold load. destruct (Z.ltb_spec i 0); [discriminate|].
  intros Hl. apply lookup_lt_Some in Hl. lia.
Qed.

Lemma store_Some (a a' : list Z) (i v : Z) :
  store a i v = Some a' ->
  0 <= i < Z.of_nat (length a) /\ a' = <[Z.to_nat i := v]> a.
Proof.
  unfold store.
  destruct (Z.leb_spec 0 i); destruct (Z.ltb_spec i (Z.of_nat (length a)));
    simpl; intros Hs; try discriminate.
  injection Hs as <-. split; [lia|reflexivity].
Qed.

Lemma store_length (a a' : list Z) (i v : Z) :
  store a i v = Some a' -> length a' = length a.
Proof. intros H. apply store_Some in H as [_ ->]. apply length_insert. Qed.

Lemma load_store_same (a a' : list Z) (i v : Z) :
  store a i v = Some a' -> load a' i = Some v.
Proof.
  intros H. apply store_Some in H as [Hi ->]. unfold load.
  destruct (Z.ltb_spec i 0); [lia|].
  apply list_lookup_insert_eq. lia.
Qed.

Lemma load_store_other (a a' : list Z) (i j v : Z) :
  store a i v = Some a' -> i <> j -> load a' j = load a j.
Proof.
  intros H Hne. apply store_Some in H as [Hi ->]. unfold load.
  destruct (Z.ltb_spec j 0); [reflexivity|].
  apply list_lookup_insert_ne. lia.
Qed.

Lemma store_defined (a : list Z) (i v : Z) :
  0 <= i < Z.of_nat (length a) -> store a i v = Some (<[Z.to_nat i := v]> a).
Proof.
  intros H. unfold store.
  destruct (Z.leb_spec 0 i); destruct (Z.ltb_spec i (Z.of_nat (length a)));
    simpl; try lia; reflexivity.
Qed.

(** ** Walking the static links *)

Lemma basePointer_plus (stack : list Z) (n k : nat) :
  forall b,
    basePointer stack (n + k) b
    = basePointer stack n b ≫= basePointer stack k.
Proof.
  induction n as [|n IH]; intros b; simpl; [reflexivity|].
  destruct (load stack (b + 1)) as [b'|]; simpl; [apply IH|reflexivity].
Qed.

Lemma getBasePointer_here (stack : list Z) (bp L : Z) :
  L <= 0 -> getBasePointer stack bp L = Some bp.
Proof. unfold getBasePointer. intros H. destruct L; try lia; reflexivity. Qed.

(** [getBasePointer] walks the static links, which lie one cell above the
    base of each activation record.  For a level that is not positive it
    is the current base pointer, whatever the stack holds; for level 1 it
    is the content of [stack[bp + 1]]; one level more reads [stack[b + 1]]
    at the base [b] reached so far; and walking [L1 + L2] levels is
    walking [L1] levels and then [L2] more from where that arrived.
    When the link cell of the base reached at level [L1] lies outside the
    stack, level [L1 + 1] is not defined. *)
Theorem getBasePointer_levels (stack : list Z) (bp L1 L2 : Z) :
  (L1 <= 0 -> getBasePointer stack bp L1 = Some bp) /\
  getBasePointer stack bp 1 = load stack (bp + 1) /\
  (0 <= L1 ->
   getBasePointer stack bp (L1 + 1)
   = getBasePointer stack bp L1 ≫= fun b => load stack (b + 1)) /\
  (0 <= L1 -> 0 <= L2 ->
   getBasePointer stack bp (L1 + L2)
   = getBasePointer stack bp L1 ≫= fun b => getBasePointer stack b L2) /\
  (0 <= L1 ->
   forall b, getBasePointer stack bp L1 = Some b ->
             b + 1 < 0 \/ Z.of_nat (length stack) <= b + 1 ->
             getBasePointer stack bp (L1 + 1) = None).
Proof.
  assert (H1 : forall b, getBasePointer stack b 1 = load stack (b + 1)).
  { intros b. unfold getBasePointer. simpl.
    now destruct (load stack (b + 1)). }
  assert (Hplus : forall A B, 0 <= A -> 0 <= B ->
            getBasePointer stack bp (A + B)
            = getBasePointer stack bp A ≫= fun b => getBasePointer stack b B).
  { intros A B HA HB. unfold getBasePointer.
    rewrite Z2Nat.inj_add by assumption. apply basePointer_plus. }
  split; [apply getBasePointer_here|]. split; [apply H1|].
  split; [|split].
  - intros H. rewrite Hplus by lia.
    destruct (getBasePointer stack bp L1) as [b|]; simpl; [apply H1|reflexivity].
  - apply Hplus.
  - intros H b Hb Hout. rewrite Hplus, Hb by lia. simpl. rewrite H1.
    unfold load. destruct (Z.ltb_spec (b + 1) 0); [reflexivity|].
    apply lookup_ge_None_2. lia.
Qed.

(** On a stack whose record at base 4 has the static link 3 (in cell 5)
    and whose cell 4 holds 0: level 1 from base 4 is 3, level 2 is the
    content of cell 4, and from base 5 the link cell 6 is outside the
    stack. *)
Lemma getBasePointer_levels_witness :
  getBasePointer [0; 0; 1; 0; 0; 3] 4 (-1) = Some 4 /\
  getBasePointer [0; 0; 1; 0; 0; 3] 4 1 = Some 3 /\
  getBasePointer [0; 0; 1; 0; 0; 3] 4 (1 + 1) = Some 0 /\
  getBasePointer [0; 0; 1; 0; 0; 3] 5 (0 + 1) = None.
Proof.
  pose proof (getBasePointer_levels [0; 0; 1; 0; 0; 3] 4 (-1) 0) as (H0 & _).
  pose proof (getBasePointer_levels [0; 0; 1; 0; 0; 3] 4 1 1) as (_ & H1 & H2 & _).
  pose proof (getBasePointer_levels [0; 0; 1; 0; 0; 3] 5 0 0) as (_ & _ & _ & _ & H3).
  split; [apply H0; lia|].
  split; [rewrite H1; reflexivity|].
  split; [rewrite H2 by lia; rewrite H1; reflexivity|].
  apply (H3 ltac:(lia) 5); [reflexivity|simpl; lia].
Defined.

(** ** Call and return *)

Lemma setStack_Some (vm vm' : VirtualMachine) (i v : Z) :
  setStack vm i v = Some vm' ->
  store (stack vm) i v = Some (stack vm') /\
  BP vm' = BP vm /\ SP vm' = SP vm /\ PC vm' = PC vm /\ RF vm' = RF vm /\
  IR vm' = IR vm.
Proof.
  unfold setStack. intros H.
  apply bind_Some in H as (st & Hst & H). injection H as <-. simpl. repeat split; auto.
Qed.

Lemma setRF_Some (vm vm' : VirtualMachine) (i v : Z) :
  setRF vm i v = Some vm' ->
  store (RF vm) i v = Some (RF vm') /\
  BP vm' = BP vm /\ SP vm' = SP vm /\ PC vm' = PC vm /\ stack vm' = stack vm /\
  IR vm' = IR vm.
Proof.
  unfold setRF. intros H.
  apply bind_Some in H as (st & Hst & H). injection H as <-. simpl. repeat split; auto.
Qed.

(** [CAL] followed by [RTN].  Whenever a [CAL] executes, an [RTN]
    executed in the machine it leaves (before anything else changes BP or
    the four header cells) executes too, and gives back the BP, SP and PC
    the machine had when the [CAL] was executed, with the registers
    untouched in between. *)
Theorem call_then_return (vm vm1 : VirtualMachine) (cal rtn : Instruction)
  (io io1 : Streams) (status : Z) :
  op cal = CAL -> op rtn = RTN ->
  SP vm + 1 < 2 ^ 31 ->
  executeInstruction vm cal io = Some (status, vm1, io1) ->
  status = CONT /\ io1 = io /\ PC vm1 = m cal /\ BP vm1 = SP vm + 1 /\
  exists vm2,
    executeInstruction vm1 rtn io1 = Some (CONT, vm2, io1) /\
    BP vm2 = BP vm /\ SP vm2 = SP vm /\ PC vm2 = PC vm /\ RF vm2 = RF vm.
Proof.
  intros Hcal Hrtn Hsp E. unfold executeInstruction in E. rewrite Hcal in E.
  cbv [CAL] in E. cbv beta iota in E.
  apply bind_Some in E as (vmc & E & Er). injection Er as <- <- <-.
  apply bind_Some in E as (v1 & E1 & E).
  apply bind_Some in E as (b & Eb & E).
  apply bind_Some in E as (v2 & E2 & E).
  apply bind_Some in E as (v3 & E3 & E).
  apply bind_Some in E as (v4 & E4 & E). injection E as <-.
  apply setStack_Some in E1 as (S1 & B1 & P1 & C1 & R1 & _).
  apply setStack_Some in E2 as (S2 & B2 & P2 & C2 & R2 & _).
  apply setStack_Some in E3 as (S3 & B3 & P3 & C3 & R3 & _).
  apply setStack_Some in E4 as (S4 & B4 & P4 & C4 & R4 & _).
  pose proof (store_Some _ _ _ _ S1) as [I1 _].
  assert (Hw : wrap32 (SP vm + 1) = SP vm + 1) by (apply wrap32_id; lia).
  assert (Hsp4 : SP v4 = SP vm) by congruence.
  repeat split; simpl; try congruence.
  unfold executeInstruction. rewrite Hrtn. cbv [RTN]. cbv beta iota.
  simpl. rewrite Hsp4, Hw.
  replace (SP vm + 1 - 1) with (SP vm) by lia.
  rewrite (wrap32_id (SP vm)) by lia.
  assert (A2 : SP v2 = SP vm) by congruence.
  assert (A3 : SP v3 = SP vm) by congruence.
  assert (A4 : BP v2 = BP vm) by congruence.
  assert (A5 : PC v3 = PC vm) by congruence.
  rewrite A2, A4 in S3. rewrite A3, A5 in S4.
  assert (L3 : load (stack v4) (SP vm + 3) = Some (BP vm)).
  { rewrite (load_store_other _ _ _ _ _ S4) by lia.
    exact (load_store_same _ _ _ _ S3). }
  assert (L4 : load (stack v4) (SP vm + 4) = Some (PC vm))
    by exact (load_store_same _ _ _ _ S4).
  rewrite L3. simpl. rewrite L4. simpl.
  eexists. split; [reflexivity|]. simpl. repeat split; congruence.
Qed.

Lemma call_then_return_witness :
  exists vm1 vm2,
    executeInstruction initVM (mkInstruction 5 0 0 7) no_streams
    = Some (CONT, vm1, no_streams) /\
    executeInstruction vm1 (mkInstruction 2 0 0 0) no_streams
    = Some (CONT, vm2, no_streams) /\
    BP vm2 = 1 /\ SP vm2 = 0 /\ PC vm2 = 0.
Proof.
  destruct (executeInstruction initVM (mkInstruction 5 0 0 7) no_streams)
    as [[[st v1] i1]|] eqn:E; [|vm_compute in E; discriminate].
  destruct (call_then_return initVM v1 (mkInstruction 5 0 0 7)
              (mkInstruction 2 0 0 0) no_streams i1 st
              eq_refl eq_refl ltac:(simpl; lia) E)
    as (-> & -> & _ & _ & vm2 & E2 & HB & HS & HP & _).
  exists v1, vm2. auto.
Defined.

(** ** What an instruction can touch *)

Ltac crunch :=
  repeat match goal with
         | H : (match ?x with _ => _ end) = Some _ |- _ =>
             destruct x eqn:?; try discriminate
         | H : (_ ≫= _) = Some _ |- _ =>
             let v := fresh "v" in
             let Ev := fresh "Ev" in
             apply bind_Some in H; destruct H as (v & Ev & H)
         | H : setRF _ _ _ = Some _ |- _ =>
             apply setRF_Some in H; destruct H as (? & ? & ? & ? & ? & ?)
         | H : setStack _ _ _ = Some _ |- _ =>
             apply setStack_Some in H; destruct H as (? & ? & ? & ? & ? & ?)
         | H : arith _ _ _ = Some _ |- _ => unfold arith in H
         | H : Some _ = Some _ |- _ => injection H as ?; subst
         | H : store _ _ _ = Some _ |- _ => apply store_length in H
         end.

Lemma executeInstruction_footprint (vm vm' : VirtualMachine) (ins : Instruction)
  (io io' : Streams) (status : Z) :
  executeInstruction vm ins io = Some (status, vm', io') ->
  (op ins <> STO -> op ins <> CAL -> stack vm' = stack vm) /\
  (op ins <> RTN -> op ins <> CAL -> BP vm' = BP vm) /\
  (op ins <> RTN -> op ins <> CAL -> op ins <> INC -> SP vm' = SP vm) /\
  (op ins <> SIO_WRITE -> vmOut io' = vmOut io) /\
  (exists printed, vmOut io' = vmOut io ++ printed) /\
  (op ins <> SIO_READ -> vmIn io' = vmIn io) /\
  (In (op ins) [RTN; STO; CAL; INC; JMP; JPC; SIO_WRITE; SIO_HALT] ->
   RF vm' = RF vm) /\
  length (RF vm') = length (RF vm) /\
  length (stack vm') = length (stack vm).
Proof.
  unfold executeInstruction.
  cbv [STO CAL RTN INC JMP JPC SIO_WRITE SIO_READ SIO_HALT In].
  destruct (op ins) as [|o|o]; intros E;
    [ | do 5 (try (destruct o as [o|o|])) | ];
    crunch; simplify_eq;
    repeat match goal with |- _ /\ _ => split end;
    intros; simpl in *;
    try congruence; try lia;
    try (exists []; rewrite app_nil_r; reflexivity);
    try (eexists; reflexivity);
    try (match goal with |- context [if ?b then _ else _] => destruct b end;
         simpl; congruence);
    try (exfalso; intuition congruence).
Qed.


(** The footprint of an instruction.  Only [STO] and [CAL] write the stack;
    only [RTN] and [CAL] change BP; only they and [INC] change SP; only
    [SIO_WRITE] prints and it only appends; only [SIO_READ] consumes
    input; the instructions without a destination register ([RTN], [STO],
    [CAL], [INC], [JMP], [JPC], [SIO_WRITE], [SIO_HALT]) leave the register
    file as it was; and no instruction changes the size of the register
    file or of the stack. *)
Theorem instruction_footprint (vm vm' : VirtualMachine) (ins : Instruction)
  (io io' : Streams) (status : Z) :
  executeInstruction vm ins io = Some (status, vm', io') ->
  (op ins <> STO -> op ins <> CAL -> stack vm' = stack vm) /\
  (op ins <> RTN -> op ins <> CAL -> BP vm' = BP vm) /\
  (op ins <> RTN -> op ins <> CAL -> op ins <> INC -> SP vm' = SP vm) /\
  (op ins <> SIO_WRITE -> vmOut io' = vmOut io) /\
  (exists printed, vmOut io' = vmOut io ++ printed) /\
  (op ins <> SIO_READ -> vmIn io' = vmIn io) /\
  (In (op ins) [RTN; STO; CAL; INC; JMP; JPC; SIO_WRITE; SIO_HALT] ->
   RF vm' = RF vm) /\
  length (RF vm') = length (RF vm) /\
  length (stack vm') = length (stack vm).
Proof. apply executeInstruction_footprint. Qed.

Lemma instruction_footprint_witness :
  exists status vm' io',
    executeInstruction initVM (mkInstruction 6 0 0 4) no_streams
    = Some (status, vm', io') /\
    stack vm' = stack initVM /\ BP vm' = BP initVM /\ RF vm' = RF initVM /\
    vmOut io' = [].
Proof.
  destruct (executeInstruction initVM (mkInstruction 6 0 0 4) no_streams)
    as [[[st v1] i1]|] eqn:E; [|vm_compute in E; discriminate].
  exists st, v1, i1. split; [reflexivity|].
  destruct (instruction_footprint initVM v1 (mkInstruction 6 0 0 4) no_streams
              i1 st E) as (Hs & Hb & _ & Ho & _ & _ & Hr & _).
  split; [apply Hs; discriminate|].
  split; [apply Hb; discriminate|].
  split; [apply Hr; simpl; tauto|].
  apply Ho; discriminate.
Defined.

(** ** Store and load *)

(** [STO] followed by [LOD] of the same local cell (level 0 or less, same
    offset), where the register the [LOD] names is one of the register
    file ([0 <= r < 16] on a machine made by [initVM]).  Whenever the [STO]
    executes, the [LOD] executes too and puts into its register the value
    the [STO] took from its own.  (A [LOD] that names a register outside
    the file writes outside [RF]; it is not covered.) *)
Theorem store_then_load (vm vm1 : VirtualMachine) (sto lod : Instruction)
  (io io1 : Streams) (status : Z) :
  op sto = STO -> op lod = LOD ->
  l sto <= 0 -> l lod <= 0 -> m lod = m sto ->
  0 <= r lod < Z.of_nat (length (RF vm)) ->
  executeInstruction vm sto io = Some (status, vm1, io1) ->
  exists v vm2,
    load (RF vm) (r sto) = Some v /\
    executeInstruction vm1 lod io1 = Some (CONT, vm2, io1) /\
    load (RF vm2) (r lod) = Some v.
Proof.
  intros Hsto Hlod Hl1 Hl2 Hm Hr E.
  unfold executeInstruction in E. rewrite Hsto in E. cbv [STO] in E.
  cbv beta iota in E.
  rewrite (getBasePointer_here _ _ _ Hl1) in E. simpl in E.
  apply bind_Some in E as (vmx & E & Er). injection Er as <- <- <-.
  apply bind_Some in E as (v & Ev & E).
  apply setStack_Some in E as (S1 & B1 & P1 & C1 & R1 & _).
  exists v. unfold executeInstruction. rewrite Hlod. cbv [LOD]. cbv beta iota.
  rewrite (getBasePointer_here _ _ _ Hl2). simpl.
  rewrite Hm, B1, (load_store_same _ _ _ _ S1). simpl.
  unfold setRF. rewrite R1, (store_defined (RF vm) (r lod) v Hr). simpl.
  eexists. repeat split; [assumption|]. simpl.
  apply (load_store_same (RF vm)). now apply store_defined.
Qed.

Lemma store_then_load_witness :
  exists vm1 vm2,
    executeInstruction initVM (mkInstruction 4 0 0 4) no_streams
    = Some (CONT, vm1, no_streams) /\
    executeInstruction vm1 (mkInstruction 3 5 0 4) no_streams
    = Some (CONT, vm2, no_streams) /\
    load (RF vm2) 5 = load (RF initVM) 0.
Proof.
  destruct (executeInstruction initVM (mkInstruction 4 0 0 4) no_streams)
    as [[[st v1] i1]|] eqn:E; [|vm_compute in E; discriminate].
  destruct (store_then_load initVM v1 (mkInstruction 4 0 0 4)
              (mkInstruction 3 5 0 4) no_streams i1 st
              eq_refl eq_refl ltac:(simpl; lia) ltac:(simpl; lia) eq_refl
              ltac:(simpl; lia) E)
    as (v & vm2 & Hv & E2 & Hl).
  assert (st = CONT /\ i1 = no_streams) as [-> ->]
    by (vm_compute in E; injection E as <- _ <-; split; reflexivity).
  exists v1, vm2.
  split; [reflexivity|]. split; [exact E2|].
  exact (eq_trans Hl (eq_sym Hv)).
Defined.

(** ** Comparisons *)

(** The six comparison instructions ([EQL] to [GEQ]), whenever they
    execute, leave 0 or 1 in their destination register. *)
Theorem comparison_is_boolean (vm vm' : VirtualMachine) (ins : Instruction)
  (io io' : Streams) (status : Z) :
  EQL <= op ins <= GEQ ->
  executeInstruction vm ins io = Some (status, vm', io') ->
  load (RF vm') (r ins) = Some 0 \/ load (RF vm') (r ins) = Some 1.
Proof.
  unfold executeInstruction. cbv [EQL GEQ].
  destruct (op ins) as [|o|o]; intros Hop E; try lia.
  do 5 (try (destruct o as [o|o|])); try lia;
    apply bind_Some in E as (vmx & E & Er); injection Er as <- <- <-;
    unfold arith in E;
    apply bind_Some in E as (x & Ex & E);
    apply bind_Some in E as (y & Ey & E);
    apply bind_Some in E as (v & Ev & E);
    injection Ev as <-;
    apply setRF_Some in E as (S1 & _);
    rewrite (load_store_same _ _ _ _ S1);
    match goal with |- context [b2z ?b] => destruct b end; auto.
Qed.

Lemma comparison_is_boolean_witness :
  exists status vm' io',
    executeInstruction initVM (mkInstruction 19 2 0 1) no_streams
    = Some (status, vm', io') /\
    (load (RF vm') 2 = Some 0 \/ load (RF vm') 2 = Some 1).
Proof.
  destruct (executeInstruction initVM (mkInstruction 19 2 0 1) no_streams)
    as [[[st v1] i1]|] eqn:E; [|vm_compute in E; discriminate].
  exists st, v1, i1. split; [reflexivity|].
  apply (comparison_is_boolean initVM v1 (mkInstruction 19 2 0 1) no_streams
           i1 st); [unfold EQL, GEQ; simpl; lia|exact E].
Defined.

(** ** A literal reaches the output *)

(** The program [LIT r 0 k; SIO_WRITE r 0 1; SIO_HALT 0 0 3], for any
    register [r] of the file and any [k], run on the initial machine with
    three rounds or more, halts having printed exactly [k], with the input
    untouched and nothing on [stderr]. *)
Theorem literal_is_printed (r k : Z) (input : list Z) (fuel : nat) :
  0 <= r < 16 ->
  exists vm,
    simulateVM (3 + fuel)
      [mkInstruction LIT r 0 k; mkInstruction SIO_WRITE r 0 1;
       mkInstruction SIO_HALT 0 0 3] input
    = Halted vm (mkStreams input [k] []).
Proof.
  intros Hr.
  assert (Hc : r = 0 \/ r = 1 \/ r = 2 \/ r = 3 \/ r = 4 \/ r = 5 \/ r = 6 \/
               r = 7 \/ r = 8 \/ r = 9 \/ r = 10 \/ r = 11 \/ r = 12 \/
               r = 13 \/ r = 14 \/ r = 15) by lia.
  repeat destruct Hc as [->|Hc]; try subst r;
    eexists; vm_compute; reflexivity.
Qed.

Lemma literal_is_printed_witness :
  exists vm,
    simulateVM 3
      [mkInstruction LIT 0 0 42; mkInstruction SIO_WRITE 0 0 1;
       mkInstruction SIO_HALT 0 0 3] []
    = Halted vm (mkStreams [] [42] []).
Proof. apply (literal_is_printed 0 42 [] 0). lia. Defined.


(** ** A whole run *)

Lemma executeInstruction_streams (vm vm' : VirtualMachine) (ins : Instruction)
  (io io' : Streams) (status : Z) :
  executeInstruction vm ins io = Some (status, vm', io') ->
  (vmIn io = vmIn io' \/ exists v, vmIn io = v :: vmIn io') /\
  (status = CONT -> stderr io' = stderr io) /\
  (stderr io' = stderr io \/
   stderr io' = stderr io ++ ["Illegal instruction?"%string]).
Proof.
  unfold executeInstruction.
  destruct (op ins) as [|o|o]; intros E;
    [ | do 5 (try (destruct o as [o|o|])) | ];
    crunch; simplify_eq;
    repeat match goal with |- _ /\ _ => split end;
    intros; simpl in *;
    try reflexivity;
    try (left; reflexivity);
    try (left; congruence);
    try (right; reflexivity);
    try (right; eexists; reflexivity);
    try (right; eexists; eassumption);
    try (unfold CONT, HALT in *; discriminate).
Qed.

(** The shape of a run.  However long the machine runs on whatever code
    and input, as long as it stays within defined behaviour: the register
    file keeps its 16 cells and the stack its [MAX_STACK_HEIGHT] cells; what
    is left of the input is a suffix of the input (values are consumed from
    the front only); and [stderr] is empty while the machine runs, and
    holds at most the one diagnostic of an illegal instruction when it has
    halted. *)
Theorem run_keeps_shape (fuel : nat) (code : list Instruction) (input : list Z) :
  match simulateVM fuel code input with
  | Running vm io =>
      length (RF vm) = 16%nat /\
      length (stack vm) = Z.to_nat MAX_STACK_HEIGHT /\
      (exists consumed, input = consumed ++ vmIn io) /\
      stderr io = []
  | Halted vm io =>
      length (RF vm) = 16%nat /\
      length (stack vm) = Z.to_nat MAX_STACK_HEIGHT /\
      (exists consumed, input = consumed ++ vmIn io) /\
      (stderr io = [] \/ stderr io = ["Illegal instruction?"%string])
  | Undefined => True
  end.
Proof.
  unfold simulateVM.
  destruct (Z.of_nat (length code) >? MAX_CODE_LENGTH); [exact I|].
  destruct (dumpInstructions code) as [names|]; [|exact I].
  assert (H : forall vm io,
             length (RF vm) = 16%nat ->
             length (stack vm) = Z.to_nat MAX_STACK_HEIGHT ->
             (exists consumed, input = consumed ++ vmIn io) ->
             stderr io = [] ->
             match fetchExecute fuel code vm io with
             | Running vm' io' =>
                 length (RF vm') = 16%nat /\
                 length (stack vm') = Z.to_nat MAX_STACK_HEIGHT /\
                 (exists consumed, input = consumed ++ vmIn io') /\
                 stderr io' = []
             | Halted vm' io' =>
                 length (RF vm') = 16%nat /\
                 length (stack vm') = Z.to_nat MAX_STACK_HEIGHT /\
                 (exists consumed, input = consumed ++ vmIn io') /\
                 (stderr io' = [] \/ stderr io' = ["Illegal instruction?"%string])
             | Undefined => True
             end).
  { induction fuel as [|fuel IH]; intros vm io HR HS (consumed & Hin) He.
    - simpl. eauto.
    - cbn [fetchExecute].
      destruct (fetch code (PC vm)) as [ins|]; [|exact I].
      destruct (executeInstruction (setPC vm (wrap32 (PC vm + 1))) ins io)
        as [[[status vm'] io']|] eqn:E; [|exact I].
      pose proof (executeInstruction_footprint _ _ _ _ _ _ E)
        as (_ & _ & _ & _ & _ & _ & _ & HR' & HS').
      pose proof (executeInstruction_streams _ _ _ _ _ _ E)
        as (Hi & Hc & Hd).
      simpl in HR', HS'.
      assert (Hin' : exists consumed', input = consumed' ++ vmIn io').
      { destruct Hi as [Hi|[v Hi]]; rewrite Hi in Hin.
        - eauto.
        - exists (consumed ++ [v]). now rewrite <- app_assoc. }
      destruct (opcodeName (op ins)) as [name|]; [|exact I].
      destruct (dumpStack (S fuel) (stack vm') (SP vm') (BP vm'))
        as [items| |]; [|exact I|eauto].
      destruct (Z.eqb_spec status CONT) as [->|Hne].
      + apply IH; [congruence|congruence|exact Hin'|].
        rewrite Hc by reflexivity. exact He.
      + repeat split; [congruence|congruence|exact Hin'|].
        rewrite He in Hd. exact Hd. }
  apply H; [reflexivity|reflexivity|exists []; reflexivity|reflexivity].
Qed.

End VMMore.

(* ===================================================================== *)
(** * Properties of the parser                                            *)
(* ===================================================================== *)

Module ParserProps.
Import Parser ParserTerms.
Local Open Scope par_scope.

(** A token that passed a test for a token type is a token of the list:
    past the end, [getCurrentToken] gives [nulsym]. *)
Lemma guard_inside (p : Par) (t : Z) :
  id (getCurrentTokenFromIterator p) = t -> t <> nulsym ->
  (currentTokenInd p < length (tokenList p))%nat.
Proof.
  unfold getCurrentTokenFromIterator. intros H Ht.
  destruct (Nat.lt_ge_cases (currentTokenInd p) (length (tokenList p)))
    as [Hlt|Hge]; [exact Hlt|].
  rewrite nth_overflow in H by exact Hge. simpl in H. congruence.
Qed.

(** Running a parsing function symbolically. *)

Ltac unfold_step :=
  cbv [bind orReturn ret get tokenIs getCurrentTokenType getCurrentToken consume
       printCurrentToken nextToken printNonTerminal setCurrentLevel addSymbol
       const_item var_item relop negb orb];
  cbn [tokenList currentTokenInd currentLevel symbolTable out].

Ltac note_guard H :=
  lazymatch type of H with
  | id (getCurrentTokenFromIterator ?st) = ?t =>
      let G := fresh "G" in
      pose proof (guard_inside st t H ltac:(discriminate)) as G;
      cbn [tokenList currentTokenInd currentLevel symbolTable out] in G
  | _ => idtac
  end.

Ltac test_step :=
  match goal with
  | |- context [?x =? ?y] =>
      let H := fresh "T" in
      destruct (Z.eqb_spec x y) as [H|H]; [note_guard H|]
  end.

Ltac known :=
  unfold ready, after, remaining in *;
  cbn [tokenList currentTokenInd currentLevel symbolTable out] in *;
  repeat match goal with
         | H : _ /\ _ |- _ => destruct H
         end;
  repeat match goal with
         | H : tokenList ?a = _ |- _ => rewrite H in *; clear H
         end;
  repeat match goal with
         | H : currentLevel ?a = _ |- _ => rewrite H in *; clear H
         end;
  repeat match goal with
         | |- context [wrapu32 ?z] =>
             lazymatch goal with
             | H : 0 <= wrapu32 z < _ |- _ => fail
             | _ => pose proof (CodeGenMore.wrapu32_range z)
             end
         end.

Ltac settle :=
  known;
  rewrite ?CodeGenMore.wrapu32_back by lia;
  repeat match goal with
         | |- _ /\ _ => split
         end;
  first [ reflexivity | assumption | lia | congruence ].

Ltac call_step IH :=
  match goal with
  | |- context [?f ?n ?st] =>
      lazymatch type of IH with
      | returns _ (f n) _ =>
          let e := fresh "e" in
          let p' := fresh "p" in
          let E := fresh "E" in
          let A := fresh "A" in
          destruct (IH st) as (e & p' & E & A);
          [ settle | settle | rewrite E; clear E ]
      end
  end.


Ltac finish := do 2 eexists; split; [reflexivity|settle].

Ltac run_with calls :=
  unfold_step;
  repeat (first [ test_step | calls ]; unfold_step);
  finish.

Lemma const_loop_returns (n : nat) : returns 1 (const_loop n) n.
Proof.
  induction n as [|n IH]; intros p Hr Hfuel; [lia|].
  cbn [const_loop]. run_with ltac:(idtac; call_step IH).
Qed.

Lemma var_loop_returns (n : nat) : returns 1 (var_loop n) n.
Proof.
  induction n as [|n IH]; intros p Hr Hfuel; [lia|].
  cbn [var_loop]. run_with ltac:(idtac; call_step IH).
Qed.

Lemma const_declaration_returns (n : nat) : returns 1 (const_declaration n) n.
Proof.
  pose proof (const_loop_returns n) as Hl.
  intros p Hr Hfuel. unfold const_declaration.
  run_with ltac:(idtac; call_step Hl).
Qed.

Lemma var_declaration_returns (n : nat) : returns 1 (var_declaration n) n.
Proof.
  pose proof (var_loop_returns n) as Hl.
  intros p Hr Hfuel. unfold var_declaration.
  run_with ltac:(idtac; call_step Hl).
Qed.

Lemma parsing_returns (n : nat) : all_return n.
Proof.
  induction n as [|n IH].
  - repeat split; intros p _ Hf; lia.
  - destruct IH as (Hb & Hp & Hs & Hsl & Hc & He & Hel & Ht & Htl & Hf).
    pose proof (const_declaration_returns n) as Hcd.
    pose proof (var_declaration_returns n) as Hvd.
    repeat split; intros p Hr Hfuel.
    + cbn [block].
      run_with ltac:(idtac; first [call_step Hcd | call_step Hvd | call_step Hp
                                  | call_step Hs]).
    + cbn [proc_loop].
      run_with ltac:(idtac; first [call_step Hb | call_step Hp]).
    + cbn [statement].
      run_with ltac:(idtac; first [call_step He | call_step Hs | call_step Hsl
                                  | call_step Hc]).
    + cbn [statement_loop].
      run_with ltac:(idtac; first [call_step Hs | call_step Hsl]).
    + cbn [condition]. run_with ltac:(idtac; call_step He).
    + cbn [expression].
      run_with ltac:(idtac; first [call_step Ht | call_step Hel]).
    + cbn [expression_loop].
      run_with ltac:(idtac; first [call_step Ht | call_step Hel]).
    + cbn [term].
      run_with ltac:(idtac; first [call_step Hf | call_step Htl]).
    + cbn [term_loop].
      run_with ltac:(idtac; first [call_step Hf | call_step Htl]).
    + cbn [factor]. run_with ltac:(idtac; call_step He).
Qed.


(** ** The parser terminates *)

Lemma parser_returns (tokens : list Token) (fuel : nat) :
  (6 * length tokens + 6 <= fuel)%nat ->
  exists err p,
    parser fuel tokens = Some (err, p) /\
    0 <= err <= 14 /\
    tokenList p = tokens /\
    (currentTokenInd p <= length tokens)%nat /\
    currentLevel p = 0.
Proof.
  intros Hfuel. unfold parser, program, initial.
  destruct (parsing_returns fuel) as (Hb & _).
  run_with ltac:(idtac; call_step Hb).
Qed.

(** The parser terminates.  Whatever the token list, [parser] returns once
    its budget is 6 units per token plus 6, with an error code from 0 to
    14, the cursor inside the list or just after it, the token list as it
    was given, and [currentLevel] back at 0. *)
Theorem parser_terminates (tokens : list Token) (fuel : nat) :
  (6 * length tokens + 6 <= fuel)%nat ->
  exists err p,
    parser fuel tokens = Some (err, p) /\
    0 <= err <= 14 /\
    tokenList p = tokens /\
    (currentTokenInd p <= length tokens)%nat /\
    currentLevel p = 0.
Proof. apply parser_returns. Qed.

Lemma parser_terminates_witness :
  exists err p,
    parser 60 unfinished_program = Some (err, p) /\
    0 <= err <= 14 /\
    tokenList p = unfinished_program /\
    (currentTokenInd p <= 9)%nat /\
    currentLevel p = 0.
Proof.
  apply (parser_terminates unfinished_program 60). simpl. lia.
Defined.

(** ** The budget does not change the result *)

Lemma le_par_refl {A} (c : Parse A) : le_par c c.
Proof. intros p. now right. Qed.

Lemma le_par_nofuel {A} (c : Parse A) : le_par nofuel c.
Proof. intros p. now left. Qed.

Lemma le_par_bind {A B} (c1 c2 : Parse A) (k1 k2 : A -> Parse B) :
  le_par c1 c2 -> (forall a, le_par (k1 a) (k2 a)) ->
  le_par (bind c1 k1) (bind c2 k2).
Proof.
  intros Hc Hk p. unfold bind.
  destruct (Hc p) as [E|E]; rewrite E; [now left|].
  destruct (c2 p) as [[a p']|]; [apply Hk|now right].
Qed.

Lemma le_par_orReturn (c1 c2 k1 k2 : Parse Z) :
  le_par c1 c2 -> le_par k1 k2 -> le_par (orReturn c1 k1) (orReturn c2 k2).
Proof.
  intros Hc Hk. unfold orReturn. apply le_par_bind; [assumption|].
  intros err. destruct (negb (err =? 0)); [apply le_par_refl|assumption].
Qed.

Lemma le_par_if {A} (b : bool) (c1 c2 d1 d2 : Parse A) :
  le_par c1 c2 -> le_par d1 d2 ->
  le_par (if b then c1 else d1) (if b then c2 else d2).
Proof. destruct b; auto. Qed.

Ltac budget :=
  repeat lazymatch goal with
    | |- le_par nofuel _ => apply le_par_nofuel
    | |- le_par ?c ?c => apply le_par_refl
    | |- le_par (orReturn _ _) (orReturn _ _) => apply le_par_orReturn
    | |- le_par (bind _ _) (bind _ _) => apply le_par_bind; [|intros ?]
    | |- le_par (if ?b then _ else _) (if ?b then _ else _) => apply le_par_if
    | |- le_par _ _ => match goal with H : _ |- _ => apply H end
    end.

Lemma const_loop_le (n m : nat) :
  (n <= m)%nat -> le_par (const_loop n) (const_loop m).
Proof.
  revert m. induction n as [|n IH]; intros m Hle; [apply le_par_nofuel|].
  destruct m as [|m]; [lia|]. specialize (IH m ltac:(lia)).
  cbn [const_loop]. budget.
Qed.

Lemma var_loop_le (n m : nat) :
  (n <= m)%nat -> le_par (var_loop n) (var_loop m).
Proof.
  revert m. induction n as [|n IH]; intros m Hle; [apply le_par_nofuel|].
  destruct m as [|m]; [lia|]. specialize (IH m ltac:(lia)).
  cbn [var_loop]. budget.
Qed.

Lemma parsing_le (n : nat) : forall m, (n <= m)%nat -> all_le n m.
Proof.
  induction n as [|n IH]; intros m Hle.
  - repeat split; intros; apply le_par_nofuel.
  - destruct m as [|m]; [lia|].
    destruct (IH m ltac:(lia))
      as (Hb & Hp & Hs & Hsl & Hc & He & Hel & Ht & Htl & Hf).
    pose proof (const_loop_le n m ltac:(lia)) as Hcl.
    pose proof (var_loop_le n m ltac:(lia)) as Hvl.
    repeat split; intros.
    + cbn [block]. unfold const_declaration, var_declaration. budget.
    + cbn [proc_loop]. budget.
    + cbn [statement]. budget.
    + cbn [statement_loop]. budget.
    + cbn [condition]. budget.
    + cbn [expression]. budget.
    + cbn [expression_loop]. budget.
    + cbn [term]. budget.
    + cbn [term_loop]. budget.
    + cbn [factor]. budget.
Qed.

Lemma parser_more_fuel (n m : nat) (tokens : list Token) (res : Z * Par) :
  (n <= m)%nat -> parser n tokens = Some res -> parser m tokens = Some res.
Proof.
  intros Hle E. unfold parser in *.
  destruct (parsing_le n m Hle) as (Hb & _).
  assert (Hp : le_par (program n) (program m)) by (unfold program; budget).
  destruct (Hp (initial tokens)) as [H|H]; congruence.
Qed.

(** ** The history *)

Section Kept.

Variable P : Par -> Prop.

Lemma keeps_ret {A} (a : A) : keeps P (ret a).
Proof. intros p H. exact H. Qed.

Lemma keeps_nofuel {A} : keeps P (@nofuel A).
Proof. intros p H. exact I. Qed.

Lemma keeps_bind {A B} (c : Parse A) (k : A -> Parse B) :
  keeps P c -> (forall a, keeps P (k a)) -> keeps P (bind c k).
Proof.
  intros Hc Hk p H. unfold bind. specialize (Hc p H).
  destruct (c p) as [[a p']|]; [now apply Hk|exact I].
Qed.

Lemma keeps_orReturn (c k : Parse Z) :
  keeps P c -> keeps P k -> keeps P (orReturn c k).
Proof.
  intros Hc Hk. unfold orReturn. apply keeps_bind; [assumption|].
  intros err. destruct (negb (err =? 0)); [apply keeps_ret|assumption].
Qed.

Lemma keeps_if {A} (b : bool) (c d : Parse A) :
  keeps P c -> keeps P d -> keeps P (if b then c else d).
Proof. destruct b; auto. Qed.

Hypothesis P_consume : keeps P consume.
Hypothesis P_printNonTerminal : forall nt, keeps P (printNonTerminal nt).
Hypothesis P_setCurrentLevel : forall f, keeps P (setCurrentLevel f).
Hypothesis P_addSymbol : forall sym, keeps P (addSymbol sym).

Ltac kept :=
  repeat lazymatch goal with
    | |- keeps _ nofuel => apply keeps_nofuel
    | |- keeps _ (ret _) => apply keeps_ret
    | |- keeps _ (orReturn _ _) => apply keeps_orReturn
    | |- keeps _ consume => apply P_consume
    | |- keeps _ (bind _ _) => apply keeps_bind; [|intros ?]
    | |- keeps _ (if _ then _ else _) => apply keeps_if
    | |- keeps _ (printNonTerminal _) => apply P_printNonTerminal
    | |- keeps _ (setCurrentLevel _) => apply P_setCurrentLevel
    | |- keeps _ (addSymbol _) => apply P_addSymbol
    | |- keeps _ get => intros ? ?; assumption
    | |- keeps _ getCurrentToken => intros ? ?; assumption
    | |- keeps _ getCurrentTokenType => intros ? ?; assumption
    | |- keeps _ (tokenIs _) => intros ? ?; assumption
    | |- keeps _ _ => match goal with H : _ |- _ => apply H end
    end.

Lemma parsing_keeps (n : nat) : all_keep P n.
Proof.
  induction n as [|n IH].
  - repeat split; intros; apply keeps_nofuel.
  - destruct IH as (Hb & Hp & Hs & Hsl & Hc & He & Hel & Ht & Htl & Hf).
    assert (Hcl : forall k, keeps P (const_loop k)).
    { induction k as [|k IHk]; cbn [const_loop]; unfold const_item; kept. }
    assert (Hvl : forall k, keeps P (var_loop k)).
    { induction k as [|k IHk]; cbn [var_loop]; unfold var_item; kept. }
    repeat split; intros.
    + cbn [block].
      unfold const_declaration, var_declaration, const_item, var_item. kept.
    + cbn [proc_loop]. kept.
    + cbn [statement]. kept.
    + cbn [statement_loop]. kept.
    + cbn [condition]. unfold relop. kept.
    + cbn [expression]. kept.
    + cbn [expression_loop]. kept.
    + cbn [term]. kept.
    + cbn [term_loop]. kept.
    + cbn [factor]. kept.
Qed.

Lemma program_keeps (n : nat) : keeps P (program n).
Proof.
  destruct (parsing_keeps n) as (Hb & _). unfold program. kept.
Qed.

End Kept.

Lemma tokens_of_app (a b : list Line) :
  tokens_of (a ++ b) = tokens_of a ++ tokens_of b.
Proof.
  induction a as [|[nt|t] a IH]; simpl; [reflexivity|exact IH|now rewrite IH].
Qed.

Lemma passed_inside (p : Par) :
  (currentTokenInd p <= length (tokenList p))%nat ->
  passed p = firstn (currentTokenInd p) (tokenList p).
Proof.
  unfold passed. generalize (currentTokenInd p) (tokenList p).
  intros n l. induction n as [|n IH]; intros Hle; [reflexivity|].
  rewrite seq_S, map_app. simpl.
  destruct (lookup_lt_is_Some_2 l n ltac:(lia)) as [x Hx].
  rewrite (take_S_r l n x Hx), IH by lia.
  now rewrite (nth_lookup_Some l n _ x Hx).
Qed.

Lemma history_ok_program (tokens : list Token) (n : nat) :
  keeps (history_ok tokens) (program n).
Proof.
  apply program_keeps.
  - intros p [Ht Ho]. cbv [consume bind printCurrentToken nextToken].
    unfold history_ok, passed in *.
    cbn [tokenList currentTokenInd currentLevel symbolTable out].
    split; [exact Ht|].
    rewrite tokens_of_app, Ho, seq_S, map_app. reflexivity.
  - intros nt p [Ht Ho]. cbv [printNonTerminal].
    unfold history_ok, passed in *.
    cbn [tokenList currentTokenInd currentLevel symbolTable out].
    split; [exact Ht|].
    rewrite tokens_of_app, Ho. simpl. apply app_nil_r.
  - intros f p H. exact H.
  - intros sym p H. exact H.
Qed.

(** The history lists the tokens consumed.  Whenever [parser] returns, the
    [TOKEN] lines of the history it has written are, in order, the tokens
    of the list before the cursor, and the cursor is inside the list or
    just after it; the parser never shows or steps over a token that is
    not there. *)
Theorem parser_history (tokens : list Token) (fuel : nat) (err : Z) (p : Par) :
  parser fuel tokens = Some (err, p) ->
  (currentTokenInd p <= length tokens)%nat /\
  tokens_of (out p) = firstn (currentTokenInd p) tokens.
Proof.
  intros E.
  assert (Hin : tokenList p = tokens /\
                (currentTokenInd p <= length tokens)%nat).
  { destruct (parser_returns tokens (fuel + (6 * length tokens + 6))
                ltac:(lia)) as (e' & p' & E' & _ & Ht & Hc & _).
    rewrite (parser_more_fuel fuel (fuel + (6 * length tokens + 6)) tokens
               (err, p) ltac:(lia) E) in E'.
    injection E' as <- <-. auto. }
  destruct Hin as [Ht Hc]. split; [exact Hc|].
  pose proof (history_ok_program tokens fuel (initial tokens)) as H.
  unfold parser in E. rewrite E in H.
  destruct H as [_ Ho]; [split; reflexivity|].
  rewrite Ho, passed_inside by (rewrite Ht; exact Hc). now rewrite Ht.
Qed.

Lemma parser_history_witness :
  exists err p,
    parser 60 unfinished_program = Some (err, p) /\
    (currentTokenInd p <= 9)%nat /\
    tokens_of (out p) = firstn (currentTokenInd p) unfinished_program.
Proof.
  destruct (parser 60 unfinished_program) as [[e p]|] eqn:E;
    [|vm_compute in E; discriminate].
  exists e, p. split; [reflexivity|].
  exact (parser_history unfinished_program 60 e p E).
Defined.

(** Every parsing function gives back the level.  Called in any state
    whose cursor is inside the token list, with 6 units of budget per
    remaining token plus 6, each of [block], [statement], [condition] and
    [expression] returns, with a code from 0 to 14, the cursor moved
    forward inside the list, the token list untouched and [currentLevel] as
    it was at the call, whether the code is 0 or not. *)
Theorem parsing_gives_back_level (n : nat) (c : Parse Z) (p : Par) :
  In c [block n; statement n; condition n; expression n] ->
  ready p ->
  (6 * remaining p + 6 <= n)%nat ->
  exists e p', c p = Some (e, p') /\ after p e p'.
Proof.
  destruct (parsing_returns n) as (Hb & _ & Hs & _ & Hc & He & _).
  intros [<-|[<-|[<-|[<-|[]]]]] Hr Hf.
  - apply Hb; [exact Hr|lia].
  - apply Hs; [exact Hr|lia].
  - apply Hc; [exact Hr|lia].
  - apply He; [exact Hr|lia].
Qed.

Lemma parsing_gives_back_level_witness :
  exists e p',
    statement 60 (mkPar unfinished_program 0 3 [] []) = Some (e, p') /\
    after (mkPar unfinished_program 0 3 [] []) e p'.
Proof.
  apply (parsing_gives_back_level 60 (statement 60)
           (mkPar unfinished_program 0 3 [] [])).
  - right. left. reflexivity.
  - unfold ready. cbn [tokenList currentTokenInd currentLevel]. simpl. lia.
  - unfold remaining. cbn [tokenList currentTokenInd]. simpl. lia.
Defined.

End ParserProps.

(* ===================================================================== *)
(** * The parser and the code generator                                   *)
(* ===================================================================== *)

Module Agreement.
Import AgreementTerms.

Ltac unfold_both :=
  cbv [CodeGen.bind CodeGen.orReturn CodeGen.ret CodeGen.get CodeGen.tokenIs
       CodeGen.getCurrentTokenType CodeGen.getCurrentToken
       CodeGen.getCurrentTokenFromIterator CodeGen.nextToken CodeGen.emit
       CodeGen.patch_m CodeGen.setCurrentReg CodeGen.setCurrentLevel
       CodeGen.setCurrentScope CodeGen.addSymbol CodeGen.currentSymbol
       CodeGen.findLevel CodeGen.emitBinary CodeGen.emitForCurrentSymbol
       CodeGen.const_item CodeGen.var_item
       Parser.bind Parser.orReturn Parser.ret Parser.get Parser.tokenIs
       Parser.getCurrentTokenType Parser.getCurrentToken
       Parser.getCurrentTokenFromIterator Parser.consume
       Parser.printCurrentToken Parser.nextToken Parser.printNonTerminal
       Parser.setCurrentLevel Parser.addSymbol Parser.const_item
       Parser.var_item Parser.relop negb orb];
  cbn [CodeGen.tokenList CodeGen.currentTokenInd CodeGen.currentLevel
       CodeGen.currentScope CodeGen.symbolTable CodeGen.vmCode
       CodeGen.currentReg
       Parser.tokenList Parser.currentTokenInd Parser.currentLevel
       Parser.symbolTable Parser.out];
  repeat match goal with
         | H : Parser.tokenList _ = _ |- _ => rewrite H
         | H : Parser.currentTokenInd _ = _ |- _ => rewrite H
         | H : Parser.currentLevel _ = _ |- _ => rewrite H
         | H : Parser.symbolTable _ = _ |- _ => rewrite H
         end.

Ltac agreed :=
  unfold agree;
  cbn [CodeGen.tokenList CodeGen.currentTokenInd CodeGen.currentLevel
       CodeGen.currentScope CodeGen.symbolTable CodeGen.vmCode
       CodeGen.currentReg
       Parser.tokenList Parser.currentTokenInd Parser.currentLevel
       Parser.symbolTable Parser.out];
  repeat split; congruence.

Ltac dead :=
  let X := fresh "X" in cbv beta iota; intros X; discriminate X.

Ltac both_step :=
  match goal with
  | |- CodeGen.Exits _ = CodeGen.Ret _ _ -> _ => dead
  | |- CodeGen.NullDeref _ = CodeGen.Ret _ _ -> _ => dead
  | |- CodeGen.NoFuel = CodeGen.Ret _ _ -> _ => dead
  | |- context [?x =? ?y] =>
      destruct (Z.eqb_spec x y); try (exfalso; congruence)
  | |- context [?x <? ?y] => destruct (x <? y)
  | |- context [CodeGen.findSymbol ?a ?b ?c] =>
      destruct (CodeGen.findSymbol a b c)
  | |- context [CodeGen.SymbolKind_eqb ?a ?b] =>
      destruct (CodeGen.SymbolKind_eqb a b)
  | |- context [if ?b then _ else _] => is_var b; destruct b
  end.

Ltac last_step :=
  lazymatch goal with
  | |- CodeGen.Ret _ _ = CodeGen.Ret _ _ -> _ =>
      let X := fresh "X" in
      intros X; injection X as ? ?; subst;
      first [ exfalso; congruence
            | eexists; split; [reflexivity|intros _; agreed] ]
  end.

Ltac call_both IH H7 H16 :=
  lazymatch type of IH with
  | follows ?c ?d =>
      match goal with
      | |- context [c ?ss] =>
          match goal with
          | |- context [d ?sp] =>
              let e1 := fresh "e" in
              let s1 := fresh "s" in
              let E1 := fresh "E" in
              let p1 := fresh "p" in
              let Ep := fresh "Ep" in
              let Ha := fresh "Ha" in
              let X := fresh "X" in
              destruct (c ss) as [e1 s1|s1|s1|] eqn:E1; [|dead|dead|dead];
              let Hne := fresh "Hne" in
              destruct (Z.eqb_spec e1 0) as [->|Hne];
              [ destruct (IH ss sp 0 s1 ltac:(agreed) E1 ltac:(discriminate)
                            ltac:(discriminate)) as (p1 & Ep & Ha);
                specialize (Ha eq_refl); destruct Ha as (? & ? & ? & ?);
                rewrite Ep; clear Ep E1
              | cbv beta iota;
                repeat (rewrite (proj2 (Z.eqb_neq e1 0) Hne); cbv beta iota);
                intros X; injection X as ? ?; subst;
                destruct (IH ss sp _ _ ltac:(agreed) E1 H7 H16)
                  as (p1 & Ep & Ha);
                rewrite Ep; clear Ep E1; unfold_both;
                repeat match goal with
                       | |- context [?x =? ?y] => destruct (Z.eqb_spec x y)
                       end;
                try contradiction;
                eexists; split; [reflexivity|intros; contradiction] ]
          end
      end
  end.

Ltac run_both calls :=
  unfold_both;
  repeat (first [ last_step | both_step | calls ]; unfold_both).

Lemma const_loop_follows (n : nat) :
  follows (CodeGen.const_loop n) (Parser.const_loop n).
Proof.
  induction n as [|n IH]; intros s p err s' (? & ? & ? & ?) E H7 H16; revert E;
    [dead|].
  cbn [CodeGen.const_loop Parser.const_loop].
  run_both ltac:(idtac; call_both IH H7 H16).
Qed.

Lemma var_loop_follows (n : nat) :
  follows (CodeGen.var_loop n) (Parser.var_loop n).
Proof.
  induction n as [|n IH]; intros s p err s' (? & ? & ? & ?) E H7 H16; revert E;
    [dead|].
  cbn [CodeGen.var_loop Parser.var_loop].
  run_both ltac:(idtac; call_both IH H7 H16).
Qed.

Lemma const_declaration_follows (n : nat) :
  follows (CodeGen.const_declaration n) (Parser.const_declaration n).
Proof.
  pose proof (const_loop_follows n) as Hl.
  intros s p err s' (? & ? & ? & ?) E H7 H16; revert E.
  unfold CodeGen.const_declaration, Parser.const_declaration.
  run_both ltac:(idtac; call_both Hl H7 H16).
Qed.

Lemma var_declaration_follows (n : nat) :
  follows (CodeGen.var_declaration n) (Parser.var_declaration n).
Proof.
  pose proof (var_loop_follows n) as Hl.
  intros s p err s' (? & ? & ? & ?) E H7 H16; revert E.
  unfold CodeGen.var_declaration, Parser.var_declaration.
  run_both ltac:(idtac; call_both Hl H7 H16).
Qed.

Ltac call_flags IH H7 H16 :=
  match goal with
  | |- context [CodeGen.expression_loop _ ?a ?b _] => call_both (IH a b) H7 H16
  | |- context [CodeGen.term_loop _ ?a ?b _] => call_both (IH a b) H7 H16
  end.

Lemma parsing_follows (n : nat) : all_follow n.
Proof.
  induction n as [|n IH].
  - repeat split; intros; intros s p err s' _ E; discriminate E.
  - destruct IH as (Hb & Hp & Hs & Hsl & Hc & He & Hel & Ht & Htl & Hf).
    pose proof (const_declaration_follows n) as Hcd.
    pose proof (var_declaration_follows n) as Hvd.
    repeat split; intros;
      intros s p err s' (? & ? & ? & ?) E H7 H16; revert E.
    + cbn [CodeGen.block Parser.block].
      run_both ltac:(idtac; first [ call_both Hcd H7 H16 | call_both Hvd H7 H16
                                  | call_both Hp H7 H16 | call_both Hs H7 H16 ]).
    + cbn [CodeGen.proc_declaration Parser.proc_loop].
      run_both ltac:(idtac; first [ call_both Hb H7 H16 | call_both Hp H7 H16 ]).
    + cbn [CodeGen.statement Parser.statement].
      run_both ltac:(idtac; first [ call_both He H7 H16 | call_both Hs H7 H16
                                  | call_both Hsl H7 H16 | call_both Hc H7 H16 ]).
    + cbn [CodeGen.statement_loop Parser.statement_loop].
      run_both ltac:(idtac; first [ call_both Hs H7 H16 | call_both Hsl H7 H16 ]).
    + cbn [CodeGen.condition Parser.condition].
      run_both ltac:(idtac; call_both He H7 H16).
    + cbn [CodeGen.expression Parser.expression].
      run_both ltac:(idtac; first [ call_both Ht H7 H16 | call_flags Hel H7 H16 ]).
    + cbn [CodeGen.expression_loop Parser.expression_loop].
      run_both ltac:(idtac; first [ call_both Ht H7 H16 | call_flags Hel H7 H16 ]).
    + cbn [CodeGen.term Parser.term].
      run_both ltac:(idtac; first [ call_both Hf H7 H16 | call_flags Htl H7 H16 ]).
    + cbn [CodeGen.term_loop Parser.term_loop].
      run_both ltac:(idtac; first [ call_both Hf H7 H16 | call_flags Htl H7 H16 ]).
    + cbn [CodeGen.factor Parser.factor].
      run_both ltac:(idtac; call_both He H7 H16).
Qed.


(** The parser follows the code generator.  Whenever [codeGenerator]
    returns a code other than 7 and 16 for a token list, [parser] returns
    the same code for it (with the same budget); when the code is 0, the
    two have consumed the same tokens and declared the same symbols, and
    both are back at the same level.  (The generator's codes 16, and 7 for
    the call of a constant or variable, come from symbol checks that the
    parser does not make.) *)
Theorem parser_follows_generator (n : nat) (tokens : list Token) (err : Z)
  (s : CodeGen.CG) :
  CodeGen.codeGenerator n tokens = CodeGen.Ret err s ->
  err <> 7 -> err <> 16 ->
  exists p, Parser.parser n tokens = Some (err, p) /\ (err = 0 -> agree s p).
Proof.
  unfold CodeGen.codeGenerator, Parser.parser, CodeGen.program, Parser.program,
    CodeGen.initial, Parser.initial.
  destruct (parsing_follows n) as (Hb & _).
  intros E H7 H16. revert E.
  run_both ltac:(idtac; call_both Hb H7 H16).
Qed.

Lemma parser_follows_generator_witness :
  exists s p,
    CodeGen.codeGenerator 5 CodeGenTerms.read_program = CodeGen.Ret 0 s /\
    Parser.parser 5 CodeGenTerms.read_program = Some (0, p) /\
    agree s p.
Proof.
  destruct (CodeGen.codeGenerator 5 CodeGenTerms.read_program)
    as [e s|s|s|] eqn:E; try (vm_compute in E; discriminate).
  assert (He : e = 0) by (vm_compute in E; congruence). subst e.
  destruct (parser_follows_generator 5 CodeGenTerms.read_program 0 s E
              ltac:(discriminate) ltac:(discriminate)) as (p & Ep & Ha).
  exists s, p. auto.
Defined.

End Agreement.
